(** * USSD platform: sessions, their reaper, the engine and the admin pages

    The repository ships the PostgreSQL schema of the platform
    ([db/init]: tables, seed services and the PL/pgSQL function
    [end_inactive_sessions]) and the React administration pages
    ([Sessions.js], [Services.js]).  They are embedded here as they are
    written.  The session engine itself (the API behind [/ussd]) is not
    part of the sources; where a property is about it, it is modelled
    from the specification, over the tables of the schema, and every
    such definition says so. *)

From Stdlib Require Import ZArith List Ascii String Bool Lia.
From stdpp Require Import base list strings gmap.

Local Open Scope Z_scope.

(** ** JSON values

    [menu_structure] and [session_data] are JSONB columns, and the admin
    pages hold services and sessions as JavaScript objects.  An object is
    an association list: key order is the insertion order, as in
    JavaScript. *)

#[local] Unset Elimination Schemes.
Inductive json : Type :=
| JNull
| JBool (b : bool)
| JNum (m e : Z)   (* the number m * 10^e *)
| JStr (s : string)
| JArr (items : list json)
| JObj (fields : list (string * json)).
#[local] Set Elimination Schemes.

(** ** SQL values: NULL and three-valued logic *)

Module Sql.

(** A nullable column or expression: [None] is NULL. *)
Definition nullable (A : Type) := option A.

(** [TIMESTAMP WITH TIME ZONE]: microseconds since the epoch, without
    the bounds of the type. *)
Definition timestamptz := Z.

(** [INTERVAL '1 minute'], in microseconds. *)
Definition minute : Z := 60000000.

(** [a * b] on nullable numbers: NULL if either side is. *)
Definition times (a b : nullable Z) : nullable Z :=
  match a, b with
  | Some x, Some y => Some (x * y)
  | _, _ => None
  end.

(** [a - b]. *)
Definition minus (a b : nullable Z) : nullable Z :=
  match a, b with
  | Some x, Some y => Some (x - y)
  | _, _ => None
  end.

(** [a < b]: unknown when either side is NULL. *)
Definition lt (a b : nullable Z) : nullable bool :=
  match a, b with
  | Some x, Some y => Some (x <? y)
  | _, _ => None
  end.

(** [a = b] on booleans. *)
Definition eqb (a b : nullable bool) : nullable bool :=
  match a, b with
  | Some x, Some y => Some (Bool.eqb x y)
  | _, _ => None
  end.

(** [a AND b]: false wins over unknown. *)
Definition and (a b : nullable bool) : nullable bool :=
  match a, b with
  | Some false, _ | _, Some false => Some false
  | Some true, Some true => Some true
  | _, _ => None
  end.

(** A [WHERE] clause keeps the rows on which its condition is true;
    false and unknown both drop the row. *)
Definition holds (c : nullable bool) : bool :=
  match c with
  | Some true => true
  | _ => false
  end.

(** Why a statement is refused. *)
Inductive sql_error : Type :=
| unique_violation (constraint : string)
| foreign_key_violation (constraint : string).

End Sql.

(** ** The table [ussd_sessions] and [end_inactive_sessions] *)

Module Db.
Import Sql.

(** One row of [users]. *)
Module Users.
Record user : Type := {
  id : Z;                          (* SERIAL PRIMARY KEY *)
  phone_number : string;           (* VARCHAR(20) UNIQUE NOT NULL *)
  first_name : nullable string;    (* VARCHAR(50) *)
  last_name : nullable string;     (* VARCHAR(50) *)
  registered_at : timestamptz;     (* DEFAULT NOW() NOT NULL *)
  last_activity : nullable timestamptz; (* DEFAULT NOW() *)
  is_active : nullable bool        (* BOOLEAN DEFAULT TRUE *)
}.
End Users.

(** One row of [ussd_sessions].  Columns declared [NOT NULL] (and the
    primary key) are plain values, the others are nullable. *)
Record ussd_session : Type := {
  id : Z;                          (* SERIAL PRIMARY KEY *)
  session_id : string;             (* VARCHAR(100) UNIQUE NOT NULL *)
  user_id : Z;                     (* INTEGER NOT NULL REFERENCES users(id) *)
  service_code : nullable string;  (* VARCHAR(20) *)
  current_menu : nullable string;  (* VARCHAR(100) *)
  session_data : nullable json;    (* JSONB *)
  started_at : timestamptz;        (* DEFAULT NOW() NOT NULL *)
  last_activity : nullable timestamptz; (* DEFAULT NOW() *)
  ended_at : nullable timestamptz;
  is_active : nullable bool        (* BOOLEAN DEFAULT TRUE *)
}.

Abbreviation table := (list ussd_session).

(** [NOW() - (timeout_minutes * INTERVAL '1 minute')].  The function is
    not [STRICT], so [timeout_minutes] may be NULL. *)
Definition cutoff (now : timestamptz) (timeout_minutes : nullable Z)
  : nullable timestamptz :=
  minus (Some now) (times timeout_minutes (Some minute)).

(** The [WHERE] condition of the sweep:
    [is_active = TRUE AND last_activity < NOW() - ...]. *)
Definition sweep_condition (now : timestamptz) (timeout_minutes : nullable Z)
    (s : ussd_session) : nullable bool :=
  and (eqb (is_active s) (Some true))
      (lt (last_activity s) (cutoff now timeout_minutes)).

(** The [SET] list: [is_active = FALSE, ended_at = NOW()]. *)
Definition sweep_set (now : timestamptz) (s : ussd_session) : ussd_session :=
  {| id := id s;
     session_id := session_id s;
     user_id := user_id s;
     service_code := service_code s;
     current_menu := current_menu s;
     session_data := session_data s;
     started_at := started_at s;
     last_activity := last_activity s;
     ended_at := Some now;
     is_active := Some false |}.

(** What the [UPDATE] does to one row. *)
Definition sweep_row (now : timestamptz) (timeout_minutes : nullable Z)
    (s : ussd_session) : ussd_session :=
  if holds (sweep_condition now timeout_minutes s) then sweep_set now s else s.

(** [end_inactive_sessions(timeout_minutes)], run in a transaction whose
    [NOW()] is [now], on the table [tbl]: the table after the [UPDATE]
    and the returned [ROW_COUNT].  The count is taken to fit [INTEGER]
    (a table below 2^31 rows). *)
Definition end_inactive_sessions (now : timestamptz)
    (timeout_minutes : nullable Z) (tbl : table) : table * Z :=
  let matched := filter (fun s => holds (sweep_condition now timeout_minutes s)) tbl in
  let tbl' := sweep_row now timeout_minutes <$> tbl in
  let affected_rows := Z.of_nat (length matched) in
  (tbl', affected_rows).

(** [INSERT INTO ussd_sessions] of the row [r], all columns given,
    while [users] holds the rows [us]: the constraints of the table
    decide whether the row is stored.  Strings are taken to fit the
    length of their columns. *)
Definition insert (us : list Users.user) (r : ussd_session) (tbl : table)
  : sql_error + table :=
  if bool_decide (id r ∈ id <$> tbl)
  then inl (unique_violation "ussd_sessions_pkey")
  else if bool_decide (session_id r ∈ session_id <$> tbl)
  then inl (unique_violation "ussd_sessions_session_id_key")
  else if bool_decide (user_id r ∈ Users.id <$> us)
  then inr (tbl ++ [r])
  else inl (foreign_key_violation "ussd_sessions_user_id_fkey").

(** [SELECT * FROM ussd_sessions WHERE session_id = sid]: the first row
    with that identifier, if there is one (the unique index of the
    table allows no second). *)
Definition select_session (sid : string) (tbl : table) : option ussd_session :=
  find (fun s => String.eqb (session_id s) sid) tbl.

(** The row an [INSERT] builds when it names only [session_id],
    [user_id], [service_code], [current_menu] and [session_data]: the
    other columns take their declared defaults, [id] the next value
    [seq] of its sequence. *)
Definition with_defaults (now : timestamptz) (seq : Z)
    (sid : string) (uid : Z) (svc menu : nullable string)
    (data : nullable json) : ussd_session :=
  {| id := seq;
     session_id := sid;
     user_id := uid;
     service_code := svc;
     current_menu := menu;
     session_data := data;
     started_at := now;
     last_activity := Some now;
     ended_at := None;
     is_active := Some true |}.

(** A session as an [INSERT] makes it when it gives no value for
    [is_active] and [ended_at]: active, by the default [TRUE], and with
    no end time. *)
Definition created (r : ussd_session) : Prop :=
  is_active r = Some true /\ ended_at r = None.

(** The tables that come from the empty table by [INSERT]s the table
    accepts, of rows that satisfy [new], and by runs of
    [end_inactive_sessions]. *)
Inductive reachable (new : ussd_session -> Prop) : table -> Prop :=
| reachable_empty :
    reachable new []
| reachable_insert us r tbl tbl' :
    reachable new tbl -> new r -> insert us r tbl = inr tbl' ->
    reachable new tbl'
| reachable_sweep now timeout_minutes tbl :
    reachable new tbl ->
    reachable new (end_inactive_sessions now timeout_minutes tbl).1.


(** [s'] has the values of [s] in every column the sweep does not
    assign. *)
Definition same_other_columns (s s' : ussd_session) : Prop :=
  id s' = id s /\ session_id s' = session_id s /\ user_id s' = user_id s /\
  service_code s' = service_code s /\ current_menu s' = current_menu s /\
  session_data s' = session_data s /\ started_at s' = started_at s /\
  last_activity s' = last_activity s.

(** Number of rows with [is_active = TRUE]
    (the rows of the view [vw_active_sessions]). *)
Definition count_active (tbl : table) : Z :=
  Z.of_nat (length (filter (fun s => holds (eqb (is_active s) (Some true))) tbl)).

(** Number of sessions that are active in [tbl] and inactive at the same
    place in [tbl']. *)
Definition ended_between (tbl tbl' : table) : Z :=
  Z.of_nat (length (filter
    (fun p : ussd_session * ussd_session =>
       holds (eqb (is_active p.1) (Some true)) &&
       holds (eqb (is_active p.2) (Some false)))
    (zip tbl tbl'))).

End Db.

(** ** The views of the schema and the table [ussd_logs] *)

Module Views.
Import Sql Db.

(** One row of [ussd_logs]. *)
Module Logs.
Record ussd_log : Type := {
  id : Z;                          (* SERIAL PRIMARY KEY *)
  user_id : Z;                     (* INTEGER NOT NULL REFERENCES users(id) *)
  session_id : Z;                  (* INTEGER NOT NULL REFERENCES ussd_sessions(id) *)
  input_text : nullable string;    (* VARCHAR(255) *)
  response_text : nullable string; (* TEXT *)
  menu_level : nullable string;    (* VARCHAR(100) *)
  created_at : timestamptz;        (* DEFAULT NOW() NOT NULL *)
  response_time_ms : nullable Z;   (* INTEGER *)
  is_error : nullable bool;        (* BOOLEAN DEFAULT FALSE *)
  error_message : nullable string  (* TEXT *)
}.
End Logs.

(** A row of [vw_active_sessions].  [seconds_since_last_activity] is
    [EXTRACT(EPOCH FROM (NOW() - s.last_activity))], a number of seconds
    with six decimals; it is kept as the count of its microseconds. *)
Module Active.
Record row : Type := {
  id : Z;
  session_id : string;
  phone_number : string;
  first_name : nullable string;
  last_name : nullable string;
  current_menu : nullable string;
  started_at : timestamptz;
  last_activity : nullable timestamptz;
  seconds_since_last_activity : nullable Z
}.
End Active.

(** [SELECT ... FROM vw_active_sessions], in a transaction whose [NOW()]
    is [now]: [ussd_sessions s JOIN users u ON s.user_id = u.id
    WHERE s.is_active = TRUE].  The rows come session by session, in
    the order of the tables (SQL leaves the order open). *)
Definition vw_active_sessions (now : timestamptz) (us : list Users.user)
    (tbl : table) : list Active.row :=
  s ← tbl;
  u ← us;
  if bool_decide (user_id s = Users.id u) && holds (eqb (is_active s) (Some true))
  then [ {| Active.id := id s;
            Active.session_id := session_id s;
            Active.phone_number := Users.phone_number u;
            Active.first_name := Users.first_name u;
            Active.last_name := Users.last_name u;
            Active.current_menu := current_menu s;
            Active.started_at := started_at s;
            Active.last_activity := last_activity s;
            Active.seconds_since_last_activity :=
              minus (Some now) (last_activity s) |} ]
  else [].

(** A row of [vw_user_activity]. *)
Module Activity.
Record row : Type := {
  id : Z;
  phone_number : string;
  first_name : nullable string;
  last_name : nullable string;
  total_sessions : Z;
  total_interactions : Z;
  last_activity : nullable timestamptz;
  error_count : Z
}.
End Activity.

(** A row of [users u LEFT JOIN ussd_sessions s ... LEFT JOIN ussd_logs l]:
    the columns of [s] and of [l] are all NULL where the row has no
    session or no log. *)
Definition joined_row : Type :=
  Users.user * option ussd_session * option Logs.ussd_log.

(** The sessions of [u] with their logs:
    [... s LEFT JOIN ussd_logs l ON s.id = l.session_id]. *)
Definition session_logs (logs : list Logs.ussd_log) (u : Users.user)
    (s : ussd_session) : list joined_row :=
  match filter (fun l => id s = Logs.session_id l) logs with
  | [] => [(u, Some s, None)]
  | ls => (fun l => (u, Some s, Some l)) <$> ls
  end.

(** [users u LEFT JOIN ussd_sessions s ON u.id = s.user_id
     LEFT JOIN ussd_logs l ON s.id = l.session_id], for one user. *)
Definition user_rows (tbl : table) (logs : list Logs.ussd_log)
    (u : Users.user) : list joined_row :=
  match filter (fun s => Users.id u = user_id s) tbl with
  | [] => [(u, None, None)]
  | ss => s ← ss; session_logs logs u s
  end.

(** The columns of the [GROUP BY]:
    [u.id, u.phone_number, u.first_name, u.last_name]. *)
Definition group_key (r : joined_row)
  : Z * string * nullable string * nullable string :=
  (Users.id r.1.1, Users.phone_number r.1.1, Users.first_name r.1.1,
   Users.last_name r.1.1).

(** The value [v] joined to the maximum [acc] of other values: a NULL
    does not count. *)
Definition max_with (v acc : nullable Z) : nullable Z :=
  match v, acc with
  | Some x, Some y => Some (Z.max x y)
  | Some x, None => Some x
  | None, _ => acc
  end.

(** [MAX] over the values that are not NULL; NULL if there is none. *)
Definition sql_max (values : list (nullable Z)) : nullable Z :=
  foldr max_with None values.

(** The aggregates of one group:
    [COUNT(DISTINCT s.id)], [COUNT(l.id)], [MAX(s.last_activity)] and
    [SUM(CASE WHEN l.is_error = TRUE THEN 1 ELSE 0 END)]. *)
Definition aggregate (k : Z * string * nullable string * nullable string)
    (group : list joined_row) : Activity.row :=
  {| Activity.id := k.1.1.1;
     Activity.phone_number := k.1.1.2;
     Activity.first_name := k.1.2;
     Activity.last_name := k.2;
     Activity.total_sessions :=
       Z.of_nat (length (remove_dups (omap (fun r : joined_row => id <$> r.1.2) group)));
     Activity.total_interactions :=
       Z.of_nat (length (omap (fun r : joined_row => Logs.id <$> r.2) group));
     Activity.last_activity :=
       sql_max ((fun r : joined_row => r.1.2 ≫= last_activity) <$> group);
     Activity.error_count :=
       foldr Z.add 0
         ((fun r : joined_row =>
             if holds (eqb (r.2 ≫= Logs.is_error) (Some true)) then 1 else 0)
            <$> group) |}.

(** [SELECT ... FROM vw_user_activity]: one row for each group of the
    join (SQL leaves the order of the groups open). *)
Definition vw_user_activity (us : list Users.user) (tbl : table)
    (logs : list Logs.ussd_log) : list Activity.row :=
  let rows := us ≫= user_rows tbl logs in
  (fun k => aggregate k (filter (fun r => group_key r = k) rows))
    <$> remove_dups (group_key <$> rows).

(** The group of the rows of the user [u]. *)
Definition user_key (u : Users.user)
  : Z * string * nullable string * nullable string :=
  (Users.id u, Users.phone_number u, Users.first_name u, Users.last_name u).

(** A row of the join when its session has gone through the sweep. *)
Definition swept_row (now : timestamptz) (timeout_minutes : nullable Z)
    (r : joined_row) : joined_row :=
  (r.1.1, sweep_row now timeout_minutes <$> r.1.2, r.2).

End Views.

(** ** The tables together *)

Module Database.
Import Sql Db Views.

(** [INSERT INTO users] of the row [u], all columns given. *)
Definition insert_user (u : Users.user) (us : list Users.user)
  : sql_error + list Users.user :=
  if bool_decide (Users.id u ∈ Users.id <$> us)
  then inl (unique_violation "users_pkey")
  else if bool_decide (Users.phone_number u ∈ Users.phone_number <$> us)
  then inl (unique_violation "users_phone_number_key")
  else inr (us ++ [u]).

(** [INSERT INTO ussd_logs] of the row [l], all columns given, while
    [users] holds [us] and [ussd_sessions] holds [tbl]. *)
Definition insert_log (us : list Users.user) (tbl : table) (l : Logs.ussd_log)
    (logs : list Logs.ussd_log) : sql_error + list Logs.ussd_log :=
  if bool_decide (Logs.id l ∈ Logs.id <$> logs)
  then inl (unique_violation "ussd_logs_pkey")
  else if bool_decide (Logs.user_id l ∈ Users.id <$> us)
  then if bool_decide (Logs.session_id l ∈ id <$> tbl)
       then inr (logs ++ [l])
       else inl (foreign_key_violation "ussd_logs_session_id_fkey")
  else inl (foreign_key_violation "ussd_logs_user_id_fkey").

(** The three tables that the views read. *)
Record database : Type := {
  users : list Users.user;
  ussd_sessions : table;
  ussd_logs : list Logs.ussd_log
}.

(** The statements that write these tables: the three [INSERT]s and a
    call of [end_inactive_sessions]. *)
Inductive statement : Type :=
| insert_into_users (u : Users.user)
| insert_into_ussd_sessions (r : ussd_session)
| insert_into_ussd_logs (l : Logs.ussd_log)
| select_end_inactive_sessions (now : timestamptz) (timeout_minutes : nullable Z).

(** One statement in a transaction of its own. *)
Definition execute (stmt : statement) (db : database) : sql_error + database :=
  match stmt with
  | insert_into_users u =>
      match insert_user u (users db) with
      | inr us => inr {| users := us; ussd_sessions := ussd_sessions db;
                         ussd_logs := ussd_logs db |}
      | inl e => inl e
      end
  | insert_into_ussd_sessions r =>
      match insert (users db) r (ussd_sessions db) with
      | inr tbl => inr {| users := users db; ussd_sessions := tbl;
                          ussd_logs := ussd_logs db |}
      | inl e => inl e
      end
  | insert_into_ussd_logs l =>
      match insert_log (users db) (ussd_sessions db) l (ussd_logs db) with
      | inr logs => inr {| users := users db; ussd_sessions := ussd_sessions db;
                           ussd_logs := logs |}
      | inl e => inl e
      end
  | select_end_inactive_sessions now timeout_minutes =>
      inr {| users := users db;
             ussd_sessions :=
               (end_inactive_sessions now timeout_minutes (ussd_sessions db)).1;
             ussd_logs := ussd_logs db |}
  end.

(** Statements one after the other; a refused statement changes
    nothing. *)
Definition run (stmts : list statement) (db : database) : database :=
  foldl (fun db stmt =>
           match execute stmt db with
           | inr db' => db'
           | inl _ => db
           end) db stmts.

(** The primary keys, the unique columns and the foreign keys of the
    three tables. *)
Record consistent (db : database) : Prop := {
  users_pkey : NoDup (Users.id <$> users db);
  users_phone_number_key : NoDup (Users.phone_number <$> users db);
  ussd_sessions_pkey : NoDup (id <$> ussd_sessions db);
  ussd_sessions_session_id_key : NoDup (session_id <$> ussd_sessions db);
  ussd_sessions_user_id_fkey :
    forall s, s ∈ ussd_sessions db -> user_id s ∈ Users.id <$> users db;
  ussd_logs_pkey : NoDup (Logs.id <$> ussd_logs db);
  ussd_logs_user_id_fkey :
    forall l, l ∈ ussd_logs db -> Logs.user_id l ∈ Users.id <$> users db;
  ussd_logs_session_id_fkey :
    forall l, l ∈ ussd_logs db -> Logs.session_id l ∈ id <$> ussd_sessions db
}.

(** No row in any table. *)
Definition empty : database :=
  {| users := []; ussd_sessions := []; ussd_logs := [] |}.

End Database.

(** ** JavaScript objects and [JSON.parse] *)

Module Js.

(** An object: its own properties in insertion order. *)
Definition obj := list (string * json).

(** [o[k]]; [None] is [undefined]. *)
Fixpoint get (k : string) (o : obj) : option json :=
  match o with
  | [] => None
  | (k', v) :: o' => if String.eqb k k' then Some v else get k o'
  end.

(** [o[k] = v]: an existing property keeps its place, a new one goes
    last. *)
Fixpoint set (k : string) (v : json) (o : obj) : obj :=
  match o with
  | [] => [(k, v)]
  | (k', v') :: o' =>
      if String.eqb k k' then (k', v) :: o' else (k', v') :: set k v o'
  end.

(** [{...o, ...src}]. *)
Definition spread (o src : obj) : obj :=
  fold_left (fun acc kv => set kv.1 kv.2 acc) src o.

(** Equality of the numbers [m1 * 10^e1] and [m2 * 10^e2]. *)
Definition num_eqb (m1 e1 m2 e2 : Z) : bool :=
  if e1 <=? e2 then m1 =? m2 * 10 ^ (e2 - e1) else m1 * 10 ^ (e1 - e2) =? m2.

(** [x === y] on property values.  Arrays and objects are compared by
    reference in JavaScript; the pages compare identifiers, which are
    numbers or strings, and two arrays or objects are never equal here. *)
Definition strict_eq (x y : option json) : bool :=
  match x, y with
  | None, None => true
  | Some JNull, Some JNull => true
  | Some (JBool a), Some (JBool b) => Bool.eqb a b
  | Some (JNum m1 e1), Some (JNum m2 e2) => num_eqb m1 e1 m2 e2
  | Some (JStr a), Some (JStr b) => String.eqb a b
  | _, _ => false
  end.

(** [ToBoolean(x)], as [!x], [x && ...] and [x || ...] read a value:
    [undefined], [null], [false], zero and the empty string are falsy. *)
Definition truthy (x : option json) : bool :=
  match x with
  | None | Some JNull => false
  | Some (JBool b) => b
  | Some (JNum m _) => negb (m =? 0)
  | Some (JStr EmptyString) => false
  | Some (JStr _) | Some (JArr _) | Some (JObj _) => true
  end.

(** *** [JSON.parse]

    The ECMAScript built-in, for the JSON grammar (RFC 8259).  Numbers
    are kept as exact decimals, strings as UTF-8 bytes; a [\uXXXX]
    escape is stored as the UTF-8 form of that code unit. *)

Definition is_ws (c : ascii) : bool :=
  match c with
  | " " | "009" | "010" | "013" => true
  | _ => false
  end%char.

Fixpoint skip_ws (s : list ascii) : list ascii :=
  match s with
  | c :: r => if is_ws c then skip_ws r else s
  | [] => []
  end.

Definition digit_val (c : ascii) : option Z :=
  let n := Z.of_N (Ascii.N_of_ascii c) in
  if (48 <=? n) && (n <=? 57) then Some (n - 48) else None.

Definition hex_val (c : ascii) : option Z :=
  let n := Z.of_N (Ascii.N_of_ascii c) in
  if (48 <=? n) && (n <=? 57) then Some (n - 48)
  else if (65 <=? n) && (n <=? 70) then Some (n - 55)
  else if (97 <=? n) && (n <=? 102) then Some (n - 87)
  else None.

(** The longest prefix of digits: its value, its length, the rest. *)
Fixpoint digits (acc : Z) (len : Z) (s : list ascii) : Z * Z * list ascii :=
  match s with
  | c :: r =>
      match digit_val c with
      | Some d => digits (acc * 10 + d) (len + 1) r
      | None => (acc, len, s)
      end
  | [] => (acc, len, [])
  end.

Definition byte (n : Z) : ascii := Ascii.ascii_of_N (Z.to_N n).

Definition utf8 (n : Z) : list ascii :=
  if n <? 128 then [byte n]
  else if n <? 2048 then [byte (192 + n / 64); byte (128 + n mod 64)]
  else [byte (224 + n / 4096); byte (128 + (n / 64) mod 64); byte (128 + n mod 64)].

(** The characters after an opening quote, up to the closing one. *)
Fixpoint parse_chars (s : list ascii) (acc : list ascii)
  : option (string * list ascii) :=
  match s with
  | [] => None
  | "034"%char :: r => Some (string_of_list_ascii (rev acc), r)
  | "\"%char :: r =>
      match r with
      | "034"%char :: r' => parse_chars r' ("034"%char :: acc)
      | "\"%char :: r' => parse_chars r' ("\"%char :: acc)
      | "/"%char :: r' => parse_chars r' ("/"%char :: acc)
      | "b"%char :: r' => parse_chars r' ("008"%char :: acc)
      | "f"%char :: r' => parse_chars r' ("012"%char :: acc)
      | "n"%char :: r' => parse_chars r' ("010"%char :: acc)
      | "r"%char :: r' => parse_chars r' ("013"%char :: acc)
      | "t"%char :: r' => parse_chars r' ("009"%char :: acc)
      | "u"%char :: a :: b :: c :: d :: r' =>
          match hex_val a, hex_val b, hex_val c, hex_val d with
          | Some x3, Some x2, Some x1, Some x0 =>
              parse_chars r'
                (rev (utf8 (x3 * 4096 + x2 * 256 + x1 * 16 + x0)) ++ acc)
          | _, _, _, _ => None
          end
      | _ => None
      end
  | c :: r =>
      if Z.of_N (Ascii.N_of_ascii c) <? 32 then None
      else parse_chars r (c :: acc)
  end.

(** [-? int frac? exp?] *)
Definition parse_number (s : list ascii) : option (json * list ascii) :=
  let '(neg, s1) :=
    match s with
    | "-"%char :: r => (true, r)
    | _ => (false, s)
    end in
  let '(i, ilen, s2) := digits 0 0 s1 in
  let leading_zero :=
    match s1 with
    | "0"%char :: _ => 1 <? ilen
    | _ => false
    end in
  if (ilen =? 0) || leading_zero then None else
  let frac :=
    match s2 with
    | "."%char :: r =>
        let '(f, flen, s3) := digits i 0 r in
        if flen =? 0 then None else Some (f, flen, s3)
    | _ => Some (i, 0, s2)
    end in
  match frac with
  | None => None
  | Some (m, flen, s3) =>
      let sign := if neg then -1 else 1 in
      let expo (r : list ascii) (esign : Z) :=
        let '(x, xlen, s4) := digits 0 0 r in
        if xlen =? 0 then None
        else Some (JNum (sign * m) (esign * x - flen), s4) in
      match s3 with
      | "e"%char :: r | "E"%char :: r =>
          match r with
          | "+"%char :: r' => expo r' 1
          | "-"%char :: r' => expo r' (-1)
          | _ => expo r 1
          end
      | _ => Some (JNum (sign * m) (- flen), s3)
      end
  end.

Fixpoint parse_value (fuel : nat) (s : list ascii) {struct fuel}
  : option (json * list ascii) :=
  match fuel with
  | O => None
  | S fuel' =>
      match skip_ws s with
      | "n"%char :: "u"%char :: "l"%char :: "l"%char :: r => Some (JNull, r)
      | "t"%char :: "r"%char :: "u"%char :: "e"%char :: r => Some (JBool true, r)
      | "f"%char :: "a"%char :: "l"%char :: "s"%char :: "e"%char :: r =>
          Some (JBool false, r)
      | "034"%char :: r =>
          match parse_chars r [] with
          | Some (str, r') => Some (JStr str, r')
          | None => None
          end
      | "["%char :: r =>
          match skip_ws r with
          | "]"%char :: r' => Some (JArr [], r')
          | _ => parse_elements fuel' r []
          end
      | "{"%char :: r =>
          match skip_ws r with
          | "}"%char :: r' => Some (JObj [], r')
          | _ => parse_members fuel' r []
          end
      | s' => parse_number s'
      end
  end
with parse_elements (fuel : nat) (s : list ascii) (acc : list json) {struct fuel}
  : option (json * list ascii) :=
  match fuel with
  | O => None
  | S fuel' =>
      match parse_value fuel' s with
      | Some (v, r) =>
          match skip_ws r with
          | ","%char :: r' => parse_elements fuel' r' (v :: acc)
          | "]"%char :: r' => Some (JArr (rev (v :: acc)), r')
          | _ => None
          end
      | None => None
      end
  end
with parse_members (fuel : nat) (s : list ascii) (acc : obj) {struct fuel}
  : option (json * list ascii) :=
  match fuel with
  | O => None
  | S fuel' =>
      match skip_ws s with
      | "034"%char :: r =>
          match parse_chars r [] with
          | Some (k, r1) =>
              match skip_ws r1 with
              | ":"%char :: r2 =>
                  match parse_value fuel' r2 with
                  | Some (v, r3) =>
                      match skip_ws r3 with
                      | ","%char :: r4 => parse_members fuel' r4 (set k v acc)
                      | "}"%char :: r4 => Some (JObj (set k v acc), r4)
                      | _ => None
                      end
                  | None => None
                  end
              | _ => None
              end
          | None => None
          end
      | _ => None
      end
  end.

(** [JSON.parse(text)]; [None] is the [SyntaxError] it throws.  Every
    recursive call follows at least one consumed character, so twice
    the length of the text is fuel enough. *)
Definition JSON_parse (text : string) : option json :=
  let s := list_ascii_of_string text in
  match parse_value (2 * length s + 2) s with
  | Some (v, r) =>
      match skip_ws r with
      | [] => Some v
      | _ => None
      end
  | None => None
  end.

(** *** [JSON.stringify]

    [JSON.stringify(value, null, space)] on a JSON value, after
    [SerializeJSONProperty] of ECMAScript.  An object lists its keys in
    insertion order, which is the order of JavaScript for keys that are
    not array indices; a number is printed from its exact decimal, which
    is what [Number::toString] prints when a double holds that decimal
    exactly (up to 15 significant digits); a string is taken as the
    UTF-8 bytes of well-formed text. *)

(** The decimal digits of [n], the most significant first, in front of
    [acc]. *)
Fixpoint decimal_from (fuel : nat) (n : Z) (acc : list ascii) : list ascii :=
  match fuel with
  | O => acc
  | S fuel' =>
      let acc' := byte (48 + n mod 10) :: acc in
      if n <? 10 then acc' else decimal_from fuel' (n / 10) acc'
  end.

(** A number below [2^fuel] has at most [fuel] decimal digits. *)
Definition decimal (n : Z) : list ascii :=
  decimal_from (S (Z.to_nat (Z.log2 n))) n [].

(** The digits [0] in front of a reversed numeral are dropped. *)
Fixpoint strip_zeros (reversed : list ascii) : list ascii :=
  match reversed with
  | "0"%char :: rest => strip_zeros rest
  | _ => reversed
  end.

(** [Number::toString] of the number [m * 10^e], radix 10: with [k]
    significant digits and the decimal point after the [n]-th of them,
    the number is written in full when [-6 < n <= 21] and with an
    exponent otherwise. *)
Definition Number_toString (m e : Z) : list ascii :=
  if m =? 0 then ["0"%char] else
  let all := decimal (Z.abs m) in
  let significant := rev (strip_zeros (rev all)) in
  let k := Z.of_nat (length significant) in
  let n := Z.of_nat (length all) + e in
  let sign := if m <? 0 then ["-"%char] else [] in
  app sign
    (if (k <=? n) && (n <=? 21)
     then app significant (repeat "0"%char (Z.to_nat (n - k)))
     else if (0 <? n) && (n <=? 21)
     then app (take (Z.to_nat n) significant)
              ("."%char :: drop (Z.to_nat n) significant)
     else if (-6 <? n) && (n <=? 0)
     then "0"%char :: "."%char :: app (repeat "0"%char (Z.to_nat (- n))) significant
     else
       let exponent :=
         "e"%char :: (if 0 <=? n - 1 then "+"%char else "-"%char)
                  :: decimal (Z.abs (n - 1)) in
       match significant with
       | [] => []
       | [d] => d :: exponent
       | d :: rest => d :: "."%char :: app rest exponent
       end).

Definition hex_digit (n : Z) : ascii :=
  byte (if n <? 10 then 48 + n else 87 + n).

(** One character of a string inside its quotes. *)
Definition quote_char (c : ascii) : list ascii :=
  match c with
  | "008"%char => ["\"; "b"]%char
  | "009"%char => ["\"; "t"]%char
  | "010"%char => ["\"; "n"]%char
  | "012"%char => ["\"; "f"]%char
  | "013"%char => ["\"; "r"]%char
  | "034"%char => ["\"; "034"]%char
  | "\"%char => ["\"; "\"]%char
  | _ =>
      let n := Z.of_N (Ascii.N_of_ascii c) in
      if n <? 32
      then "\"%char :: "u"%char :: "0"%char :: "0"%char ::
           [hex_digit (n / 16); hex_digit (n mod 16)]
      else [c]
  end.

(** [QuoteJSONString] *)
Definition quote (s : string) : list ascii :=
  "034"%char :: app (flat_map quote_char (list_ascii_of_string s)) ["034"%char].

(** The parts of an array or object, one after the other with
    [separator] between them. *)
Fixpoint join (separator : list ascii) (parts : list (list ascii)) : list ascii :=
  match parts with
  | [] => []
  | [part] => part
  | part :: rest => app part (app separator (join separator rest))
  end.

(** What encloses the [partial] texts of the elements or members:
    [open ++ "\n" ++ indent ++ properties ++ "\n" ++ stepback ++ close],
    without line feeds and indentation when the gap is empty. *)
Definition enclose (gap stepback : list ascii) (opening closing : ascii)
    (partial : list (list ascii)) : list ascii :=
  let indent := app stepback gap in
  match partial, gap with
  | [], _ => [opening; closing]
  | _, [] => opening :: app (join [","%char] partial) [closing]
  | _, _ =>
      opening :: "010"%char ::
        app indent
          (app (join (","%char :: "010"%char :: indent) partial)
               ("010"%char :: app stepback [closing]))
  end.

(** [SerializeJSONProperty] with [SerializeJSONArray] and
    [SerializeJSONObject]; [indent] is the indentation of the line the
    value starts on. *)
Fixpoint serialize (gap indent : list ascii) (v : json) : list ascii :=
  match v with
  | JNull => ["n"; "u"; "l"; "l"]%char
  | JBool true => ["t"; "r"; "u"; "e"]%char
  | JBool false => ["f"; "a"; "l"; "s"; "e"]%char
  | JNum m e => Number_toString m e
  | JStr s => quote s
  | JArr items =>
      enclose gap indent "["%char "]"%char
        (map (serialize gap (app indent gap)) items)
  | JObj fields =>
      enclose gap indent "{"%char "}"%char
        (map (fun kv : string * json =>
                let (k, member) := kv in
                app (quote k)
                    (":"%char ::
                     app (match gap with [] => [] | _ => [" "%char] end)
                         (serialize gap (app indent gap) member)))
             fields)
  end.

(** [JSON.stringify(value, null, space)] for a number [space]: the gap
    is [min(10, space)] spaces. *)
Definition JSON_stringify (value : json) (space : Z) : string :=
  string_of_list_ascii
    (serialize (repeat " "%char (Z.to_nat (Z.min 10 space))) [] value).

(** *** Reading a text back

    What the proofs about [JSON.parse] and [JSON.stringify] speak of. *)

(** What may follow a value in a text: nothing, white space, a comma or
    a closing bracket. *)
Definition delimited (r : list ascii) : bool :=
  match r with
  | [] => true
  | c :: _ =>
      is_ws c || Ascii.eqb c ","%char || Ascii.eqb c "]"%char || Ascii.eqb c "}"%char
  end.

(** The fuel that reading the text of [v] takes. *)
Fixpoint need (v : json) : nat :=
  match v with
  | JArr items =>
      S (foldr (fun item rest => S (Nat.max (need item) rest)) 0%nat items)
  | JObj fields =>
      S (foldr (fun kv rest => S (Nat.max (need (snd kv)) rest)) 0%nat fields)
  | _ => 1%nat
  end.

(** Text without the bytes of a surrogate code point. *)
Fixpoint well_formed (bytes : list ascii) : bool :=
  match bytes with
  | c :: rest =>
      match rest with
      | d :: _ =>
          negb (Ascii.eqb c "237"%char &&
                (160 <=? Z.of_N (Ascii.N_of_ascii d)) &&
                (Z.of_N (Ascii.N_of_ascii d) <=? 191))
      | [] => true
      end && well_formed rest
  | [] => true
  end.

Definition text (s : string) : bool := well_formed (list_ascii_of_string s).

(** A key that JavaScript may order as an array index: digits only. *)
Definition index_like (k : string) : bool :=
  match list_ascii_of_string k with
  | [] => false
  | cs =>
      forallb (fun c => match digit_val c with Some _ => true | None => false end) cs
  end.

(** The values on which the models of [JSON.parse] and
    [JSON.stringify] are exact: integers that a double holds exactly,
    well-formed strings, objects without a repeated or index-like
    key. *)
Fixpoint plain (v : json) : bool :=
  match v with
  | JNull | JBool _ => true
  | JNum m e => (e =? 0) && (Z.abs m <=? 9007199254740991)
  | JStr s => text s
  | JArr items => forallb plain items
  | JObj fields =>
      bool_decide (NoDup (map fst fields)) &&
      forallb (fun kv => text (fst kv) && negb (index_like (fst kv)) && plain (snd kv))
              fields
  end.


Section Parts.
Variables (gap indent : list ascii).

(** The text of [v], written with [gap] at the indentation [indent],
    is read back as [v]. *)
Definition reads_back (v : json) : Prop :=
  plain v = true ->
  forall pre rest fuel,
    forallb is_ws pre = true -> delimited rest = true -> (need v <= fuel)%nat ->
    parse_value fuel (app pre (app (serialize gap indent v) rest)) = Some (v, rest).

(** The text of one member of an object. *)
Definition member_text (kv : string * json) : list ascii :=
  let (k, member) := kv in
  app (quote k)
      (":"%char ::
       app (match gap with [] => [] | _ => [" "%char] end)
           (serialize gap indent member)).

End Parts.

End Js.

(** ** The administration pages *)

Module Admin.
Import Js.
Local Open Scope string_scope.

(** The notification shown at the bottom of a page. *)
Record snackbar_state : Type := {
  open : bool;
  message : string;
  severity : string
}.

(** *** [Sessions.js] *)
Module SessionsPage.

(** The state of the component, one field for each [useState]. *)
Record state : Type := {
  sessions : list obj;
  loading : bool;
  error : option string;
  snackbar : snackbar_state;
  openDialog : bool;
  selectedSession : option obj
}.

(** [{...session, is_active: false, ended_at: iso}] *)
Definition ended (iso : string) (session : obj) : obj :=
  set "ended_at" (JStr iso) (set "is_active" (JBool false) session).

(** [handleEndSession(id)].  [confirmed] is the answer to
    [window.confirm]; [clock i] is what [new Date().toISOString()]
    returns when the callback of [map] reaches element [i]. *)
Definition handleEndSession (confirmed : bool) (clock : nat -> string)
    (id : option json) (st : state) : state :=
  if confirmed then
    let updatedSessions :=
      imap (fun i session =>
              if strict_eq (get "id" session) id
              then ended (clock i) session
              else session)
           (sessions st) in
    {| sessions := updatedSessions;
       loading := loading st;
       error := error st;
       snackbar := {| open := true;
                      message := "Session terminée avec succès";
                      severity := "success" |};
       openDialog := openDialog st;
       selectedSession := selectedSession st |}
  else st.

(** [handleViewSession(session)] *)
Definition handleViewSession (session : obj) (st : state) : state :=
  {| sessions := sessions st;
     loading := loading st;
     error := error st;
     snackbar := snackbar st;
     openDialog := true;
     selectedSession := Some session |}.

(** [handleCloseDialog()] *)
Definition handleCloseDialog (st : state) : state :=
  {| sessions := sessions st;
     loading := loading st;
     error := error st;
     snackbar := snackbar st;
     openDialog := false;
     selectedSession := selectedSession st |}.

(** [handleCloseSnackbar()]: [{...snackbar, open: false}] *)
Definition handleCloseSnackbar (st : state) : state :=
  {| sessions := sessions st;
     loading := loading st;
     error := error st;
     snackbar := {| open := false;
                    message := message (snackbar st);
                    severity := severity (snackbar st) |};
     openDialog := openDialog st;
     selectedSession := selectedSession st |}.

(** The close button in the [actions] column of a row, rendered as
    [{params.row.is_active && (<IconButton onClick={() =>
    handleEndSession(params.row.id)}>)}]: the state after a click on it,
    [None] where the button is not rendered. *)
Definition row_end_click (row : obj) (confirmed : bool) (clock : nat -> string)
    (st : state) : option state :=
  if truthy (get "is_active" row)
  then Some (handleEndSession confirmed clock (get "id" row) st)
  else None.

(** The button [Terminer la session] of the dialog, rendered when the
    dialog is open and [selectedSession && selectedSession.is_active];
    its click runs [handleEndSession(selectedSession.id)] and then
    [handleCloseDialog()]. *)
Definition dialog_end_click (confirmed : bool) (clock : nat -> string)
    (st : state) : option state :=
  match selectedSession st with
  | Some session =>
      if openDialog st && truthy (get "is_active" session)
      then Some (handleCloseDialog
                   (handleEndSession confirmed clock (get "id" session) st))
      else None
  | None => None
  end.

(** [formatSessionData(data)], whose result the dialog shows for
    [selectedSession.session_data].  [JSON.stringify] does not throw on
    a JSON value, so the [catch] branch is never taken. *)
Definition formatSessionData (data : option json) : string :=
  match data with
  | Some d => if truthy data then JSON_stringify d 2 else EmptyString
  | None => EmptyString
  end.

End SessionsPage.

(** *** [Services.js] *)
Module ServicesPage.

Record form : Type := {
  code : string;
  name : string;
  description : string;
  menu_structure : string;
  is_active : bool
}.

Inductive mode : Type := add | edit.

Record state : Type := {
  services : list obj;
  loading : bool;
  error : option string;
  openDialog : bool;
  dialogMode : mode;
  selectedService : option obj;
  formData : form;
  snackbar : snackbar_state
}.

(** The object [formData], its properties in the order of the initial
    [useState]. *)
Definition form_obj (f : form) : obj :=
  [ ("code", JStr (code f));
    ("name", JStr (name f));
    ("description", JStr (description f));
    ("menu_structure", JStr (menu_structure f));
    ("is_active", JBool (is_active f)) ].

Definition notify (st : state) (close : bool) (svcs : list obj)
    (msg sev : string) : state :=
  {| services := svcs;
     loading := loading st;
     error := error st;
     openDialog := if close then false else openDialog st;
     dialogMode := dialogMode st;
     selectedService := selectedService st;
     formData := formData st;
     snackbar := {| open := true; message := msg; severity := sev |} |}.

(** [handleSubmit()].  [clock k] is the result of the [k]-th call of
    [new Date().toISOString()] (in edit mode, of the call made for
    element [k]). *)
Definition handleSubmit (clock : nat -> string) (st : state) : state :=
  match JSON_parse (menu_structure (formData st)) with
  | None =>
      notify st false (services st)
        "Structure de menu invalide. Veuillez vérifier le format JSON."
        "error"
  | Some menuStructure =>
      let serviceData := set "menu_structure" menuStructure (form_obj (formData st)) in
      match dialogMode st with
      | add =>
          let newService :=
            set "updated_at" (JStr (clock 1%nat))
              (set "created_at" (JStr (clock 0%nat))
                 (spread [("id", JNum (Z.of_nat (length (services st)) + 1) 0)]
                         serviceData)) in
          notify st true (services st ++ [newService])
            "Service ajouté avec succès" "success"
      | edit =>
          match services st, selectedService st with
          | _ :: _, None =>
              (* [selectedService.id] throws; the outer [catch] *)
              notify st false (services st)
                "Une erreur est survenue. Veuillez réessayer." "error"
          | svcs, selected =>
              let selected_id := selected ≫= get "id" in
              let updatedServices :=
                imap (fun i service =>
                        if strict_eq (get "id" service) selected_id
                        then set "updated_at" (JStr (clock i))
                               (spread service serviceData)
                        else service)
                     svcs in
              notify st true updatedServices
                "Service mis à jour avec succès" "success"
          end
      end
  end.

(** The menu that [handleAddClick] proposes. *)
Definition menu_template : json :=
  JObj [("main",
         JObj [("title", JStr "Menu Principal");
               ("options",
                JArr [JObj [("code", JStr "1"); ("text", JStr "Option 1");
                            ("next", JStr "option1")];
                      JObj [("code", JStr "2"); ("text", JStr "Option 2");
                            ("next", JStr "option2")]])])].

(** [handleAddClick()] *)
Definition handleAddClick (st : state) : state :=
  {| services := services st;
     loading := loading st;
     error := error st;
     openDialog := true;
     dialogMode := add;
     selectedService := selectedService st;
     formData := {| code := EmptyString;
                    name := EmptyString;
                    description := EmptyString;
                    menu_structure := JSON_stringify menu_template 2;
                    is_active := true |};
     snackbar := snackbar st |}.

(** A property of a service as a field of the form holds it. *)
Definition as_string (x : option json) : option string :=
  match x with
  | Some (JStr s) => Some s
  | _ => None
  end.

Definition as_bool (x : option json) : option bool :=
  match x with
  | Some (JBool b) => Some b
  | _ => None
  end.

(** [service.menu_structure || {}] *)
Definition menu_or_empty (service : obj) : json :=
  match get "menu_structure" service with
  | Some menu => if truthy (Some menu) then menu else JObj []
  | None => JObj []
  end.

(** [handleEditClick(service)].  The form holds three strings and a
    boolean; the result is [None] for a service whose [code], [name] or
    [description] is not a string or whose [is_active] is not a boolean,
    which the state of this model cannot hold. *)
Definition handleEditClick (service : obj) (st : state) : option state :=
  match as_string (get "code" service), as_string (get "name" service),
        as_string (get "description" service), as_bool (get "is_active" service) with
  | Some code, Some name, Some description, Some is_active =>
      Some {| services := services st;
              loading := loading st;
              error := error st;
              openDialog := true;
              dialogMode := edit;
              selectedService := Some service;
              formData := {| code := code;
                             name := name;
                             description := description;
                             menu_structure :=
                               JSON_stringify (menu_or_empty service) 2;
                             is_active := is_active |};
              snackbar := snackbar st |}
  | _, _, _, _ => None
  end.

(** [handleCloseDialog()] *)
Definition handleCloseDialog (st : state) : state :=
  {| services := services st;
     loading := loading st;
     error := error st;
     openDialog := false;
     dialogMode := dialogMode st;
     selectedService := selectedService st;
     formData := formData st;
     snackbar := snackbar st |}.

(** The inputs of the dialog, by their [name] attribute. *)
Inductive input : Type :=
| input_code | input_name | input_description | input_menu_structure
| input_is_active.

(** The part of a change event that [handleFormChange] reads:
    [const { name, value, checked } = e.target]. *)
Record change : Type := {
  target_name : input;
  value : string;
  checked : bool
}.

(** [handleFormChange(e)]:
    [{...formData, [name]: name === 'is_active' ? checked : value}],
    for the events of the five inputs of the dialog. *)
Definition handleFormChange (e : change) (st : state) : state :=
  let f := formData st in
  let f' :=
    match target_name e with
    | input_code =>
        {| code := value e; name := name f; description := description f;
           menu_structure := menu_structure f; is_active := is_active f |}
    | input_name =>
        {| code := code f; name := value e; description := description f;
           menu_structure := menu_structure f; is_active := is_active f |}
    | input_description =>
        {| code := code f; name := name f; description := value e;
           menu_structure := menu_structure f; is_active := is_active f |}
    | input_menu_structure =>
        {| code := code f; name := name f; description := description f;
           menu_structure := value e; is_active := is_active f |}
    | input_is_active =>
        {| code := code f; name := name f; description := description f;
           menu_structure := menu_structure f; is_active := checked e |}
    end in
  {| services := services st;
     loading := loading st;
     error := error st;
     openDialog := openDialog st;
     dialogMode := dialogMode st;
     selectedService := selectedService st;
     formData := f';
     snackbar := snackbar st |}.

(** [handleDeleteClick(id)]; [confirmed] is the answer to
    [window.confirm]. *)
Definition handleDeleteClick (confirmed : bool) (id : option json)
    (st : state) : state :=
  if confirmed then
    let updatedServices :=
      filter (fun service => negb (strict_eq (get "id" service) id))
             (services st) in
    notify st false updatedServices "Service supprimé avec succès" "success"
  else st.

(** [handleToggleActive(id, isActive)] *)
Definition handleToggleActive (id : option json) (isActive : bool)
    (st : state) : state :=
  let updatedServices :=
    (fun service =>
       if strict_eq (get "id" service) id
       then set "is_active" (JBool isActive) service
       else service) <$> services st in
  notify st false updatedServices
    ("Service " ++ (if isActive then "activé" else "désactivé") ++ " avec succès")
    "success".

(** [handleCloseSnackbar()]: [{...snackbar, open: false}] *)
Definition handleCloseSnackbar (st : state) : state :=
  {| services := services st;
     loading := loading st;
     error := error st;
     openDialog := openDialog st;
     dialogMode := dialogMode st;
     selectedService := selectedService st;
     formData := formData st;
     snackbar := {| open := false;
                    message := message (snackbar st);
                    severity := severity (snackbar st) |} |}.

(** The identifiers [1], [2], ... that the add dialog gives to services
    added to an empty list: [id: services.length + 1]. *)
Definition numbered (svcs : list obj) : Prop :=
  get "id" <$> svcs
  = (fun i : nat => Some (JNum (Z.of_nat i + 1) 0)) <$> seq 0 (length svcs).

End ServicesPage.

End Admin.

(** ** What the specification asks of a menu definition

    The two structural rules of the Menu Catalog, read on the JSON of a
    [menu_structure]: an object from node identifier to a node with its
    [options], each with a [code] and a [next]. *)

Module MenuRules.
Import Js.
Local Open Scope string_scope.







End MenuRules.

(** ** The session engine

    The engine, its Session Store adapter, its Menu Catalog and its
    logger are not among the sources.  Every definition of this module
    is modelled from the specification; the tables it works on are those
    of the schema above. *)

Module Engine.
Import Db.
Local Open Scope string_scope.

(** Modelled from the spec: an option of a MenuNode, its input code,
    its display text and its target, a node or a terminal action (the
    Menu Catalog is not in the repository). *)
Record MenuOption : Type := {
  code : string;
  text : string;
  next : string
}.

(** Modelled from the spec: MenuNode, a title and an ordered list of
    options. *)
Record MenuNode : Type := {
  title : string;
  options : list MenuOption
}.

(** Modelled from the spec: ServiceDefinition, with the menu graph as a
    mapping from node identifier to node. *)
Record ServiceDefinition : Type := {
  service : string;
  name : string;
  menu : gmap string MenuNode;
  active : bool
}.

(** Modelled from the spec: the root node of every service, as in the
    seed data and the first testable property. *)
Definition root : string := "main".

(** Modelled from the spec: the kinds of fault of the error-handling
    table, and [Unexpected] for any fault it does not cover. *)
Inductive fault : Type :=
| ServiceNotFound
| ServiceInactive
| SessionExpired
| StoreTimeout
| Unexpected (cause : string).

(** Modelled from the spec: InteractionLogEntry. *)
Record log_entry : Type := {
  log_phone : string;
  log_session : string;
  input_text : string;
  response_text : string;
  menu_level : option string;
  created_at : Sql.timestamptz;
  response_time_ms : Z;
  is_error : bool;
  error_message : option string
}.

(** Modelled from the spec: what the engine reaches through the Session
    Store and the Interaction Logger.  The sessions are the rows of
    [ussd_sessions]; the invalid-input counter of a session, for which
    the table has no column, is kept beside it under its session
    identifier. *)
Record world : Type := {
  users : list Users.user;
  users_id_seq : Z;
  ussd_sessions : table;
  ussd_sessions_id_seq : Z;
  invalid_input_count : gmap string Z;
  log : list log_entry
}.

(** Modelled from the spec: the collaborators and the configuration of
    one call.  [action] is the Action Resolver ([inl] its result text,
    [inr] the cause of its failure); [store_up k] tells whether the
    [k]-th request to the store is answered within its timeout. *)
Record env : Type := {
  catalog : gmap string ServiceDefinition;
  action : string -> Users.user -> Sql.nullable json -> string -> string + string;
  store_up : nat -> bool;
  retry_limit : Z;
  latency_ms : Z
}.

(** Modelled from the spec: the default retry limit. *)
Definition default_retry_limit : Z := 3.

(** *** The monad of the engine: state and faults *)

(** Modelled from the spec: the state of a call in progress, the world
    and the number of requests it has sent to the store. *)
Record state : Type := {
  w : world;
  requests : nat
}.

(** Modelled from the spec: a step of a call, which changes the state
    and ends with a result or with a fault. *)
Definition M (A : Type) : Type := state -> (fault + A) * state.

(** Modelled from the spec: a step that only returns. *)
#[global] Instance M_ret : MRet M := fun A x st => (inr x, st).

(** Modelled from the spec: one step after another; a fault ends the
    call where it occurs and keeps what was written before. *)
#[global] Instance M_bind : MBind M := fun A B f m st =>
  match m st with
  | (inr x, st') => f x st'
  | (inl e, st') => (inl e, st')
  end.

(** Modelled from the spec: a step that faults. *)
Definition raise {A : Type} (e : fault) : M A := fun st => (inl e, st).

(** Modelled from the spec: the world with other users. *)
Definition set_users (us : list Users.user) (seq : Z) (x : world) : world :=
  {| users := us;
     users_id_seq := seq;
     ussd_sessions := ussd_sessions x;
     ussd_sessions_id_seq := ussd_sessions_id_seq x;
     invalid_input_count := invalid_input_count x;
     log := log x |}.

(** Modelled from the spec: the world with other sessions and
    counters. *)
Definition set_sessions (tbl : table) (seq : Z) (counts : gmap string Z)
    (x : world) : world :=
  {| users := users x;
     users_id_seq := users_id_seq x;
     ussd_sessions := tbl;
     ussd_sessions_id_seq := seq;
     invalid_input_count := counts;
     log := log x |}.

(** Modelled from the spec: the Interaction Logger, which appends. *)
Definition add_log (entry : log_entry) (x : world) : world :=
  {| users := users x;
     users_id_seq := users_id_seq x;
     ussd_sessions := ussd_sessions x;
     ussd_sessions_id_seq := ussd_sessions_id_seq x;
     invalid_input_count := invalid_input_count x;
     log := app (log x) [entry] |}.

(** *** Session rows as the engine rewrites them *)

(** Modelled from the spec: a session after a turn that stays on its
    node. *)
Definition touch (now : Sql.timestamptz) (s : ussd_session) : ussd_session :=
  {| id := id s;
     session_id := session_id s;
     user_id := user_id s;
     service_code := service_code s;
     current_menu := current_menu s;
     session_data := session_data s;
     started_at := started_at s;
     last_activity := Some now;
     ended_at := ended_at s;
     is_active := is_active s |}.

(** Modelled from the spec: a session after a turn that goes to
    [node]. *)
Definition move (now : Sql.timestamptz) (node : string) (s : ussd_session)
  : ussd_session :=
  {| id := id s;
     session_id := session_id s;
     user_id := user_id s;
     service_code := service_code s;
     current_menu := Some node;
     session_data := session_data s;
     started_at := started_at s;
     last_activity := Some now;
     ended_at := ended_at s;
     is_active := is_active s |}.

(** Modelled from the spec: a session ended by a turn
    ([is_active=false], [ended_at=now]). *)
Definition finish (now : Sql.timestamptz) (s : ussd_session) : ussd_session :=
  {| id := id s;
     session_id := session_id s;
     user_id := user_id s;
     service_code := service_code s;
     current_menu := current_menu s;
     session_data := session_data s;
     started_at := started_at s;
     last_activity := Some now;
     ended_at := Some now;
     is_active := Some false |}.

(** *** Texts *)

(** Modelled from the spec: the line break of a rendered menu. *)
Definition nl : string := String "010"%char EmptyString.

(** Modelled from the spec: a node rendered as text, its title and one
    line for each option. *)
Definition render (node : MenuNode) : string :=
  title node ++
  String.concat "" ((fun o => nl ++ code o ++ ". " ++ text o) <$> options node).

(** Modelled from the spec: the error hint of a re-prompt.  The spec
    fixes the kind of each message, not its wording. *)
Definition invalid_hint : string := "Invalid choice, try again.".

(** Modelled from the spec: the error message at the retry cap. *)
Definition too_many_invalid : string := "Too many invalid choices.".

(** Modelled from the spec: the generic failure message of an action. *)
Definition action_failed : string := "The request could not be completed.".

(** Modelled from the spec: the apology for an unknown or disabled
    service. *)
Definition service_apology : string := "This service is not available.".

(** Modelled from the spec: the apology for an expired session. *)
Definition session_apology : string := "This session has expired.".

(** Modelled from the spec: the transient-error message of a store that
    does not answer. *)
Definition transient_error : string := "Please try again later.".

(** Modelled from the spec: the generic message of any other fault. *)
Definition generic_error : string := "An error occurred.".

(** Modelled from the spec: the newest input token, the segment after
    the last [*] of the accumulated text. *)
Fixpoint newest_token_from (acc : string) (rawText : string) : string :=
  match rawText with
  | EmptyString => acc
  | String c rest =>
      if Ascii.eqb c "*"%char then newest_token_from "" rest
      else newest_token_from (acc ++ String c EmptyString) rest
  end.

(** Modelled from the spec: the newest input token of a request. *)
Definition newest_token (rawText : string) : string :=
  newest_token_from "" rawText.

(** Modelled from the spec: what a call answers, continue or end, with
    the fields of its log entry. *)
Record outcome : Type := {
  continue : bool;
  body : string;
  at_node : option string;
  failed : bool;
  failure : option string
}.

(** Modelled from the spec: the response text, prefixed [CON ] or
    [END ]. *)
Definition response (o : outcome) : string :=
  (if continue o then "CON " else "END ") ++ body o.

Section Call.
Variable E : env.
Variable now : Sql.timestamptz.

(** Modelled from the spec: one request to the store, answered or
    timed out. *)
Definition request {A : Type} (op : world -> (fault + A) * world) : M A :=
  fun st =>
    if store_up E (requests st) then
      let '(r, x) := op (w st) in
      (r, {| w := x; requests := S (requests st) |})
    else (inl StoreTimeout, {| w := w st; requests := S (requests st) |}).

(** Modelled from the spec: a timeout is retried at most once. *)
Definition with_retry {A : Type} (op : world -> (fault + A) * world) : M A :=
  fun st =>
    match request op st with
    | (inl StoreTimeout, st') => request op st'
    | r => r
    end.

(** Modelled from the spec: the user of a phone number, created if
    absent. *)
Definition upsert_user (phone : string) (x : world)
  : (fault + Users.user) * world :=
  match find (fun u => String.eqb (Users.phone_number u) phone) (users x) with
  | Some u => (inr u, x)
  | None =>
      let u := {| Users.id := users_id_seq x;
                  Users.phone_number := phone;
                  Users.first_name := None;
                  Users.last_name := None;
                  Users.registered_at := now;
                  Users.last_activity := Some now;
                  Users.is_active := Some true |} in
      if bool_decide (Users.id u ∈ Users.id <$> users x)
      then (inl (Unexpected "users_pkey"), set_users (users x) (users_id_seq x + 1) x)
      else (inr u, set_users (app (users x) [u]) (users_id_seq x + 1) x)
  end.

(** Modelled from the spec: [get(sessionId)]. *)
Definition store_get (sid : string) (x : world)
  : (fault + option ussd_session) * world :=
  (inr (select_session sid (ussd_sessions x)), x).

(** Modelled from the spec: [create(session)].  The row is inserted
    with the defaults of the table; when the session identifier is
    already taken the stored session wins and is loaded. *)
Definition store_create (sid : string) (uid : Z) (svc : string)
    (x : world) : (fault + ussd_session) * world :=
  let r := with_defaults now (ussd_sessions_id_seq x) sid uid
             (Some svc) (Some root) (Some (JObj [])) in
  let seq := ussd_sessions_id_seq x + 1 in
  let unchanged := set_sessions (ussd_sessions x) seq (invalid_input_count x) x in
  match insert (users x) r (ussd_sessions x) with
  | inr tbl => (inr r, set_sessions tbl seq (invalid_input_count x) x)
  | inl (Sql.unique_violation c) =>
      if String.eqb c "ussd_sessions_session_id_key" then
        match select_session sid (ussd_sessions x) with
        | Some winner => (inr winner, unchanged)
        | None => (inl (Unexpected c), unchanged)
        end
      else (inl (Unexpected c), unchanged)
  | inl (Sql.foreign_key_violation c) => (inl (Unexpected c), unchanged)
  end.

(** Modelled from the spec: [update(session)], refused when the
    stored last activity has advanced since the session was read. *)
Definition store_update (read new : ussd_session) (count : Z) (x : world)
  : (fault + unit) * world :=
  let sid := session_id read in
  match select_session sid (ussd_sessions x) with
  | None => (inl (Unexpected "session not found"), x)
  | Some stored =>
      if Sql.holds (Sql.lt (last_activity read) (last_activity stored))
      then (inl (Unexpected "conflict"), x)
      else
        (inr tt,
         set_sessions
           ((fun s => if String.eqb (session_id s) sid then new else s)
              <$> ussd_sessions x)
           (ussd_sessions_id_seq x)
           (<[sid := count]> (invalid_input_count x)) x)
  end.

(** Modelled from the spec: step 2 of the engine, the service of a code
    in the catalog. *)
Definition resolve_service (serviceCode : string) : M ServiceDefinition :=
  match catalog E !! serviceCode with
  | None => raise ServiceNotFound
  | Some svc => if active svc then mret svc else raise ServiceInactive
  end.

(** Modelled from the spec: step 3 of the engine.  The result tells
    whether the session was created by this call. *)
Definition resolve_session (sessionId : string) (u : Users.user)
    (svc : ServiceDefinition) : M (bool * ussd_session) :=
  found ← with_retry (store_get sessionId);
  match found with
  | None =>
      s ← with_retry (store_create sessionId (Users.id u) (service svc));
      mret (true, s)
  | Some s =>
      if Sql.holds (Sql.eqb (is_active s) (Some true)) then mret (false, s)
      else raise SessionExpired
  end.

(** Modelled from the spec: the answer to the request that opens a
    session, the node the session is positioned at (first testable
    property: a new session answers with the root menu). *)
Definition welcome (svc : ServiceDefinition) (s : ussd_session) : M outcome :=
  match current_menu s with
  | None => raise (Unexpected "session has no current node")
  | Some n =>
      match menu svc !! n with
      | None => raise (Unexpected "current node is not in the menu")
      | Some node =>
          mret {| continue := true;
                  body := render node;
                  at_node := Some n;
                  failed := false;
                  failure := None |}
      end
  end.

(** Modelled from the spec: the stored invalid-input counter of a
    session, 0 until the first invalid input. *)
Definition counter (sid : string) : M Z :=
  fun st => (inr (default 0 (invalid_input_count (w st) !! sid)), st).

(** Modelled from the spec: step 5 of the engine, the token matched
    against the options of the current node. *)
Definition turn (u : Users.user) (svc : ServiceDefinition)
    (s : ussd_session) (token : string) : M outcome :=
  match current_menu s with
  | None => raise (Unexpected "session has no current node")
  | Some n =>
      match menu svc !! n with
      | None => raise (Unexpected "current node is not in the menu")
      | Some node =>
          match find (fun o => String.eqb (code o) token) (options node) with
          | None =>
              count ← counter (session_id s);
              if (count + 1 <=? retry_limit E)%Z then
                _ ← with_retry (store_update s (touch now s) (count + 1));
                mret {| continue := true;
                        body := invalid_hint ++ nl ++ render node;
                        at_node := Some n;
                        failed := false;
                        failure := None |}
              else
                _ ← with_retry (store_update s (finish now s) (count + 1));
                mret {| continue := false;
                        body := too_many_invalid;
                        at_node := Some n;
                        failed := true;
                        failure := Some "invalid input limit exceeded" |}
          | Some opt =>
              match menu svc !! next opt with
              | Some target =>
                  _ ← with_retry (store_update s (move now (next opt) s) 0);
                  mret {| continue := true;
                          body := render target;
                          at_node := Some n;
                          failed := false;
                          failure := None |}
              | None =>
                  match action E (next opt) u (session_data s) (service svc) with
                  | inl result =>
                      _ ← with_retry (store_update s (finish now s) 0);
                      mret {| continue := false;
                              body := result;
                              at_node := Some n;
                              failed := false;
                              failure := None |}
                  | inr cause =>
                      _ ← with_retry (store_update s (finish now s) 0);
                      mret {| continue := false;
                              body := action_failed;
                              at_node := Some n;
                              failed := true;
                              failure := Some cause |}
                  end
              end
          end
      end
  end.

(** Modelled from the spec: steps 4 to 6 for the session resolved in
    step 3.  A session opened by this call with no input yet is answered
    with its menu; any other request is a turn. *)
Definition answer (u : Users.user) (svc : ServiceDefinition)
    (rawText : string) (r : bool * ussd_session) : M outcome :=
  if r.1 && String.eqb (newest_token rawText) "" then welcome svc r.2
  else turn u svc r.2 (newest_token rawText).

(** Modelled from the spec: steps 1 to 6. *)
Definition interact (sessionId phoneNumber serviceCode rawText : string)
  : M outcome :=
  u ← with_retry (upsert_user phoneNumber);
  svc ← resolve_service serviceCode;
  r ← resolve_session sessionId u svc;
  answer u svc rawText r.

(** Modelled from the spec: what a fault becomes at the boundary of
    the engine. *)
Definition degrade (e : fault) : outcome :=
  let apology msg cause :=
    {| continue := false; body := msg; at_node := None;
       failed := true; failure := Some cause |} in
  match e with
  | ServiceNotFound => apology service_apology "ServiceNotFound"
  | ServiceInactive => apology service_apology "ServiceInactive"
  | SessionExpired => apology session_apology "SessionExpired"
  | StoreTimeout => apology transient_error "StoreTimeout"
  | Unexpected cause => apology generic_error cause
  end.

(** Modelled from the spec: [handleInteraction], steps 1 to 8: the
    response text and the world it leaves. *)
Definition handleInteraction (sessionId phoneNumber serviceCode rawText : string)
    (x : world) : string * world :=
  let '(r, st) := interact sessionId phoneNumber serviceCode rawText
                    {| w := x; requests := 0 |} in
  let o := match r with
           | inr o => o
           | inl e => degrade e
           end in
  let entry := {| log_phone := phoneNumber;
                  log_session := sessionId;
                  input_text := rawText;
                  response_text := response o;
                  menu_level := at_node o;
                  created_at := now;
                  response_time_ms := latency_ms E;
                  is_error := failed o;
                  error_message := failure o |} in
  (response o, add_log entry (w st)).

(** Modelled from the spec: the Session Reaper, one run, which is
    [end_inactive_sessions] on the table of the world. *)
Definition reap (timeout_minutes : Sql.nullable Z) (x : world) : world :=
  set_sessions (end_inactive_sessions now timeout_minutes (ussd_sessions x)).1
    (ussd_sessions_id_seq x) (invalid_input_count x) x.

End Call.

(** Modelled from the spec: the world before the first request. *)
Definition initial : world :=
  {| users := [];
     users_id_seq := 1;
     ussd_sessions := [];
     ussd_sessions_id_seq := 1;
     invalid_input_count := ∅;
     log := [] |}.

(** Modelled from the spec: one operation on the store at time [now],
    a call of the engine or a run of the reaper. *)
Inductive operation (now : Sql.timestamptz) (x : world) : world -> Prop :=
| interaction E sessionId phoneNumber serviceCode rawText :
    operation now x
      (handleInteraction E now sessionId phoneNumber serviceCode rawText x).2
| reaper_run timeout_minutes :
    operation now x (reap now timeout_minutes x).

(** Modelled from the spec: the worlds the operations can reach, each
    with the time of the operation that produced it; time does not run
    backwards. *)
Inductive reachable : Sql.timestamptz -> world -> Prop :=
| reachable_initial t :
    reachable t initial
| reachable_step t t' x x' :
    reachable t x -> t <= t' -> operation t' x x' -> reachable t' x'.

End Engine.

(** ** Invariants of the session table *)

Module Invariant.
Import Db Engine.

(** [a] is not later than [b]; two NULLs compare as equal. *)
Definition not_later (a b : Sql.nullable Sql.timestamptz) : Prop :=
  a = b \/ exists x y, a = Some x /\ b = Some y /\ x <= y.

(** A session is either active with no end time, or inactive with one. *)
Definition ended_iff_inactive (s : ussd_session) : Prop :=
  (is_active s = Some true /\ ended_at s = None) \/
  (is_active s = Some false /\ exists e, ended_at s = Some e).

(** What holds of the sessions at time [t]. *)
Record inv (t : Sql.timestamptz) (x : world) : Prop := {
  inv_unique : NoDup (session_id <$> ussd_sessions x);
  inv_activity : forall s, s ∈ ussd_sessions x ->
                   exists la, last_activity s = Some la /\ la <= t;
  inv_ended : forall s, s ∈ ussd_sessions x -> ended_iff_inactive s;
  inv_fresh : forall s, s ∈ ussd_sessions x -> id s < ussd_sessions_id_seq x
}.

(** How an operation at time [now] may change a session: the same
    session, its last activity not earlier, and its flags either both
    kept or taken from active to inactive with [ended_at] the time of the
    operation. *)
Definition row_evolves (now : Sql.timestamptz) (s s' : ussd_session) : Prop :=
  session_id s' = session_id s /\
  not_later (last_activity s) (last_activity s') /\
  ((is_active s' = is_active s /\ ended_at s' = ended_at s) \/
   (is_active s = Some true /\ is_active s' = Some false /\
    ended_at s' = Some now)).

(** Every session of [x] is still there in [x'], evolved. *)
Definition evolves (now : Sql.timestamptz) (x x' : world) : Prop :=
  forall s, s ∈ ussd_sessions x ->
    exists s', s' ∈ ussd_sessions x' /\ row_evolves now s s'.

(** The invariant holds of [x] at time [now], and [x] has evolved from
    [x0]. *)
Definition keeps (now : Sql.timestamptz) (x0 x : world) : Prop :=
  inv now x /\ evolves now x0 x.

(** The rows the engine writes over a session it has read. *)
Definition rewritten (now : Sql.timestamptz) (read new : ussd_session) : Prop :=
  id new = id read /\
  session_id new = session_id read /\
  last_activity new = Some now /\
  ended_iff_inactive new /\
  ((is_active new = is_active read /\ ended_at new = ended_at read) \/
   (is_active read = Some true /\ is_active new = Some false /\
    ended_at new = Some now)).

(** The state a turn starts from: the session it was given is a stored,
    active one. *)
Definition ready now x0 (s : ussd_session) (x : world) : Prop :=
  keeps now x0 x /\ s ∈ ussd_sessions x /\ is_active s = Some true.

(** A computation of the engine started where [P] holds ends where [Q]
    holds of its result, or faults where [X] holds. *)
Definition triple {A : Type} (P : world -> Prop) (m : M A)
    (Q : A -> world -> Prop) (X : world -> Prop) : Prop :=
  forall st, P (w st) ->
    match m st with
    | (inr a, st') => Q a (w st')
    | (inl _, st') => X (w st')
    end.

End Invariant.

(** ** Sample data *)

Module Samples.
Import Js.
Local Open Scope string_scope.

(** A JSON text written with apostrophes in place of double quotes. *)
Fixpoint json_text (s : string) : string :=
  match s with
  | EmptyString => EmptyString
  | String c rest =>
      String (if Ascii.eqb c "'"%char then "034"%char else c) (json_text rest)
  end.

(** A menu whose node [main] has two options with the code 1. *)
Definition duplicate_codes_text : string :=
  json_text "{'main': {'title': 'Menu', 'options': [{'code': '1', 'text': 'Solde', 'next': 'main'}, {'code': '1', 'text': 'Services', 'next': 'main'}]}}".

Definition duplicate_codes_menu : json :=
  JObj [("main",
         JObj [("title", JStr "Menu");
               ("options",
                JArr [JObj [("code", JStr "1"); ("text", JStr "Solde");
                            ("next", JStr "main")];
                      JObj [("code", JStr "1"); ("text", JStr "Services");
                            ("next", JStr "main")]])])].

(** The services page with the add dialog open on that menu. *)
Definition add_dialog : Admin.ServicesPage.state :=
  {| Admin.ServicesPage.services := [];
     Admin.ServicesPage.loading := false;
     Admin.ServicesPage.error := None;
     Admin.ServicesPage.openDialog := true;
     Admin.ServicesPage.dialogMode := Admin.ServicesPage.add;
     Admin.ServicesPage.selectedService := None;
     Admin.ServicesPage.formData :=
       {| Admin.ServicesPage.code := "*321#";
          Admin.ServicesPage.name := "Test";
          Admin.ServicesPage.description := "";
          Admin.ServicesPage.menu_structure := duplicate_codes_text;
          Admin.ServicesPage.is_active := true |};
     Admin.ServicesPage.snackbar :=
       {| Admin.open := false; Admin.message := ""; Admin.severity := "success" |} |}.

Definition noon (_ : nat) : string := "2023-01-01T12:00:00.000Z".

(** The test user of the seed data. *)
Definition test_user : Db.Users.user :=
  {| Db.Users.id := 1;
     Db.Users.phone_number := "+123456789";
     Db.Users.first_name := Some "Utilisateur";
     Db.Users.last_name := Some "Test";
     Db.Users.registered_at := 0;
     Db.Users.last_activity := Some 0;
     Db.Users.is_active := Some true |}.

(** Two sessions of that user, opened at times 0 and 500 seconds. *)
Definition first_session : Db.ussd_session :=
  Db.with_defaults 0 1 "sess_123456789" 1 (Some "*123#") (Some "main") None.

Definition second_session : Db.ussd_session :=
  Db.with_defaults 500000000 2 "sess_987654321" 1 (Some "*123#")
    (Some "services") None.

Definition two_sessions : list Db.ussd_session :=
  [first_session; second_session].

(** The service [*123#] of the seed data, as a menu graph. *)
Definition seed_menu : gmap string Engine.MenuNode :=
  <[ "services" :=
       {| Engine.title := "Services disponibles";
          Engine.options :=
            [ {| Engine.code := "1"; Engine.text := "Service A"; Engine.next := "service_a" |};
              {| Engine.code := "2"; Engine.text := "Service B"; Engine.next := "service_b" |};
              {| Engine.code := "3"; Engine.text := "Service C"; Engine.next := "service_c" |} ] |} ]>
  {[ "main" :=
       {| Engine.title := "Menu Principal";
          Engine.options :=
            [ {| Engine.code := "1"; Engine.text := "Consultation de solde"; Engine.next := "balance" |};
              {| Engine.code := "2"; Engine.text := "S'inscrire aux services"; Engine.next := "services" |};
              {| Engine.code := "3"; Engine.text := "Suivi de commande"; Engine.next := "order_tracking" |};
              {| Engine.code := "4"; Engine.text := "Sondages"; Engine.next := "survey" |} ] |} ]}.

Definition seed_service : Engine.ServiceDefinition :=
  {| Engine.service := "*123#";
     Engine.name := "Service Principal";
     Engine.menu := seed_menu;
     Engine.active := true |}.

(** An Action Resolver that knows the action [service_a]. *)
Definition resolver (a : string) (_ : Db.Users.user) (_ : Sql.nullable json)
    (_ : string) : string + string :=
  if String.eqb a "service_a" then inl "Service A activated"
  else inr "unknown action".

(** A gateway whose store answers every request. *)
Definition gateway : Engine.env :=
  {| Engine.catalog := {[ "*123#" := seed_service ]};
     Engine.action := resolver;
     Engine.store_up := fun _ => true;
     Engine.retry_limit := Engine.default_retry_limit;
     Engine.latency_ms := 12 |}.


(** The sessions page with the two sessions of its demonstration data. *)
Definition demo_sessions : Admin.SessionsPage.state :=
  {| Admin.SessionsPage.sessions :=
       [ [ ("id", JNum 1 0); ("session_id", JStr "sess_123456789");
           ("user_id", JNum 1 0); ("phone_number", JStr "+123456789");
           ("current_menu", JStr "main");
           ("started_at", JStr "2023-01-01T10:00:00Z");
           ("last_activity", JStr "2023-01-01T10:05:00Z");
           ("is_active", JBool true) ];
         [ ("id", JNum 2 0); ("session_id", JStr "sess_987654321");
           ("user_id", JNum 2 0); ("phone_number", JStr "+987654321");
           ("current_menu", JStr "services");
           ("started_at", JStr "2023-01-01T09:30:00Z");
           ("last_activity", JStr "2023-01-01T09:35:00Z");
           ("is_active", JBool false);
           ("ended_at", JStr "2023-01-01T09:35:00Z") ] ];
     Admin.SessionsPage.loading := false;
     Admin.SessionsPage.error := None;
     Admin.SessionsPage.snackbar :=
       {| Admin.open := false; Admin.message := ""; Admin.severity := "success" |};
     Admin.SessionsPage.openDialog := false;
     Admin.SessionsPage.selectedSession := None |}.

(** The service that the add dialog above stores. *)
Definition first_service : obj :=
  default [] (head (Admin.ServicesPage.services
                      (Admin.ServicesPage.handleSubmit noon add_dialog))).

(** The services page with the edit dialog open on that service. *)
Definition edit_dialog : Admin.ServicesPage.state :=
  {| Admin.ServicesPage.services := [first_service];
     Admin.ServicesPage.loading := false;
     Admin.ServicesPage.error := None;
     Admin.ServicesPage.openDialog := true;
     Admin.ServicesPage.dialogMode := Admin.ServicesPage.edit;
     Admin.ServicesPage.selectedService := Some first_service;
     Admin.ServicesPage.formData :=
       {| Admin.ServicesPage.code := "*321#";
          Admin.ServicesPage.name := "Test 2";
          Admin.ServicesPage.description := "Edited";
          Admin.ServicesPage.menu_structure := duplicate_codes_text;
          Admin.ServicesPage.is_active := false |};
     Admin.ServicesPage.snackbar :=
       {| Admin.open := false; Admin.message := EmptyString;
          Admin.severity := "success" |} |}.

(** A log of the first session. *)
Definition first_log : Views.Logs.ussd_log :=
  {| Views.Logs.id := 1;
     Views.Logs.user_id := 1;
     Views.Logs.session_id := 1;
     Views.Logs.input_text := None;
     Views.Logs.response_text := Some "CON Menu Principal";
     Views.Logs.menu_level := Some "main";
     Views.Logs.created_at := 0;
     Views.Logs.response_time_ms := Some 12;
     Views.Logs.is_error := Some false;
     Views.Logs.error_message := None |}.

(** The test user, a session, the same session again, a log of it and
    a run of the sweep. *)
Definition statements : list Database.statement :=
  [ Database.insert_into_users test_user;
    Database.insert_into_ussd_sessions first_session;
    Database.insert_into_ussd_sessions first_session;
    Database.insert_into_ussd_logs first_log;
    Database.select_end_inactive_sessions 600000000 (Some 3) ].

End Samples.

(** * Properties *)

(** ** The models on the sample data *)

Section Runs.
Import Db Engine Samples.
Local Open Scope string_scope.

(** At 600 s with a timeout of 3 minutes, the session idle since 0 s is
    ended and the one active at 500 s is kept. *)
Example sweep_two_sessions :
  end_inactive_sessions 600000000 (Some 3) two_sessions
  = ([ {| id := 1; session_id := "sess_123456789"; user_id := 1;
          service_code := Some "*123#"; current_menu := Some "main";
          session_data := None; started_at := 0; last_activity := Some 0;
          ended_at := Some 600000000; is_active := Some false |};
       second_session ], 1).
Proof. reflexivity. Qed.

(** A NULL timeout matches no row. *)
Example sweep_null_timeout :
  end_inactive_sessions 600000000 None two_sessions = (two_sessions, 0).
Proof. reflexivity. Qed.

(** A session whose last activity is exactly at the cutoff is kept. *)
Example sweep_at_the_cutoff :
  end_inactive_sessions 680000000 (Some 3) [second_session] = ([second_session], 0).
Proof. reflexivity. Qed.

Example parse_seed_like_menu :
  Js.JSON_parse duplicate_codes_text = Some duplicate_codes_menu.
Proof. vm_compute. reflexivity. Qed.

Example parse_rejects_bare_keys :
  Js.JSON_parse "{main: 1}" = None.
Proof. vm_compute. reflexivity. Qed.

Example parse_numbers :
  Js.JSON_parse "[1, -2.50, 3e2]" = Some (JArr [JNum 1 0; JNum (-250) (-2); JNum 3 2]).
Proof. vm_compute. reflexivity. Qed.

(** Ending session 1 on the page of the demonstration data. *)
Example end_first_demo_session :
  (fun session => (Js.get "is_active" session, Js.get "ended_at" session))
    <$> Admin.SessionsPage.sessions
          (Admin.SessionsPage.handleEndSession true noon (Some (JNum 1 0)) demo_sessions)
  = [ (Some (JBool false), Some (JStr "2023-01-01T12:00:00.000Z"));
      (Some (JBool false), Some (JStr "2023-01-01T09:35:00Z")) ].
Proof. vm_compute. reflexivity. Qed.

(** The end-to-end dialog of the specification on the modelled engine:
    the first request shows the main menu, 2 the services, 1 activates
    service A and ends the session. *)
Example dialog_end_to_end :
  let r1 := handleInteraction gateway 1000 "sess_123456789" "+123456789" "*123#" ""
              initial in
  let r2 := handleInteraction gateway 1010 "sess_123456789" "+123456789" "*123#" "2"
              r1.2 in
  let r3 := handleInteraction gateway 1020 "sess_123456789" "+123456789" "*123#" "2*1"
              r2.2 in
  r1.1 = "CON " ++ render {| title := "Menu Principal";
                             options :=
                               [ {| code := "1"; text := "Consultation de solde"; next := "balance" |};
                                 {| code := "2"; text := "S'inscrire aux services"; next := "services" |};
                                 {| code := "3"; text := "Suivi de commande"; next := "order_tracking" |};
                                 {| code := "4"; text := "Sondages"; next := "survey" |} ] |} /\
  current_menu <$> ussd_sessions r1.2 = [Some "main"] /\
  r2.1 = "CON " ++ render {| title := "Services disponibles";
                             options :=
                               [ {| code := "1"; text := "Service A"; next := "service_a" |};
                                 {| code := "2"; text := "Service B"; next := "service_b" |};
                                 {| code := "3"; text := "Service C"; next := "service_c" |} ] |} /\
  current_menu <$> ussd_sessions r2.2 = [Some "services"] /\
  r3.1 = "END Service A activated" /\
  (fun s => (is_active s, ended_at s)) <$> ussd_sessions r3.2
  = [(Some false, Some 1020)] /\
  length (log r3.2) = 3%nat.
Proof. vm_compute. repeat split. Qed.

(** Numbers as [JSON.stringify] prints them: in full from [1e-6] up to
    [1e21], with an exponent outside. *)
Example stringify_numbers :
  (fun n : Z * Z => Js.JSON_stringify (JNum n.1 n.2) 0)
    <$> [(0, 0); (-5, 0); (1, 1); (15, -1); (100, -2); (1, 20); (1, 21);
         (123, 19); (1, -6); (1, -7); (12, -8); (-12345, -2)]
  = ["0"; "-5"; "10"; "1.5"; "1"; "100000000000000000000"; "1e+21";
     "1.23e+21"; "0.000001"; "1e-7"; "1.2e-7"; "-123.45"].
Proof. vm_compute. reflexivity. Qed.

(** The text that the add dialog shows for its menu. *)
Example stringify_menu_template :
  Js.JSON_stringify Admin.ServicesPage.menu_template 2
  = json_text "{
  'main': {
    'title': 'Menu Principal',
    'options': [
      {
        'code': '1',
        'text': 'Option 1',
        'next': 'option1'
      },
      {
        'code': '2',
        'text': 'Option 2',
        'next': 'option2'
      }
    ]
  }
}".
Proof. vm_compute. reflexivity. Qed.

(** Without a gap the text has no white space; empty arrays and objects
    are written without a line feed; control characters are escaped. *)
Example stringify_compact :
  Js.JSON_stringify
    (JArr [JArr []; JObj []; JNull; JBool true;
           JObj [("a", JStr (String "010" (String "001" "b")))]]) 0
  = json_text "[[],{},null,true,{'a':'\n\u0001b'}]".
Proof. vm_compute. reflexivity. Qed.

End Runs.

(** ** The reaper sweep *)

Section Reaper.
Import Db.

(** The sweep condition holds on a row exactly when the row is active
    and its last activity is known and older than the cutoff. *)
Lemma sweep_condition_true now timeout_minutes s :
  Sql.holds (sweep_condition now timeout_minutes s) = true <->
  is_active s = Some true /\
  exists m la, timeout_minutes = Some m /\ last_activity s = Some la /\
               la < now - m * 60000000.
Proof.
  unfold sweep_condition, cutoff, Sql.minute.
  destruct (is_active s) as [[]|], (last_activity s) as [la|],
    timeout_minutes as [m|]; simpl;
    try destruct (Z.ltb_spec la (now - m * 60000000)); simpl;
    (split;
     [ first [discriminate | intros _; split; [done|]; by eauto]
     | first [done | intros [? (m' & la' & ? & ? & ?)]; simplify_eq; lia] ]).
Qed.

Lemma sweep_row_stale now timeout_minutes s :
  Sql.holds (sweep_condition now timeout_minutes s) = true ->
  sweep_row now timeout_minutes s = sweep_set now s.
Proof. unfold sweep_row. by intros ->. Qed.

Lemma sweep_row_other now timeout_minutes s :
  Sql.holds (sweep_condition now timeout_minutes s) = false ->
  sweep_row now timeout_minutes s = s.
Proof. unfold sweep_row. by intros ->. Qed.

(** A swept row is inactive, so no sweep matches it. *)
Lemma sweep_set_not_matched now now' timeout_minutes s :
  Sql.holds (sweep_condition now' timeout_minutes (sweep_set now s)) = false.
Proof.
  unfold sweep_condition. simpl.
  by destruct (Sql.lt (last_activity s) (cutoff now' timeout_minutes)) as [[]|].
Qed.

(** The condition reads a row only through [is_active] and
    [last_activity], and the time only through the cutoff. *)
Lemma sweep_condition_cutoff now now' tm tm' s :
  cutoff now' tm' = cutoff now tm ->
  sweep_condition now' tm' s = sweep_condition now tm s.
Proof. unfold sweep_condition. by intros ->. Qed.

Lemma sweep_lookup now timeout_minutes (tbl : table) i :
  (end_inactive_sessions now timeout_minutes tbl).1 !! i
  = sweep_row now timeout_minutes <$> tbl !! i.
Proof. simpl. apply list_lookup_fmap. Qed.

Lemma sweep_length now timeout_minutes (tbl : table) :
  length (end_inactive_sessions now timeout_minutes tbl).1 = length tbl.
Proof. simpl. apply length_fmap. Qed.

(** C1. One run of [end_inactive_sessions] ends exactly the sessions
    that are active and whose last activity is older than
    [now - timeout]: such a row becomes inactive with [ended_at] the
    time of the run and no other column changed; every other row, so
    every row within the timeout window and every row already
    inactive, is the same row after the run. *)
Theorem reaper_ends_exactly_the_stale_sessions now timeout_minutes (tbl : table) :
  let tbl' := (end_inactive_sessions now timeout_minutes tbl).1 in
  length tbl' = length tbl /\
  forall i s, tbl !! i = Some s ->
    let stale :=
      is_active s = Some true /\
      exists m la, timeout_minutes = Some m /\ last_activity s = Some la /\
                   la < now - m * 60000000 in
    (stale ->
       exists s', tbl' !! i = Some s' /\ is_active s' = Some false /\
                  ended_at s' = Some now /\ same_other_columns s s') /\
    (~ stale -> tbl' !! i = Some s) /\
    (forall m la, timeout_minutes = Some m -> last_activity s = Some la ->
                  now - m * 60000000 <= la -> tbl' !! i = Some s) /\
    (is_active s = Some false -> tbl' !! i = Some s).
Proof.
  intros tbl'. split; [apply sweep_length|].
  intros i s Hi stale.
  assert (Hrow : tbl' !! i = Some (sweep_row now timeout_minutes s)).
  { unfold tbl'. by rewrite sweep_lookup, Hi. }
  assert (Hkeep : ~ stale -> tbl' !! i = Some s).
  { intros Hn. rewrite Hrow, sweep_row_other; [done|].
    apply not_true_is_false. by rewrite sweep_condition_true. }
  split; [|split; [done|split]].
  - intros Hs. exists (sweep_set now s).
    rewrite Hrow, sweep_row_stale by by apply sweep_condition_true.
    unfold same_other_columns. simpl. done.
  - intros m la Hm Hla Hle. apply Hkeep.
    intros [_ (m' & la' & ? & ? & ?)]. simplify_eq. lia.
  - intros Hina. apply Hkeep. intros [? _]. congruence.
Qed.

Lemma sweep_row_idem now now' tm tm' s :
  cutoff now' tm' = cutoff now tm ->
  sweep_row now' tm' (sweep_row now tm s) = sweep_row now tm s.
Proof.
  intros Hc.
  destruct (Sql.holds (sweep_condition now tm s)) eqn:Hs.
  - rewrite (sweep_row_stale _ _ _ Hs).
    apply sweep_row_other, sweep_set_not_matched.
  - rewrite (sweep_row_other _ _ _ Hs).
    apply sweep_row_other. by rewrite (sweep_condition_cutoff now now' tm tm').
Qed.

Lemma sweep_row_not_matched now now' tm tm' s :
  cutoff now' tm' = cutoff now tm ->
  Sql.holds (sweep_condition now' tm' (sweep_row now tm s)) = false.
Proof.
  intros Hc. unfold sweep_row.
  destruct (Sql.holds (sweep_condition now tm s)) eqn:Hs.
  - apply sweep_set_not_matched.
  - by rewrite (sweep_condition_cutoff now now' tm tm').
Qed.

Lemma sweep_matches_nothing now now' tm tm' (tbl : table) :
  cutoff now' tm' = cutoff now tm ->
  filter (fun s => Sql.holds (sweep_condition now' tm' s))
         (sweep_row now tm <$> tbl) = [].
Proof.
  intros Hc. induction tbl as [|s tbl IH]; [done|].
  rewrite fmap_cons, filter_cons_False; [exact IH|].
  rewrite (sweep_row_not_matched now now' tm tm' s Hc). intros [].
Qed.

(** C8. The sweep is idempotent: a second run with the same cutoff,
    right after the first, matches no row; it returns the table of the
    first run, flags and [ended_at] included, and the count 0. *)
Theorem reaper_idempotent now now' tm tm' (tbl : table) :
  cutoff now' tm' = cutoff now tm ->
  end_inactive_sessions now' tm' (end_inactive_sessions now tm tbl).1
  = ((end_inactive_sessions now tm tbl).1, 0).
Proof.
  intros Hc. unfold end_inactive_sessions. cbv zeta. cbn [fst].
  rewrite (sweep_matches_nothing now now' tm tm' tbl Hc).
  cbn [length Z.of_nat]. f_equal.
  rewrite <- list_fmap_compose. apply list_fmap_ext.
  intros _ s _. simpl. by apply sweep_row_idem.
Qed.

Lemma reaper_idempotent_witness :
  end_inactive_sessions 600000000 (Some 3)
    (end_inactive_sessions 600000000 (Some 3) Samples.two_sessions).1
  = ((end_inactive_sessions 600000000 (Some 3) Samples.two_sessions).1, 0).
Proof. apply reaper_idempotent. reflexivity. Defined.

Lemma sweep_condition_active now tm s :
  Sql.holds (sweep_condition now tm s) = true ->
  Sql.holds (Sql.eqb (is_active s) (Some true)) = true.
Proof. intros [-> _]%sweep_condition_true. done. Qed.

(** What one row adds to the count returned, to the number of sessions
    ended and to the decrease of the active ones. *)
Lemma sweep_counts_step now tm s (tbl : table) :
  let hit := if Sql.holds (sweep_condition now tm s) then 1 else 0 in
  (end_inactive_sessions now tm (s :: tbl)).2
    = hit + (end_inactive_sessions now tm tbl).2 /\
  ended_between (s :: tbl) (end_inactive_sessions now tm (s :: tbl)).1
    = hit + ended_between tbl (end_inactive_sessions now tm tbl).1 /\
  count_active (s :: tbl) - count_active (end_inactive_sessions now tm (s :: tbl)).1
    = hit + (count_active tbl - count_active (end_inactive_sessions now tm tbl).1).
Proof.
  unfold end_inactive_sessions, ended_between, count_active.
  cbv zeta. cbn [fst snd]. rewrite fmap_cons. cbn [zip zip_with].
  rewrite !filter_cons. cbn [fst snd].
  destruct (Sql.holds (sweep_condition now tm s)) eqn:Hs.
  - rewrite (sweep_row_stale _ _ _ Hs).
    rewrite (sweep_condition_active _ _ _ Hs). simpl.
    repeat split; lia.
  - rewrite (sweep_row_other _ _ _ Hs).
    destruct (is_active s) as [[]|]; simpl; repeat split; lia.
Qed.

(** C10. [end_inactive_sessions] returns the number of sessions it took
    from active to inactive in that call, which is the decrease of the
    number of active sessions; it returns 0 when no session is stale. *)
Theorem reaper_returns_the_number_it_ended now timeout_minutes (tbl : table) :
  let tbl' := (end_inactive_sessions now timeout_minutes tbl).1 in
  let returned := (end_inactive_sessions now timeout_minutes tbl).2 in
  returned = ended_between tbl tbl' /\
  returned = count_active tbl - count_active tbl' /\
  ((forall s, s ∈ tbl ->
      ~ (is_active s = Some true /\
         exists m la, timeout_minutes = Some m /\ last_activity s = Some la /\
                      la < now - m * 60000000)) ->
   returned = 0).
Proof.
  cbv zeta. induction tbl as [|s tbl (IH1 & IH2 & IH3)]; [done|].
  destruct (sweep_counts_step now timeout_minutes s tbl) as (-> & -> & ->).
  rewrite <- IH1, <- IH2. repeat split.
  intros Hnone. rewrite IH3.
  - assert (Hs : Sql.holds (sweep_condition now timeout_minutes s) = false).
    { apply not_true_is_false. rewrite sweep_condition_true.
      apply Hnone. by left. }
    by rewrite Hs.
  - intros s' Hs'. apply Hnone. by right.
Qed.

End Reaper.

(** ** Publishing a service from the administration page *)

Section Publish.
Import Js Admin Admin.ServicesPage.
Local Open Scope string_scope.

Lemma get_set_eq k v (o : obj) : get k (set k v o) = Some v.
Proof.
  induction o as [|[k' v'] o IH]; simpl.
  - by rewrite String.eqb_refl.
  - destruct (String.eqb k k') eqn:Hk; simpl; rewrite Hk; [done|exact IH].
Qed.

Lemma get_set_ne k k' v (o : obj) :
  String.eqb k k' = false -> get k (set k' v o) = get k o.
Proof.
  intros Hne. induction o as [|[k0 v0] o IH]; simpl.
  - by rewrite Hne.
  - destruct (String.eqb k' k0) eqn:Hk; simpl.
    + apply String.eqb_eq in Hk. subst k0. by rewrite Hne.
    + by rewrite IH.
Qed.




End Publish.

(** ** Ending a session from the administration page *)

Section EndSession.
Import Js Admin Admin.SessionsPage.
Local Open Scope string_scope.

(** What [handleEndSession] does to the session at place [i]. *)
Lemma handleEndSession_lookup confirmed clock id (st : state) i session :
  sessions st !! i = Some session ->
  sessions (handleEndSession confirmed clock id st) !! i
  = Some (if confirmed && strict_eq (get "id" session) id
          then ended (clock i) session else session).
Proof.
  intros Hi. unfold handleEndSession. destruct confirmed; simpl; [|done].
  by rewrite list_lookup_imap, Hi.
Qed.

Lemma ended_flags iso (session : obj) :
  get "is_active" (ended iso session) = Some (JBool false) /\
  get "ended_at" (ended iso session) = Some (JStr iso).
Proof.
  unfold ended. split.
  - rewrite get_set_ne by reflexivity. apply get_set_eq.
  - apply get_set_eq.
Qed.


End EndSession.

(** ** Invariants of the stored sessions *)

Section Sessions.
Import Db.

Lemma insert_inr us r (tbl tbl' : table) :
  insert us r tbl = inr tbl' ->
  tbl' = tbl ++ [r] /\ session_id r ∉ session_id <$> tbl.
Proof.
  unfold insert. repeat case_bool_decide; try done. by intros [= <-].
Qed.

(** [INSERT] keeps the session identifiers distinct: it stores the row
    at the end of the table, and only if its identifier is new. *)
Lemma insert_unique us r (tbl tbl' : table) :
  NoDup (session_id <$> tbl) -> insert us r tbl = inr tbl' ->
  NoDup (session_id <$> tbl').
Proof.
  intros Hnd [-> Hnew]%insert_inr.
  rewrite fmap_app. apply NoDup_app. split; [done|]. split.
  - intros sid Hin [->|[]%elem_of_nil]%elem_of_cons. done.
  - apply NoDup_singleton.
Qed.

(** The sweep assigns neither [session_id] nor [last_activity]. *)
Lemma sweep_row_session_id now timeout_minutes s :
  session_id (sweep_row now timeout_minutes s) = session_id s.
Proof. unfold sweep_row. by destruct (Sql.holds _). Qed.

Lemma sweep_row_last_activity now timeout_minutes s :
  last_activity (sweep_row now timeout_minutes s) = last_activity s.
Proof. unfold sweep_row. by destruct (Sql.holds _). Qed.

Lemma sweep_unique now timeout_minutes (tbl : table) :
  NoDup (session_id <$> tbl) ->
  NoDup (session_id <$> (end_inactive_sessions now timeout_minutes tbl).1).
Proof.
  intros Hnd. simpl. rewrite <- list_fmap_compose.
  rewrite (list_fmap_ext (session_id ∘ sweep_row now timeout_minutes)
             session_id tbl); [done|].
  intros _ s _. apply sweep_row_session_id.
Qed.

Lemma reachable_unique new (tbl : table) :
  reachable new tbl -> NoDup (session_id <$> tbl).
Proof.
  induction 1 as [|us r tbl tbl' _ IH _ Hins|now timeout_minutes tbl _ IH].
  - apply NoDup_nil_2.
  - by eapply insert_unique.
  - by apply sweep_unique.
Qed.

Lemma find_session_elem sid (tbl : table) s :
  select_session sid tbl = Some s -> s ∈ tbl /\ session_id s = sid.
Proof.
  unfold select_session. induction tbl as [|r tbl IH]; simpl; [done|].
  destruct (String.eqb (session_id r) sid) eqn:Hr.
  - intros [= ->]. split; [by left|]. by apply String.eqb_eq.
  - intros H. destruct (IH H) as [? ?]. split; [by right|done].
Qed.

Lemma find_session_none sid (tbl : table) :
  select_session sid tbl = None -> sid ∉ session_id <$> tbl.
Proof.
  unfold select_session.
  induction tbl as [|r tbl IH]; simpl; [intros _; by apply not_elem_of_nil|].
  destruct (String.eqb (session_id r) sid) eqn:Hr; [done|].
  intros H. rewrite not_elem_of_cons. split; [|by apply IH].
  intros ->. by rewrite String.eqb_refl in Hr.
Qed.

Lemma find_session_some sid (tbl : table) s :
  select_session sid tbl = Some s -> sid ∈ session_id <$> tbl.
Proof.
  intros [Hs <-]%find_session_elem. by apply list_elem_of_fmap_2.
Qed.

Lemma unique_session (tbl : table) s1 s2 :
  NoDup (session_id <$> tbl) -> s1 ∈ tbl -> s2 ∈ tbl ->
  session_id s1 = session_id s2 -> s1 = s2.
Proof.
  induction tbl as [|r tbl IH]; [by intros _ ?%elem_of_nil|].
  rewrite fmap_cons, NoDup_cons. intros [Hr Hnd].
  rewrite !elem_of_cons. intros [->|H1] [->|H2] Heq; try done.
  - exfalso. apply Hr. rewrite Heq. by apply list_elem_of_fmap_2.
  - exfalso. apply Hr. rewrite <- Heq. by apply list_elem_of_fmap_2.
  - by apply IH.
Qed.

(** With distinct identifiers, looking a stored session up by its
    identifier finds that session. *)
Lemma select_stored (tbl : table) s :
  NoDup (session_id <$> tbl) -> s ∈ tbl ->
  select_session (session_id s) tbl = Some s.
Proof.
  intros Hnd Hs.
  destruct (select_session (session_id s) tbl) as [s'|] eqn:Hsel.
  - apply find_session_elem in Hsel as [Hs' Hid].
    f_equal. by apply (unique_session tbl).
  - apply find_session_none in Hsel. exfalso. apply Hsel.
    by apply list_elem_of_fmap_2.
Qed.

(** C5. Session identifiers are unique.  In every state of the table
    that [INSERT]s and runs of the sweep can reach, no two rows have the
    same [session_id].  A second [INSERT] for a stored identifier, as
    the loser of two racing creates issues it, is refused by the table
    with a unique violation and adds no row; the row found under that
    identifier is the one of the winner. *)
Theorem session_identifiers_are_unique (tbl : table) :
  reachable (fun _ => True) tbl ->
  (forall i j s1 s2,
     tbl !! i = Some s1 -> tbl !! j = Some s2 ->
     session_id s1 = session_id s2 -> i = j) /\
  (forall us loser winner,
     winner ∈ tbl -> session_id loser = session_id winner ->
     (exists c, insert us loser tbl = inl (Sql.unique_violation c)) /\
     select_session (session_id loser) tbl = Some winner).
Proof.
  intros Hnd%reachable_unique. split.
  - intros i j s1 s2 Hi Hj Heq.
    apply (proj1 (NoDup_alt _) Hnd i j (session_id s1));
      rewrite list_lookup_fmap; [by rewrite Hi|by rewrite Hj, Heq].
  - intros us loser winner Hw Heq. split.
    + unfold insert. case_bool_decide; [by eexists|].
      rewrite bool_decide_eq_true_2; [by eexists|].
      rewrite Heq. by apply list_elem_of_fmap_2.
    + rewrite Heq. by apply select_stored.
Qed.

Lemma two_sessions_reachable new :
  new Samples.first_session -> new Samples.second_session ->
  reachable new Samples.two_sessions.
Proof.
  intros H1 H2.
  apply (reachable_insert new [Samples.test_user] Samples.second_session
           [Samples.first_session]); [|exact H2|reflexivity].
  apply (reachable_insert new [Samples.test_user] Samples.first_session []);
    [apply reachable_empty|exact H1|reflexivity].
Qed.

Lemma session_identifiers_are_unique_witness :
  reachable (fun _ => True) Samples.two_sessions /\
  ((exists c, insert [Samples.test_user] Samples.first_session Samples.two_sessions
              = inl (Sql.unique_violation c)) /\
   select_session "sess_123456789" Samples.two_sessions = Some Samples.first_session).
Proof.
  pose proof (two_sessions_reachable (fun _ => True) I I) as H.
  split; [exact H|].
  apply (proj2 (session_identifiers_are_unique Samples.two_sessions H)
           [Samples.test_user] Samples.first_session Samples.first_session).
  - by left.
  - reflexivity.
Defined.

Lemma reachable_ended (tbl : table) :
  reachable created tbl ->
  forall s, s ∈ tbl ->
    (is_active s = Some true /\ ended_at s = None) \/
    (is_active s = Some false /\ exists e, ended_at s = Some e).
Proof.
  induction 1 as [|us r tbl tbl' _ IH Hnew Hins|now timeout_minutes tbl _ IH].
  - by intros s ?%elem_of_nil.
  - apply insert_inr in Hins as [-> _].
    intros s [Hs|[->|[]%elem_of_nil]%elem_of_cons]%elem_of_app; [by apply IH|].
    by left.
  - intros s' (s & -> & Hs)%list_elem_of_fmap. unfold sweep_row.
    destruct (Sql.holds _); [|by apply IH]. right. simpl. eauto.
Qed.

(** C6. [ended_at] is set exactly on the sessions that were ended.  In
    every state of the table reached by creating sessions, with the
    defaults of the table for [is_active] and [ended_at], and by running
    the sweep, a session has [ended_at] if and only if it is inactive.
    The sweep, on any table, either leaves a session as it is or takes
    it from active to inactive and sets [ended_at] to the time of the
    run; [handleEndSession] on the administration page either leaves a
    session as it is or makes it inactive and sets [ended_at].  So an
    operation that ends a session sets [ended_at], and none sets it on a
    session that remains active. *)
Theorem ended_at_set_iff_session_was_ended (tbl : table) :
  reachable created tbl ->
  (forall s, s ∈ tbl ->
     (ended_at s <> None <-> is_active s = Some false) /\
     (is_active s = Some true \/ is_active s = Some false)) /\
  (forall now timeout_minutes i s, tbl !! i = Some s ->
     exists s', (end_inactive_sessions now timeout_minutes tbl).1 !! i = Some s' /\
       (s' = s \/
        (is_active s = Some true /\ is_active s' = Some false /\
         ended_at s' = Some now))) /\
  (forall confirmed clock id (st : Admin.SessionsPage.state) i session,
     Admin.SessionsPage.sessions st !! i = Some session ->
     exists session',
       Admin.SessionsPage.sessions
         (Admin.SessionsPage.handleEndSession confirmed clock id st) !! i
       = Some session' /\
       (session' = session \/
        (Js.get "is_active" session' = Some (JBool false) /\
         Js.get "ended_at" session' = Some (JStr (clock i))))).
Proof.
  intros Hreach. split; [|split].
  - intros s Hs.
    destruct (reachable_ended tbl Hreach s Hs) as [[Ha He]|[Ha [e He]]];
      rewrite Ha, He; split; try (by left); try (by right); split; congruence.
  - intros now timeout_minutes i s Hi.
    exists (sweep_row now timeout_minutes s).
    rewrite sweep_lookup, Hi. split; [done|]. unfold sweep_row.
    destruct (Sql.holds _) eqn:Hc; [|by left].
    apply sweep_condition_true in Hc as [Ha _]. by right.
  - intros confirmed clock id st i session Hi.
    eexists. split; [by apply handleEndSession_lookup|].
    destruct (_ && _); [right; apply ended_flags|by left].
Qed.

Lemma ended_at_set_iff_session_was_ended_witness :
  let swept := (end_inactive_sessions 600000000 (Some 3) Samples.two_sessions).1 in
  reachable created swept /\
  ((ended_at <$> swept) = [Some 600000000; None]) /\
  forall s, s ∈ swept ->
    (ended_at s <> None <-> is_active s = Some false) /\
    (is_active s = Some true \/ is_active s = Some false).
Proof.
  intros swept.
  assert (H : reachable created swept)
    by (apply reachable_sweep, two_sessions_reachable; split; reflexivity).
  split; [exact H|]. split; [reflexivity|].
  exact (proj1 (ended_at_set_iff_session_was_ended swept H)).
Defined.



End Sessions.

(** ** The engine and the reaper keep the invariants *)

Section Steps.
Import Db Engine Invariant.

(** *** Rules for the monad of the engine *)

Lemma triple_ret {A} (P : world -> Prop) (a : A) (Q : A -> world -> Prop) X :
  (forall x, P x -> Q a x) -> triple P (mret a) Q X.
Proof. intros H st HP. simpl. by apply H. Qed.

Lemma triple_raise {A} (P : world -> Prop) e (Q : A -> world -> Prop)
    (X : world -> Prop) :
  (forall x, P x -> X x) -> triple P (raise e) Q X.
Proof. intros H st HP. simpl. by apply H. Qed.

Lemma triple_bind {A B} (P : world -> Prop) (m : M A) (f : A -> M B)
    (Q : A -> world -> Prop) (R : B -> world -> Prop) X :
  triple P m Q X -> (forall a, triple (Q a) (f a) R X) ->
  triple P (m ≫= f) R X.
Proof.
  intros Hm Hf st HP. unfold mbind, M_bind.
  specialize (Hm st HP). destruct (m st) as [[e|a] st']; [done|].
  by apply Hf.
Qed.

Lemma triple_request {A} E (P : world -> Prop)
    (op : world -> (fault + A) * world) (Q : A -> world -> Prop)
    (X : world -> Prop) :
  (forall x, P x -> X x) ->
  (forall x, P x -> match op x with
                    | (inr a, x') => Q a x'
                    | (inl _, x') => X x'
                    end) ->
  triple P (request E op) Q X.
Proof.
  intros HX Hop st HP. unfold request.
  destruct (store_up E (requests st)); [|by apply HX].
  specialize (Hop (w st) HP). by destruct (op (w st)) as [[e|a] x'].
Qed.

Lemma triple_with_retry {A} E (P : world -> Prop)
    (op : world -> (fault + A) * world) (Q : A -> world -> Prop)
    (X : world -> Prop) :
  (forall x, (op x).1 <> inl StoreTimeout) ->
  (forall x, P x -> X x) ->
  (forall x, P x -> match op x with
                    | (inr a, x') => Q a x'
                    | (inl _, x') => X x'
                    end) ->
  triple P (with_retry E op) Q X.
Proof.
  intros Hnt HX Hop st HP. unfold with_retry, request.
  destruct (store_up E (requests st)).
  - pose proof (Hop (w st) HP) as H1. pose proof (Hnt (w st)) as H2.
    destruct (op (w st)) as [[e|a] x']; [|done].
    destruct e; done.
  - simpl. destruct (store_up E (S (requests st))); [|by apply HX].
    pose proof (Hop (w st) HP) as H1.
    by destruct (op (w st)) as [[e|a] x'].
Qed.

(** *** Facts on [not_later] and [row_evolves] *)

Lemma not_later_refl a : not_later a a.
Proof. by left. Qed.

Lemma not_later_trans a b c : not_later a b -> not_later b c -> not_later a c.
Proof.
  intros [Hab|(x & y & Ha & Hb & Hxy)] [Hbc|(y' & z & Hb' & Hc & Hyz)].
  - left. congruence.
  - right. exists y', z. split; [congruence|done].
  - right. exists x, y. split; [done|]. split; [congruence|done].
  - right. exists x, z. assert (y = y') by congruence. subst y'.
    split; [done|]. split; [done|lia].
Qed.

Lemma row_evolves_refl now s : row_evolves now s s.
Proof. split; [done|]. split; [apply not_later_refl|]. by left. Qed.

Lemma row_evolves_trans now s1 s2 s3 :
  row_evolves now s1 s2 -> row_evolves now s2 s3 -> row_evolves now s1 s3.
Proof.
  intros (Hid1 & Hla1 & Hf1) (Hid2 & Hla2 & Hf2).
  split; [congruence|]. split; [by eapply not_later_trans|].
  destruct Hf1 as [[Ha1 He1]|(Ha1 & Hb1 & He1)],
           Hf2 as [[Ha2 He2]|(Ha2 & Hb2 & He2)].
  - left. split; congruence.
  - right. repeat split; congruence.
  - right. repeat split; congruence.
  - congruence.
Qed.

Lemma evolves_refl now x : evolves now x x.
Proof. intros s Hs. exists s. split; [done|apply row_evolves_refl]. Qed.

Lemma evolves_trans now x1 x2 x3 :
  evolves now x1 x2 -> evolves now x2 x3 -> evolves now x1 x3.
Proof.
  intros H12 H23 s1 Hs1.
  destruct (H12 s1 Hs1) as (s2 & Hs2 & He12).
  destruct (H23 s2 Hs2) as (s3 & Hs3 & He23).
  exists s3. split; [done|]. by eapply row_evolves_trans.
Qed.

Lemma inv_later t t' x : t <= t' -> inv t x -> inv t' x.
Proof.
  intros Ht [Hu Ha He Hf]. split; [done| |done|done].
  intros s Hs. destruct (Ha s Hs) as (la & Hla & Hle).
  exists la. split; [done|lia].
Qed.

(** An operation that leaves the table of sessions alone. *)
Lemma inv_same_sessions t x x' :
  ussd_sessions x' = ussd_sessions x ->
  ussd_sessions_id_seq x <= ussd_sessions_id_seq x' ->
  inv t x -> inv t x'.
Proof.
  intros Heq Hseq [Hu Ha He Hf]. split; rewrite Heq; try done.
  intros s Hs. specialize (Hf s Hs). lia.
Qed.

Lemma evolves_same_sessions now x0 x x' :
  ussd_sessions x' = ussd_sessions x -> evolves now x0 x -> evolves now x0 x'.
Proof. intros Heq H s Hs. rewrite Heq. by apply H. Qed.

(** *** The operations of the store *)

Lemma upsert_user_sessions now phone x :
  (upsert_user now phone x).1 <> inl StoreTimeout /\
  ussd_sessions (upsert_user now phone x).2 = ussd_sessions x /\
  ussd_sessions_id_seq (upsert_user now phone x).2 = ussd_sessions_id_seq x.
Proof.
  unfold upsert_user. destruct (find _ (users x)); [done|].
  by case_bool_decide.
Qed.

Lemma store_get_no_timeout sid x : (store_get sid x).1 <> inl StoreTimeout.
Proof. done. Qed.

Lemma store_create_no_timeout now sid uid svc x :
  (store_create now sid uid svc x).1 <> inl StoreTimeout.
Proof.
  unfold store_create. cbv zeta.
  destruct (insert _ _ _) as [[c|c]|tbl]; [| done..].
  destruct (String.eqb c _); [|done]. by destruct (select_session _ _).
Qed.

Lemma store_update_no_timeout read new count x :
  (store_update read new count x).1 <> inl StoreTimeout.
Proof.
  unfold store_update. cbv zeta.
  destruct (select_session _ _); [|done]. by destruct (Sql.holds _).
Qed.

Lemma store_create_keeps now sid uid svc x0 x :
  keeps now x0 x ->
  select_session sid (ussd_sessions x) = None ->
  match store_create now sid uid svc x with
  | (inr r, x') => keeps now x0 x' /\ r ∈ ussd_sessions x' /\ is_active r = Some true
  | (inl _, x') => keeps now x0 x'
  end.
Proof.
  intros [Hinv Hev] Hnone. unfold store_create. cbv zeta. rewrite Hnone.
  assert (Hsame : keeps now x0
            (set_sessions (ussd_sessions x) (ussd_sessions_id_seq x + 1)
               (invalid_input_count x) x)).
  { split; [apply (inv_same_sessions now x); simpl; [done|lia|done]
           |by apply (evolves_same_sessions now x0 x)]. }
  destruct (insert _ _ _) as [[c|c]|tbl] eqn:Hins.
  - destruct (String.eqb c _); exact Hsame.
  - exact Hsame.
  - pose proof (insert_unique _ _ _ _ (inv_unique _ _ Hinv) Hins) as Hnd.
    apply insert_inr in Hins as [-> Hnew].
    split; [split|].
    + destruct Hinv as [_ Ha He Hf]. split; simpl; [done| | |].
      * intros s [Hs|[->|[]%elem_of_nil]%elem_of_cons]%elem_of_app; [by apply Ha|].
        exists now. simpl. split; [done|lia].
      * intros s [Hs|[->|[]%elem_of_nil]%elem_of_cons]%elem_of_app; [by apply He|].
        by left.
      * intros s [Hs|[->|[]%elem_of_nil]%elem_of_cons]%elem_of_app;
          [specialize (Hf s Hs)|simpl]; lia.
    + intros s0 Hs0. destruct (Hev s0 Hs0) as (s & Hs & Hrow).
      exists s. split; [|done]. simpl. apply elem_of_app. by left.
    + split; [|done]. simpl. apply elem_of_app. right. by left.
Qed.

Lemma store_update_keeps now read new count x0 x :
  keeps now x0 x -> read ∈ ussd_sessions x -> rewritten now read new ->
  match store_update read new count x with
  | (inr _, x') => keeps now x0 x'
  | (inl _, x') => keeps now x0 x'
  end.
Proof.
  intros [Hinv Hev] Hread (Hid & Hsid & Hla & Hend & Hflags).
  unfold store_update. cbv zeta.
  destruct (select_session _ _) as [stored|]; [|done].
  destruct (Sql.holds _); [done|].
  set (f := fun s : ussd_session =>
              if String.eqb (session_id s) (session_id read) then new else s).
  assert (Hf : forall s, session_id (f s) = session_id s).
  { intros s. unfold f. destruct (String.eqb _ _) eqn:Hs; [|done].
    apply String.eqb_eq in Hs. congruence. }
  assert (Hrow : forall s, s ∈ ussd_sessions x -> row_evolves now s (f s)).
  { intros s Hs. unfold f. destruct (String.eqb _ _) eqn:Heq.
    - apply String.eqb_eq in Heq.
      assert (s = read) as ->
        by (eapply unique_session; eauto using inv_unique).
      split; [done|]. split; [|done].
      destruct (inv_activity _ _ Hinv read Hread) as (la & Hla' & Hle).
      right. exists la, now. by rewrite Hla, Hla'.
    - apply row_evolves_refl. }
  destruct Hinv as [Hu Ha He Hfr]. split; [split|]; simpl.
  - rewrite <- list_fmap_compose.
    rewrite (list_fmap_ext (session_id ∘ f) session_id (ussd_sessions x)); [done|].
    intros _ s _. apply Hf.
  - intros s' (s & -> & Hs)%list_elem_of_fmap. unfold f.
    destruct (String.eqb _ _); [|by apply Ha].
    exists now. split; [done|lia].
  - intros s' (s & -> & Hs)%list_elem_of_fmap. unfold f.
    destruct (String.eqb _ _); [done|by apply He].
  - intros s' (s & -> & Hs)%list_elem_of_fmap. unfold f.
    destruct (String.eqb _ _); [|by apply Hfr].
    rewrite Hid. by apply Hfr.
  - intros s0 Hs0. destruct (Hev s0 Hs0) as (s & Hs & Hrow0).
    exists (f s). split; [by apply list_elem_of_fmap_2|].
    eapply row_evolves_trans; [exact Hrow0|by apply Hrow].
Qed.

(** *** One call of the engine *)

Lemma rewritten_touch now s :
  ended_iff_inactive s -> rewritten now s (touch now s).
Proof. intros He. repeat split; try done. by left. Qed.

Lemma rewritten_move now node s :
  ended_iff_inactive s -> rewritten now s (move now node s).
Proof. intros He. repeat split; try done. by left. Qed.

Lemma rewritten_finish now s :
  is_active s = Some true -> rewritten now s (finish now s).
Proof.
  intros Ha. repeat split; try done.
  - right. simpl. eauto.
  - right. simpl. done.
Qed.

Lemma update_in_turn E now x0 s new count (o : outcome) :
  rewritten now s new ->
  triple (ready now x0 s)
    (with_retry E (store_update s new count) ≫= fun _ => mret o)
    (fun _ x => keeps now x0 x) (keeps now x0).
Proof.
  intros Hnew.
  eapply triple_bind with (Q := fun _ x => keeps now x0 x).
  - apply triple_with_retry.
    + apply store_update_no_timeout.
    + by intros x [H _].
    + intros x (Hk & Hs & _).
      pose proof (store_update_keeps now s new count x0 x Hk Hs Hnew) as H.
      by destruct (store_update s new count x) as [[e|[]] x'].
  - intros _. by apply triple_ret.
Qed.

Lemma turn_keeps E now x0 u svc s token :
  triple (ready now x0 s) (turn E now u svc s token)
    (fun _ x => keeps now x0 x) (keeps now x0).
Proof.
  unfold turn.
  assert (Hfault : forall x, ready now x0 s x -> keeps now x0 x)
    by (by intros x [H _]).
  destruct (current_menu s) as [n|]; [|by apply triple_raise].
  destruct (menu svc !! n) as [node|]; [|by apply triple_raise].
  assert (Hended : forall x, ready now x0 s x -> ended_iff_inactive s).
  { intros x ([Hinv _] & Hs & _). by apply (inv_ended _ _ Hinv). }
  assert (Hactive : forall x, ready now x0 s x -> is_active s = Some true)
    by (by intros x (_ & _ & H)).
  destruct (find _ (options node)) as [opt|].
  - destruct (menu svc !! next opt) as [target|].
    + intros st Hst.
      by apply (update_in_turn E now x0 s _ _ _
                  (rewritten_move now _ s (Hended _ Hst))).
    + destruct (action E _ _ _ _) as [result|cause]; intros st Hst;
        by apply (update_in_turn E now x0 s _ _ _
                    (rewritten_finish now s (Hactive _ Hst))).
  - eapply triple_bind with (Q := fun _ => ready now x0 s).
    + intros st Hst. exact Hst.
    + intros count. destruct (_ <=? _); intros st Hst.
      * by apply (update_in_turn E now x0 s _ _ _
                    (rewritten_touch now s (Hended _ Hst))).
      * by apply (update_in_turn E now x0 s _ _ _
                    (rewritten_finish now s (Hactive _ Hst))).
Qed.

Lemma resolve_session_ready E now x0 sid u svc :
  triple (keeps now x0) (resolve_session E now sid u svc)
    (fun r => ready now x0 r.2) (keeps now x0).
Proof.
  unfold resolve_session.
  eapply triple_bind with
    (Q := fun found x =>
            keeps now x0 x /\
            found = select_session sid (ussd_sessions x)).
  - apply triple_with_retry; [apply store_get_no_timeout|done|].
    intros x Hx. simpl. done.
  - intros [s|].
    + destruct (Sql.holds _) eqn:Hact.
      * apply triple_ret. intros x [Hk Hfind]. split; [done|]. simpl.
        symmetry in Hfind. apply find_session_elem in Hfind as [Hs _].
        split; [done|]. by destruct (is_active s) as [[]|].
      * apply triple_raise. by intros x [Hk _].
    + eapply triple_bind with (Q := ready now x0);
        [|intros s; apply triple_ret; intros x Hx; exact Hx].
      apply triple_with_retry.
      * apply store_create_no_timeout.
      * by intros x [Hk _].
      * intros x [Hk Hfind]. symmetry in Hfind.
        pose proof (store_create_keeps now sid (Users.id u) (service svc) x0 x Hk Hfind) as H.
        by destruct (store_create _ _ _ _ x) as [[e|r] x'].
Qed.

Lemma interact_keeps E now x0 sid phone code rawText :
  triple (keeps now x0) (interact E now sid phone code rawText)
    (fun _ x => keeps now x0 x) (keeps now x0).
Proof.
  unfold interact.
  eapply triple_bind with (Q := fun _ x => keeps now x0 x).
  { pose proof (upsert_user_sessions now phone) as Hu.
    apply triple_with_retry; [apply Hu|done|].
    intros x [Hinv Hev]. destruct (Hu x) as (_ & Heq & Hseq).
    assert (keeps now x0 (upsert_user now phone x).2)
      by (split; [apply (inv_same_sessions now x); [done|lia|done]
                 |by apply (evolves_same_sessions now x0 x)]).
    by destruct (upsert_user now phone x) as [[e|a] x']. }
  intros u. eapply triple_bind with (Q := fun _ x => keeps now x0 x).
  { unfold resolve_service. destruct (catalog E !! code) as [svc|].
    - destruct (active svc); [by apply triple_ret|by apply triple_raise].
    - by apply triple_raise. }
  intros svc. eapply triple_bind; [apply resolve_session_ready|].
  intros [created s]. unfold answer. simpl.
  destruct (created && _); [|apply turn_keeps].
  unfold welcome. destruct (current_menu s) as [n|]; [|by apply triple_raise; intros x [H _]].
  destruct (menu svc !! n); [apply triple_ret|apply triple_raise]; by intros x [H _].
Qed.

(** One call of the engine at a time [now] not before [t] keeps the
    invariant, and every session evolves. *)
Lemma handleInteraction_keeps E t now sid phone code rawText x :
  inv t x -> t <= now ->
  keeps now x (handleInteraction E now sid phone code rawText x).2.
Proof.
  intros Hinv Ht. unfold handleInteraction.
  assert (H0 : keeps now x x)
    by (split; [by eapply inv_later|apply evolves_refl]).
  pose proof (interact_keeps E now x sid phone code rawText
                {| w := x; requests := 0 |} H0) as H.
  destruct (interact _ _ _ _ _ _ _) as [[e|o] st]; simpl;
    (split; [apply (inv_same_sessions now (w st)); [done|simpl; lia|apply H]
            |by apply (evolves_same_sessions now x (w st)); [|apply H]]).
Qed.

(** One run of the reaper does too. *)
Lemma reap_keeps t now timeout_minutes x :
  inv t x -> t <= now -> keeps now x (reap now timeout_minutes x).
Proof.
  intros Hinv Ht. apply (inv_later t now) in Hinv; [|done].
  assert (Hrow : forall s, s ∈ ussd_sessions x ->
            row_evolves now s (sweep_row now timeout_minutes s) /\
            ended_iff_inactive (sweep_row now timeout_minutes s)).
  { intros s Hs. unfold sweep_row.
    destruct (Sql.holds _) eqn:Hc.
    - apply sweep_condition_true in Hc as [Ha _]. split.
      + split; [done|]. split; [apply not_later_refl|]. by right.
      + right. simpl. eauto.
    - split; [apply row_evolves_refl|by apply (inv_ended _ _ Hinv)]. }
  destruct Hinv as [Hu Ha He Hfr]. split; [split|]; simpl.
  - rewrite <- list_fmap_compose.
    rewrite (list_fmap_ext (session_id ∘ sweep_row now timeout_minutes)
               session_id (ussd_sessions x)); [done|].
    intros _ s _. simpl. unfold sweep_row. by destruct (Sql.holds _).
  - intros s' (s & -> & Hs)%list_elem_of_fmap.
    destruct (Ha s Hs) as (la & Hla & Hle). exists la. split; [|done].
    unfold sweep_row. by destruct (Sql.holds _).
  - intros s' (s & -> & Hs)%list_elem_of_fmap. by apply Hrow.
  - intros s' (s & -> & Hs)%list_elem_of_fmap. specialize (Hfr s Hs).
    unfold sweep_row. by destruct (Sql.holds _).
  - intros s Hs. exists (sweep_row now timeout_minutes s).
    split; [by apply list_elem_of_fmap_2|by apply Hrow].
Qed.

Lemma operation_keeps t now x x' :
  inv t x -> t <= now -> operation now x x' -> keeps now x x'.
Proof.
  intros Hinv Ht [E sid phone code rawText|timeout_minutes].
  - by apply (handleInteraction_keeps E t now).
  - by apply (reap_keeps t now).
Qed.

Lemma reachable_inv t x : reachable t x -> inv t x.
Proof.
  induction 1 as [t|t t' x x' _ IH Ht Hop].
  - split; simpl; [apply NoDup_nil_2|by intros s ?%elem_of_nil..].
  - by apply (operation_keeps t t' x x').
Qed.

(** The engine, as modelled from the specification, and the reaper keep
    the table of sessions consistent.  In every world they reach the
    session identifiers are distinct and a session has [ended_at] if and
    only if it is inactive; an operation leaves every session with a last
    activity not earlier than before and either keeps its flags or ends
    it at the time of the operation; and [create] for a stored
    identifier loads the stored session and adds no row. *)
Theorem modelled_engine_keeps_sessions_consistent t x :
  Engine.reachable t x ->
  NoDup (session_id <$> ussd_sessions x) /\
  (forall s, s ∈ ussd_sessions x ->
     ended_at s <> None <-> is_active s = Some false) /\
  (forall now x', t <= now -> operation now x x' ->
     forall s, s ∈ ussd_sessions x ->
       exists s' la la', s' ∈ ussd_sessions x' /\
         session_id s' = session_id s /\
         last_activity s = Some la /\ last_activity s' = Some la' /\ la <= la' /\
         ((is_active s' = is_active s /\ ended_at s' = ended_at s) \/
          (is_active s = Some true /\ is_active s' = Some false /\
           ended_at s' = Some now))) /\
  (forall now sid uid svc winner,
     select_session sid (ussd_sessions x) = Some winner ->
     (store_create now sid uid svc x).1 = inr winner /\
     ussd_sessions (store_create now sid uid svc x).2 = ussd_sessions x).
Proof.
  intros Hinv%reachable_inv. split; [apply Hinv|]. split; [|split].
  - intros s Hs.
    destruct (inv_ended _ _ Hinv s Hs) as [[Ha He]|[Ha [e He]]];
      rewrite Ha, He; split; congruence.
  - intros now x' Ht Hop s Hs.
    destruct (operation_keeps t now x x' Hinv Ht Hop) as [_ Hev].
    destruct (Hev s Hs) as (s' & Hs' & Hid & Hla & Hflags).
    destruct (inv_activity _ _ Hinv s Hs) as (la & Hs_la & _).
    destruct Hla as [Heq|(a & b & Ha & Hb & Hab)].
    + exists s', la, la. rewrite <- Heq. by repeat split.
    + exists s', a, b. by repeat split.
  - intros now sid uid svc winner Hfind.
    unfold store_create, insert. cbv zeta. simpl.
    rewrite bool_decide_eq_false_2.
    + rewrite bool_decide_eq_true_2 by by eapply find_session_some.
      simpl. by rewrite Hfind.
    + intros (s & Hid & Hs)%list_elem_of_fmap.
      pose proof (inv_fresh _ _ Hinv s Hs). lia.
Qed.

(** *** The log is written at the boundary only *)

Lemma upsert_user_log now phone x : log (upsert_user now phone x).2 = log x.
Proof.
  unfold upsert_user. destruct (find _ (users x)); [done|]. by case_bool_decide.
Qed.

Lemma store_create_log now sid uid svc x :
  log (store_create now sid uid svc x).2 = log x.
Proof.
  unfold store_create. cbv zeta.
  destruct (insert _ _ _) as [[c|c]|tbl]; [|done..].
  destruct (String.eqb c _); [|done]. by destruct (select_session _ _).
Qed.

Lemma store_update_log read new count x :
  log (store_update read new count x).2 = log x.
Proof.
  unfold store_update. cbv zeta.
  destruct (select_session _ _); [|done]. by destruct (Sql.holds _).
Qed.

(** A request to the store that leaves the log alone. *)
Lemma triple_log {A} E (op : world -> (fault + A) * world) entries :
  (forall x, (op x).1 <> inl StoreTimeout) ->
  (forall x, log (op x).2 = log x) ->
  triple (fun x => log x = entries) (with_retry E op)
    (fun _ x => log x = entries) (fun x => log x = entries).
Proof.
  intros Hnt Hlog. apply triple_with_retry; [done|done|].
  intros x Hx. specialize (Hlog x). rewrite Hx in Hlog.
  by destruct (op x) as [[e|a] x'].
Qed.

Lemma interact_log E now sid phone code rawText entries :
  triple (fun x => log x = entries) (interact E now sid phone code rawText)
    (fun _ x => log x = entries) (fun x => log x = entries).
Proof.
  assert (Hupdate : forall s new count (o : outcome),
    triple (fun x => log x = entries)
      (with_retry E (store_update s new count) ≫= fun _ => mret o)
      (fun _ x => log x = entries) (fun x => log x = entries)).
  { intros s new count o.
    eapply triple_bind with (Q := fun _ x => log x = entries);
      [|intros _; by apply triple_ret].
    apply triple_log; [apply store_update_no_timeout|apply store_update_log]. }
  unfold interact.
  eapply triple_bind with (Q := fun _ x => log x = entries).
  { apply triple_log; [apply upsert_user_sessions|apply upsert_user_log]. }
  intros u. eapply triple_bind with (Q := fun _ x => log x = entries).
  { unfold resolve_service. destruct (catalog E !! code) as [svc|].
    - destruct (active svc); [by apply triple_ret|by apply triple_raise].
    - by apply triple_raise. }
  intros svc. eapply triple_bind with (Q := fun _ x => log x = entries).
  { unfold resolve_session.
    eapply triple_bind with (Q := fun _ x => log x = entries).
    - apply triple_log; [apply store_get_no_timeout|done].
    - intros [s|].
      + destruct (Sql.holds _); [by apply triple_ret|by apply triple_raise].
      + eapply triple_bind with (Q := fun _ x => log x = entries);
          [|intros s; by apply triple_ret].
        apply triple_log; [apply store_create_no_timeout|apply store_create_log]. }
  intros [created s]. unfold answer. simpl. destruct (created && _).
  - unfold welcome. destruct (current_menu s) as [n|]; [|by apply triple_raise].
    destruct (menu svc !! n); [by apply triple_ret|by apply triple_raise].
  - unfold turn. destruct (current_menu s) as [n|]; [|by apply triple_raise].
    destruct (menu svc !! n) as [node|]; [|by apply triple_raise].
    destruct (find _ (options node)) as [opt|].
    + destruct (menu svc !! next opt); [apply Hupdate|].
      destruct (action E _ _ _ _); apply Hupdate.
    + eapply triple_bind with (Q := fun _ x => log x = entries).
      * intros st Hst. exact Hst.
      * intros count. destruct (_ <=? _); apply Hupdate.
Qed.

(** *** An answer flagged as an error ends the dialog *)

Lemma triple_any {A} E (op : world -> (fault + A) * world) :
  (forall x, (op x).1 <> inl StoreTimeout) ->
  triple (fun _ => True) (with_retry E op) (fun _ _ => True) (fun _ => True).
Proof.
  intros Hnt. apply triple_with_retry; [done|done|].
  intros x _. by destruct (op x) as [[e|a] x'].
Qed.

Lemma interact_outcome E now sid phone code rawText :
  triple (fun _ => True) (interact E now sid phone code rawText)
    (fun o _ => failed o = true -> continue o = false) (fun _ => True).
Proof.
  assert (Hupdate : forall s new count (o : outcome),
    (failed o = true -> continue o = false) ->
    triple (fun _ => True)
      (with_retry E (store_update s new count) ≫= fun _ => mret o)
      (fun o _ => failed o = true -> continue o = false) (fun _ => True)).
  { intros s new count o Ho.
    eapply triple_bind with (Q := fun _ _ => True);
      [|intros _; by apply triple_ret].
    apply triple_any, store_update_no_timeout. }
  unfold interact.
  eapply triple_bind with (Q := fun _ _ => True).
  { apply triple_any, upsert_user_sessions. }
  intros u. eapply triple_bind with (Q := fun _ _ => True).
  { unfold resolve_service. destruct (catalog E !! code) as [svc|].
    - destruct (active svc); [by apply triple_ret|by apply triple_raise].
    - by apply triple_raise. }
  intros svc. eapply triple_bind with (Q := fun _ _ => True).
  { unfold resolve_session.
    eapply triple_bind with (Q := fun _ _ => True).
    - apply triple_any, store_get_no_timeout.
    - intros [s|].
      + destruct (Sql.holds _); [by apply triple_ret|by apply triple_raise].
      + eapply triple_bind with (Q := fun _ _ => True);
          [|intros s; by apply triple_ret].
        apply triple_any, store_create_no_timeout. }
  intros [created s]. unfold answer. simpl. destruct (created && _).
  - unfold welcome. destruct (current_menu s) as [n|]; [|by apply triple_raise].
    destruct (menu svc !! n); [by apply triple_ret|by apply triple_raise].
  - unfold turn. destruct (current_menu s) as [n|]; [|by apply triple_raise].
    destruct (menu svc !! n) as [node|]; [|by apply triple_raise].
    destruct (find _ (options node)) as [opt|].
    + destruct (menu svc !! next opt); [by apply Hupdate|].
      destruct (action E _ _ _ _); by apply Hupdate.
    + eapply triple_bind with (Q := fun _ _ => True).
      * intros st Hst. exact Hst.
      * intros count. destruct (_ <=? _); by apply Hupdate.
Qed.

End Steps.


(** ** The answers of the engine *)

Section Answers.
Import Db Engine.
Local Open Scope string_scope.

(** C3. [handleInteraction] always answers: whatever the request and
    whatever fault occurs inside (the store timing out, an action
    failing, an unknown or disabled service, an expired session, or any
    other), the call returns a text prefixed [CON ] or [END ] and hands
    exactly one entry to the log, which records that text.  When the
    call faulted, the answer is an [END] and the entry is flagged as an
    error; a fault that the error table does not cover gives the generic
    [END] message.  No entry flagged as an error goes with a [CON]. *)
Theorem handleInteraction_always_answers E now sid phone code rawText x :
  let r := handleInteraction E now sid phone code rawText x in
  (exists body, r.1 = "CON " ++ body \/ r.1 = "END " ++ body) /\
  exists entry,
    log r.2 = app (log x) [entry] /\
    response_text entry = r.1 /\
    (forall e,
       (interact E now sid phone code rawText {| w := x; requests := 0 |}).1 = inl e ->
       is_error entry = true /\
       exists msg, r.1 = "END " ++ msg /\
                   forall cause, e = Unexpected cause -> msg = generic_error) /\
    (is_error entry = true -> exists msg, r.1 = "END " ++ msg).
Proof.
  cbv zeta. unfold handleInteraction.
  pose proof (interact_log E now sid phone code rawText (log x)
                {| w := x; requests := 0 |} eq_refl) as Hlog.
  pose proof (interact_outcome E now sid phone code rawText
                {| w := x; requests := 0 |} I) as Hout.
  destruct (interact _ _ _ _ _ _ _) as [[e|o] st]; simpl; rewrite Hlog.
  - split; [exists (body (degrade e)); right; by destruct e|].
    eexists. split; [done|]. split; [done|]. simpl.
    assert (Hend : exists msg, response (degrade e) = "END " ++ msg)
      by (exists (body (degrade e)); by destruct e).
    split; [|done].
    intros e' [= <-]. split; [by destruct e|].
    exists (body (degrade e)). split; [by destruct e|].
    by intros cause ->.
  - split; [exists (body o); unfold response; destruct (continue o); eauto|].
    eexists. split; [done|]. split; [done|]. simpl. split; [done|].
    intros Hfailed. exists (body o). unfold response. by rewrite (Hout Hfailed).
Qed.






End Answers.

(** * Further properties of the sources *)

(** ** Runs of the sweep *)

Section SweepRuns.
Import Db.

Lemma sweep_row_null now s : sweep_row now None s = s.
Proof.
  apply sweep_row_other. unfold sweep_condition, cutoff. simpl.
  by destruct (is_active s) as [[]|], (last_activity s).
Qed.

(** [end_inactive_sessions] is not declared [STRICT], so it runs on a
    NULL argument: the cutoff is then NULL, the condition is true of no
    row, the table is left as it is and the function returns 0. *)
Theorem reaper_null_timeout_ends_nothing now (tbl : table) :
  end_inactive_sessions now None tbl = (tbl, 0).
Proof.
  unfold end_inactive_sessions. cbv zeta. f_equal.
  - rewrite <- (list_fmap_id tbl) at 2. apply list_fmap_ext.
    intros _ s _. apply sweep_row_null.
  - induction tbl as [|s tbl IH]; [done|].
    rewrite filter_cons_False; [exact IH|].
    unfold sweep_condition, cutoff. simpl.
    destruct (is_active s) as [[]|], (last_activity s); simpl; intros [].
Qed.

Lemma successive_step now1 now2 m1 m2 s (tbl : table) :
  now1 - m1 * 60000000 <= now2 - m2 * 60000000 ->
  let hit1 := if Sql.holds (sweep_condition now1 (Some m1) s) then 1 else 0 in
  let hit2 := if Sql.holds (sweep_condition now2 (Some m2)
                              (sweep_row now1 (Some m1) s)) then 1 else 0 in
  let hit := if Sql.holds (sweep_condition now2 (Some m2) s) then 1 else 0 in
  hit1 + hit2 = hit /\
  is_active (sweep_row now2 (Some m2) (sweep_row now1 (Some m1) s))
  = is_active (sweep_row now2 (Some m2) s).
Proof.
  intros Hle. cbv zeta.
  destruct (Sql.holds (sweep_condition now1 (Some m1) s)) eqn:H1.
  - rewrite (sweep_row_stale _ _ _ H1), sweep_set_not_matched.
    apply sweep_condition_true in H1 as (Ha & m & la & [= <-] & Hla & Hlt).
    assert (H2 : Sql.holds (sweep_condition now2 (Some m2) s) = true).
    { apply sweep_condition_true. split; [done|]. exists m2, la.
      repeat split; [done|lia]. }
    rewrite H2. split; [done|].
    rewrite (sweep_row_other now2 (Some m2) (sweep_set now1 s))
      by apply sweep_set_not_matched.
    by rewrite (sweep_row_stale _ _ _ H2).
  - rewrite (sweep_row_other _ _ _ H1).
    by destruct (Sql.holds (sweep_condition now2 (Some m2) s)).
Qed.

(** Two runs of the sweep, the second with a cutoff that is not earlier
    than the cutoff of the first, end together the sessions that a
    single run with the second cutoff ends: the two returned counts add
    up to the count of that single run, so no session is counted twice,
    and the same sessions are inactive at the end.  A session ended by
    the first run is not touched by the second: it keeps the end time of
    the first. *)
Theorem successive_sweeps_count_each_session_once now1 now2 m1 m2 (tbl : table) :
  now1 - m1 * 60000000 <= now2 - m2 * 60000000 ->
  let first := end_inactive_sessions now1 (Some m1) tbl in
  let second := end_inactive_sessions now2 (Some m2) first.1 in
  let single := end_inactive_sessions now2 (Some m2) tbl in
  first.2 + second.2 = single.2 /\
  first.2 <= single.2 /\
  is_active <$> second.1 = is_active <$> single.1 /\
  (forall i s, first.1 !! i = Some s -> is_active s = Some false ->
     second.1 !! i = Some s).
Proof.
  intros Hle. cbv zeta.
  assert (Hcount : forall now tm (t : table),
            0 <= (end_inactive_sessions now tm t).2) by (intros; simpl; lia).
  assert (Hsum :
    (end_inactive_sessions now1 (Some m1) tbl).2 +
    (end_inactive_sessions now2 (Some m2)
       (end_inactive_sessions now1 (Some m1) tbl).1).2
    = (end_inactive_sessions now2 (Some m2) tbl).2 /\
    is_active <$> (end_inactive_sessions now2 (Some m2)
                     (end_inactive_sessions now1 (Some m1) tbl).1).1
    = is_active <$> (end_inactive_sessions now2 (Some m2) tbl).1).
  { induction tbl as [|s tbl [IH1 IH2]]; [done|].
    destruct (successive_step now1 now2 m1 m2 s tbl Hle) as [Hs1 Hs2].
    destruct (sweep_counts_step now1 (Some m1) s tbl) as (-> & _ & _).
    destruct (sweep_counts_step now2 (Some m2) s tbl) as (-> & _ & _).
    change (end_inactive_sessions now1 (Some m1) (s :: tbl)).1
      with (sweep_row now1 (Some m1) s :: (end_inactive_sessions now1 (Some m1) tbl).1).
    destruct (sweep_counts_step now2 (Some m2) (sweep_row now1 (Some m1) s)
                (end_inactive_sessions now1 (Some m1) tbl).1) as (-> & _ & _).
    split; [lia|].
    change (is_active <$> (end_inactive_sessions now2 (Some m2) (?x :: ?t)).1)
      with (is_active (sweep_row now2 (Some m2) x)
              :: (is_active <$> (end_inactive_sessions now2 (Some m2) t).1)).
    change (is_active <$> (end_inactive_sessions now2 (Some m2) (s :: tbl)).1)
      with (is_active (sweep_row now2 (Some m2) s)
              :: (is_active <$> (end_inactive_sessions now2 (Some m2) tbl).1)).
    by rewrite Hs2, IH2. }
  destruct Hsum as [Hsum Hact].
  split; [exact Hsum|]. split; [|split; [exact Hact|]].
  - pose proof (Hcount now2 (Some m2) (end_inactive_sessions now1 (Some m1) tbl).1).
    lia.
  - intros i s Hi Hina. rewrite sweep_lookup, Hi. simpl. f_equal.
    apply sweep_row_other. apply not_true_is_false.
    rewrite sweep_condition_true. intros [? _]. congruence.
Qed.

Lemma successive_sweeps_count_each_session_once_witness :
  600000000 - 3 * 60000000 <= 900000000 - 3 * 60000000 /\
  (end_inactive_sessions 600000000 (Some 3) Samples.two_sessions).2 +
  (end_inactive_sessions 900000000 (Some 3)
     (end_inactive_sessions 600000000 (Some 3) Samples.two_sessions).1).2
  = (end_inactive_sessions 900000000 (Some 3) Samples.two_sessions).2.
Proof.
  split; [lia|].
  apply (successive_sweeps_count_each_session_once 600000000 900000000 3 3
           Samples.two_sessions). lia.
Defined.

End SweepRuns.

(** ** Storing and finding sessions *)

Section Inserts.
Import Db.




End Inserts.

(** ** The views *)

Section ViewsOfSessions.
Import Db Views.

(** The users joined to a session: the one user the session refers to. *)
Lemma join_one_user {B} (uid : Z) (b : bool) (f : Users.user -> B)
    (us : list Users.user) :
  NoDup (Users.id <$> us) -> uid ∈ Users.id <$> us ->
  exists u, u ∈ us /\ Users.id u = uid /\
    (u ← us; if bool_decide (uid = Users.id u) && b then [f u] else [])
    = if b then [f u] else [].
Proof.
  assert (Hnone : forall l : list Users.user, uid ∉ Users.id <$> l ->
            (u ← l; if bool_decide (uid = Users.id u) && b then [f u] else []) = []).
  { induction l as [|u l IH]; [done|].
    rewrite fmap_cons, not_elem_of_cons. intros [Hne Hl].
    cbn [mbind list_bind]. rewrite bool_decide_eq_false_2 by done.
    simpl. by apply IH. }
  induction us as [|u us IH]; [by intros _ ?%elem_of_nil|].
  rewrite fmap_cons, NoDup_cons. intros [Hu Hnd] [->|Hin]%elem_of_cons.
  - exists u. split; [by left|]. split; [done|].
    cbn [mbind list_bind]. rewrite bool_decide_eq_true_2 by done.
    rewrite (Hnone us Hu). simpl. by destruct b.
  - destruct (IH Hnd Hin) as (u' & Hu' & Hid & Heq).
    exists u'. split; [by right|]. split; [done|].
    cbn [mbind list_bind]. rewrite bool_decide_eq_false_2.
    + simpl. exact Heq.
    + intros ->. by apply Hu.
Qed.

(** The sessions that [vw_active_sessions] shows, by their
    identifiers. *)
Lemma vw_active_sessions_ids now us (tbl : table) :
  NoDup (Users.id <$> us) ->
  (forall s, s ∈ tbl -> user_id s ∈ Users.id <$> us) ->
  Active.session_id <$> vw_active_sessions now us tbl
  = session_id <$> filter (fun s => Sql.holds (Sql.eqb (is_active s) (Some true))) tbl.
Proof.
  intros Hnd Hfk. unfold vw_active_sessions.
  induction tbl as [|s tbl IH]; [done|].
  cbn [mbind list_bind]. rewrite fmap_app, IH
    by (intros s' Hs'; apply Hfk; by right).
  destruct (join_one_user (user_id s)
              (Sql.holds (Sql.eqb (is_active s) (Some true)))
              (fun u => {| Active.id := id s;
                 Active.session_id := session_id s;
                 Active.phone_number := Users.phone_number u;
                 Active.first_name := Users.first_name u;
                 Active.last_name := Users.last_name u;
                 Active.current_menu := current_menu s;
                 Active.started_at := started_at s;
                 Active.last_activity := last_activity s;
                 Active.seconds_since_last_activity :=
                   Sql.minus (Some now) (last_activity s) |})
              us Hnd) as (u & _ & _ & ->); [apply Hfk; by left|].
  rewrite filter_cons.
  destruct (Sql.holds (Sql.eqb (is_active s) (Some true))); done.
Qed.

Lemma vw_active_sessions_count now us (tbl : table) :
  NoDup (Users.id <$> us) ->
  (forall s, s ∈ tbl -> user_id s ∈ Users.id <$> us) ->
  Z.of_nat (length (vw_active_sessions now us tbl)) = count_active tbl.
Proof.
  intros Hnd Hfk. unfold count_active.
  by rewrite <- (length_fmap Active.session_id),
    (vw_active_sessions_ids now us tbl Hnd Hfk), length_fmap.
Qed.

(** On tables that satisfy the primary key of [users] and the foreign
    key of [ussd_sessions.user_id], [vw_active_sessions] has one row for
    each session with [is_active = TRUE], in the order of the sessions,
    and none for any other session: the rows are as many as the active
    sessions, and each carries the identifier of an active session and
    the phone number of the user that session refers to. *)
Theorem vw_active_sessions_one_row_per_active_session now us (tbl : table) :
  NoDup (Users.id <$> us) ->
  (forall s, s ∈ tbl -> user_id s ∈ Users.id <$> us) ->
  let view := vw_active_sessions now us tbl in
  Active.session_id <$> view
  = session_id <$> filter (fun s => Sql.holds (Sql.eqb (is_active s) (Some true))) tbl /\
  Z.of_nat (length view) = count_active tbl /\
  (forall r, r ∈ view ->
     exists s u, s ∈ tbl /\ u ∈ us /\ is_active s = Some true /\
       user_id s = Users.id u /\ Active.id r = id s /\
       Active.phone_number r = Users.phone_number u).
Proof.
  intros Hnd Hfk view.
  split; [by apply vw_active_sessions_ids|].
  split; [by apply vw_active_sessions_count|].
  unfold view, vw_active_sessions. intros r.
  rewrite list_elem_of_bind. intros (s & Hr & Hs).
  apply list_elem_of_bind in Hr as (u & Hr & Hu).
  case_bool_decide as Hid; simpl in Hr; [|by apply elem_of_nil in Hr].
  destruct (is_active s) as [[]|] eqn:Ha; simpl in Hr;
    try (by apply elem_of_nil in Hr).
  apply list_elem_of_singleton in Hr as ->.
  exists s, u. done.
Qed.

Lemma vw_active_sessions_one_row_per_active_session_witness :
  NoDup (Users.id <$> [Samples.test_user]) /\
  (forall s, s ∈ Samples.two_sessions -> user_id s ∈ Users.id <$> [Samples.test_user]) /\
  Z.of_nat (length (vw_active_sessions 600000000 [Samples.test_user] Samples.two_sessions))
  = count_active Samples.two_sessions.
Proof.
  assert (H1 : NoDup (Users.id <$> [Samples.test_user])).
  { apply NoDup_singleton. }
  assert (H2 : forall s, s ∈ Samples.two_sessions ->
                user_id s ∈ Users.id <$> [Samples.test_user]).
  { intros s [->|[->|[]%elem_of_nil]%elem_of_cons]%elem_of_cons; by left. }
  split; [exact H1|]. split; [exact H2|].
  exact (proj1 (proj2 (vw_active_sessions_one_row_per_active_session
                         600000000 [Samples.test_user] Samples.two_sessions H1 H2))).
Defined.

(** After a run of [end_inactive_sessions] with the timeout [m],
    [vw_active_sessions], read in the same transaction, shows only rows
    it showed before the run, and none of them has been idle for longer
    than [m] minutes ([seconds_since_last_activity] is at most 60 m
    seconds, or NULL where the last activity is). *)
Theorem vw_active_sessions_after_the_sweep now m us (tbl : table) :
  let swept := (end_inactive_sessions now (Some m) tbl).1 in
  (forall r, r ∈ vw_active_sessions now us swept ->
     r ∈ vw_active_sessions now us tbl) /\
  (forall r idle, r ∈ vw_active_sessions now us swept ->
     Active.seconds_since_last_activity r = Some idle -> idle <= m * 60000000).
Proof.
  cbv zeta.
  assert (Hrow : forall r, r ∈ vw_active_sessions now us
                               (end_inactive_sessions now (Some m) tbl).1 ->
    exists s u, s ∈ tbl /\ u ∈ us /\
      Sql.holds (sweep_condition now (Some m) s) = false /\
      is_active s = Some true /\
      (if bool_decide (user_id s = Users.id u) &&
          Sql.holds (Sql.eqb (is_active s) (Some true))
       then [ {| Active.id := id s;
            Active.session_id := session_id s;
            Active.phone_number := Users.phone_number u;
            Active.first_name := Users.first_name u;
            Active.last_name := Users.last_name u;
            Active.current_menu := current_menu s;
            Active.started_at := started_at s;
            Active.last_activity := last_activity s;
            Active.seconds_since_last_activity :=
              Sql.minus (Some now) (last_activity s) |} ] else []) = [r]).
  { intros r. unfold vw_active_sessions at 1.
    rewrite list_elem_of_bind. intros (s' & Hr & Hs').
    apply list_elem_of_bind in Hr as (u & Hr & Hu).
    cbn [fst end_inactive_sessions] in Hs'.
    apply list_elem_of_fmap in Hs' as (s & -> & Hs).
    exists s, u. split; [done|]. split; [done|].
    unfold sweep_row in Hr |- *.
    destruct (Sql.holds (sweep_condition now (Some m) s)) eqn:Hc.
    - simpl in Hr. rewrite andb_false_r in Hr. by apply elem_of_nil in Hr.
    - split; [done|].
      case_bool_decide as Hid; simpl in Hr |- *; [|by apply elem_of_nil in Hr].
      destruct (is_active s) as [[]|] eqn:Ha; simpl in Hr |- *;
        try (by apply elem_of_nil in Hr).
      apply list_elem_of_singleton in Hr as ->. done. }
  split.
  - intros r (s & u & Hs & Hu & _ & _ & Hr)%Hrow.
    unfold vw_active_sessions. apply list_elem_of_bind. exists s. split; [|done].
    apply list_elem_of_bind. exists u. split; [|done].
    rewrite Hr. by left.
  - intros r idle (s & u & Hs & Hu & Hc & Ha & Hr)%Hrow Hidle.
    rewrite Ha in Hr. case_bool_decide; simpl in Hr; [|done].
    injection Hr as <-. simpl in Hidle.
    destruct (last_activity s) as [la|] eqn:Hla; [|done].
    injection Hidle as <-.
    destruct (Z.le_gt_cases (now - la) (m * 60000000)) as [|Hgt]; [done|].
    exfalso. apply not_true_iff_false in Hc. apply Hc.
    apply sweep_condition_true. split; [done|]. exists m, la.
    repeat split; [done|lia].
Qed.

Lemma filter_fmap_same {A B} (f : A -> B) (P : B -> Prop) (Q : A -> Prop)
    `{forall x, Decision (P x)} `{forall x, Decision (Q x)} (l : list A) :
  (forall x, P (f x) <-> Q x) ->
  filter P (f <$> l) = f <$> filter Q l.
Proof.
  intros HPQ. induction l as [|x l IH]; [done|].
  rewrite fmap_cons, !filter_cons, IH.
  destruct (decide (P (f x))) as [HP|HP], (decide (Q x)) as [HQ|HQ]; try done.
  - by apply HPQ in HP.
  - by apply HPQ in HQ.
Qed.

Lemma sweep_row_id now tm s : id (sweep_row now tm s) = id s.
Proof. unfold sweep_row. by destruct (Sql.holds _). Qed.

Lemma sweep_row_user_id now tm s : user_id (sweep_row now tm s) = user_id s.
Proof. unfold sweep_row. by destruct (Sql.holds _). Qed.

Lemma session_logs_sweep now tm logs u s :
  session_logs logs u (sweep_row now tm s)
  = swept_row now tm <$> session_logs logs u s.
Proof.
  unfold session_logs. rewrite sweep_row_id.
  destruct (filter _ logs) as [|l ls]; [done|].
  rewrite <- list_fmap_compose. done.
Qed.

Lemma user_rows_sweep now tm (tbl : table) logs u :
  user_rows (end_inactive_sessions now tm tbl).1 logs u
  = swept_row now tm <$> user_rows tbl logs u.
Proof.
  unfold user_rows. cbn [fst end_inactive_sessions].
  rewrite (filter_fmap_same _ _ (fun s => Users.id u = user_id s))
    by (intros s; by rewrite sweep_row_user_id).
  destruct (filter _ tbl) as [|s ss]; [done|].
  rewrite fmap_cons.
  assert (Hbind : forall l : table,
    (sweep_row now tm <$> l) ≫= session_logs logs u
    = swept_row now tm <$> (l ≫= session_logs logs u)).
  { induction l as [|s' l IH]; [done|].
    rewrite fmap_cons. cbn [mbind list_bind].
    rewrite fmap_app, session_logs_sweep. f_equal. exact IH. }
  exact (Hbind (s :: ss)).
Qed.

Lemma aggregate_sweep now tm k group :
  aggregate k (swept_row now tm <$> group) = aggregate k group.
Proof.
  unfold aggregate. f_equal.
  - do 3 f_equal. induction group as [|[[u [s|]] l] group IH]; [done|..].
    + rewrite fmap_cons. cbn. rewrite sweep_row_id. by f_equal.
    + rewrite fmap_cons. cbn. exact IH.
  - do 2 f_equal. induction group as [|[[u s] [l|]] group IH]; [done|..].
    + rewrite fmap_cons. cbn. by f_equal.
    + rewrite fmap_cons. cbn. exact IH.
  - f_equal. rewrite <- list_fmap_compose. apply list_fmap_ext.
    intros _ [[u [s|]] l] _; [|done]. simpl. apply sweep_row_last_activity.
  - f_equal. rewrite <- list_fmap_compose. apply list_fmap_ext.
    by intros _ [[u s] l] _.
Qed.

(** [vw_user_activity] reads no column that the sweep assigns: a run
    of [end_inactive_sessions], whatever its time and timeout, leaves
    every row of the view as it is. *)
Theorem vw_user_activity_unchanged_by_the_sweep now tm us (tbl : table) logs :
  vw_user_activity us (end_inactive_sessions now tm tbl).1 logs
  = vw_user_activity us tbl logs.
Proof.
  unfold vw_user_activity. cbv zeta.
  assert (Hrows : us ≫= user_rows (end_inactive_sessions now tm tbl).1 logs
                  = swept_row now tm <$> (us ≫= user_rows tbl logs)).
  { induction us as [|u us IH]; [done|].
    cbn [mbind list_bind]. rewrite fmap_app, user_rows_sweep. by f_equal. }
  rewrite Hrows. rewrite <- list_fmap_compose.
  rewrite (list_fmap_ext (group_key ∘ swept_row now tm) group_key
             (us ≫= user_rows tbl logs)) by done.
  apply list_fmap_ext. intros _ k _.
  rewrite (filter_fmap_same _ _ (fun r => group_key r = k)) by done.
  apply aggregate_sweep.
Qed.

Lemma session_logs_user logs u s r : r ∈ session_logs logs u s -> r.1.1 = u.
Proof.
  unfold session_logs. destruct (filter _ logs) as [|l ls].
  - by intros ->%list_elem_of_singleton.
  - by intros (l' & -> & _)%list_elem_of_fmap.
Qed.

Lemma user_rows_user (tbl : table) logs u r : r ∈ user_rows tbl logs u -> r.1.1 = u.
Proof.
  unfold user_rows. destruct (filter _ tbl) as [|s ss].
  - by intros ->%list_elem_of_singleton.
  - intros (s' & Hr & _)%list_elem_of_bind. by eapply session_logs_user.
Qed.

Lemma session_logs_nonempty logs u s : session_logs logs u s <> [].
Proof. unfold session_logs. by destruct (filter _ logs). Qed.

Lemma user_rows_nonempty (tbl : table) logs u : user_rows tbl logs u <> [].
Proof.
  unfold user_rows. destruct (filter _ tbl) as [|s ss]; [done|].
  cbn [mbind list_bind]. intros [H _]%app_eq_nil.
  by apply session_logs_nonempty in H.
Qed.

Lemma filter_none {A} (P : A -> Prop) `{forall x, Decision (P x)} (l : list A) :
  (forall x, x ∈ l -> ~ P x) -> filter P l = [].
Proof.
  induction l as [|x l IH]; intros Hl; [done|].
  rewrite filter_cons_False by (apply Hl; by left).
  apply IH. intros y Hy. apply Hl. by right.
Qed.

Lemma filter_all {A} (P : A -> Prop) `{forall x, Decision (P x)} (l : list A) :
  (forall x, P x) -> filter P l = l.
Proof.
  intros HP. induction l as [|x l IH]; [done|].
  by rewrite filter_cons_True, IH.
Qed.

(** The groups of the join are the users. *)
Lemma groups_are_users (tbl : table) logs us :
  NoDup (Users.id <$> us) ->
  remove_dups (group_key <$> (us ≫= user_rows tbl logs)) = user_key <$> us /\
  forall u, u ∈ us ->
    filter (fun r => group_key r = user_key u) (us ≫= user_rows tbl logs)
    = user_rows tbl logs u.
Proof.
  assert (Hblock : forall u k,
    filter (fun r => group_key r = k) (user_rows tbl logs u)
    = if decide (user_key u = k) then user_rows tbl logs u else []).
  { intros u k.
    assert (Hall : forall l : list joined_row, (forall r, r ∈ l -> r.1.1 = u) ->
      filter (fun r => group_key r = k) l
      = if decide (user_key u = k) then l else []).
    { induction l as [|r l IH]; intros Hl; [by destruct (decide _)|].
      rewrite filter_cons, IH by (intros r' Hr'; apply Hl; by right).
      assert (Hr : group_key r = user_key u).
      { unfold group_key. rewrite (Hl r) by by left. done. }
      rewrite Hr. destruct (decide (user_key u = k)); done. }
    apply Hall. intros r. apply user_rows_user. }
  assert (Hkeys : forall u, exists n,
    group_key <$> user_rows tbl logs u = user_key u :: replicate n (user_key u)).
  { intros u. pose proof (user_rows_user tbl logs u) as Hu.
    pose proof (user_rows_nonempty tbl logs u) as Hne.
    destruct (user_rows tbl logs u) as [|r l]; [done|].
    exists (length l). rewrite fmap_cons. f_equal.
    - unfold group_key. rewrite (Hu r) by by left. done.
    - clear Hne. induction l as [|r' l IH]; [done|].
      rewrite fmap_cons. cbn [length replicate]. f_equal.
      + unfold group_key. rewrite (Hu r') by (right; by left). done.
      + apply IH. intros r0 [->|H]%elem_of_cons; apply Hu;
          [by left|right; by right]. }
  assert (Hdrop : forall k n (l : list (Z * string * Sql.nullable string * Sql.nullable string)),
    k ∉ l -> remove_dups (k :: replicate n k ++ l) = k :: remove_dups l).
  { intros k n l Hk. induction n as [|n IH].
    - simpl. by destruct (decide_rel elem_of k l).
    - cbn [replicate app]. cbn [remove_dups].
      destruct (decide_rel elem_of k (k :: replicate n k ++ l)) as [_|Hn];
        [exact IH|]. exfalso. apply Hn. by left. }
  induction us as [|u us IH]; [intros _; split; [done|by intros u ?%elem_of_nil]|].
  rewrite fmap_cons, NoDup_cons. intros [Hu Hnd].
  destruct (IH Hnd) as [IH1 IH2]. clear IH.
  assert (Hfresh : user_key u ∉ group_key <$> (us ≫= user_rows tbl logs)).
  { intros (r & Hk & (u' & Hr & Hu')%list_elem_of_bind)%list_elem_of_fmap.
    apply Hu. apply list_elem_of_fmap. exists u'. split; [|done].
    apply user_rows_user in Hr. unfold group_key in Hk. rewrite Hr in Hk.
    unfold user_key in Hk. congruence. }
  cbn [mbind list_bind]. split.
  - rewrite fmap_app. destruct (Hkeys u) as [n ->].
    rewrite <- app_comm_cons, Hdrop by done. rewrite IH1. done.
  - intros u0 [->|Hu0]%elem_of_cons.
    + rewrite filter_app, Hblock, decide_True by done.
      rewrite (filter_none (fun r => group_key r = user_key u));
        [by rewrite app_nil_r|].
      intros r Hr Hk. apply Hfresh.
      apply list_elem_of_fmap. by exists r.
    + rewrite filter_app, Hblock, IH2 by done.
      rewrite decide_False; [done|].
      intros Hk. apply Hu. apply list_elem_of_fmap. exists u0. split; [|done].
      unfold user_key in Hk. congruence.
Qed.

Lemma max_with_twice v acc : max_with v (max_with v acc) = max_with v acc.
Proof. destruct v, acc; simpl; f_equal; lia. Qed.

Lemma sql_max_app l1 l2 :
  sql_max (l1 ++ l2) = foldr max_with (sql_max l2) l1.
Proof. unfold sql_max. by rewrite foldr_app. Qed.

Lemma sql_max_repeated v n rest :
  foldr max_with rest (v :: replicate n v) = max_with v rest.
Proof.
  induction n as [|n IH]; [done|].
  cbn [replicate foldr] in *. by rewrite IH, max_with_twice.
Qed.

(** What the rows of one session add to the aggregates of its user. *)
Lemma session_logs_aggregates logs u s :
  let rows := session_logs logs u s in
  let mine := filter (fun l => id s = Logs.session_id l) logs in
  (exists n, omap (fun r : joined_row => id <$> r.1.2) rows
             = id s :: replicate n (id s)) /\
  length (omap (fun r : joined_row => Logs.id <$> r.2) rows) = length mine /\
  foldr Z.add 0
    ((fun r : joined_row =>
        if Sql.holds (Sql.eqb (r.2 ≫= Logs.is_error) (Some true)) then 1 else 0)
       <$> rows)
  = Z.of_nat (length (filter (fun l => Logs.is_error l = Some true) mine)) /\
  (exists n, (fun r : joined_row => r.1.2 ≫= last_activity) <$> rows
             = last_activity s :: replicate n (last_activity s)).
Proof.
  cbv zeta. unfold session_logs.
  assert (H1 : forall ls : list Logs.ussd_log,
    omap (fun r : joined_row => id <$> r.1.2) ((fun l => (u, Some s, Some l)) <$> ls)
    = replicate (length ls) (id s)).
  { induction ls as [|l ls IH]; [done|]. rewrite fmap_cons. cbn. by f_equal. }
  assert (H2 : forall ls : list Logs.ussd_log,
    length (omap (fun r : joined_row => Logs.id <$> r.2)
              ((fun l => (u, Some s, Some l)) <$> ls)) = length ls).
  { induction ls as [|l ls IH]; [done|]. rewrite fmap_cons. cbn. by f_equal. }
  assert (H3 : forall ls : list Logs.ussd_log,
    foldr Z.add 0
      ((fun r : joined_row =>
          if Sql.holds (Sql.eqb (r.2 ≫= Logs.is_error) (Some true)) then 1 else 0)
         <$> ((fun l => (u, Some s, Some l)) <$> ls))
    = Z.of_nat (length (filter (fun l => Logs.is_error l = Some true) ls))).
  { induction ls as [|l ls IH]; [done|].
    rewrite !fmap_cons, filter_cons. cbn [foldr]. rewrite IH.
    cbn [snd mbind option_bind].
    destruct (decide (Logs.is_error l = Some true)) as [He|He].
    - rewrite He. cbn [length]. simpl. lia.
    - destruct (Logs.is_error l) as [[]|]; [done|simpl; lia..]. }
  assert (H4 : forall ls : list Logs.ussd_log,
    (fun r : joined_row => r.1.2 ≫= last_activity)
      <$> ((fun l => (u, Some s, Some l)) <$> ls)
    = replicate (length ls) (last_activity s)).
  { induction ls as [|l ls IH]; [done|]. rewrite !fmap_cons. cbn. by f_equal. }
  destruct (filter (fun l => id s = Logs.session_id l) logs) as [|l ls].
  { split; [by exists 0%nat|]. split; [done|]. split; [done|by exists 0%nat]. }
  rewrite H1, H2, H3, H4. cbn [length replicate].
  split; [by eexists|]. split; [done|]. split; [done|by eexists].
Qed.

Lemma count_split {A} (E : A -> Prop) `{forall x, Decision (E x)}
    (f : A -> Z) (x : Z) (ids : list Z) (l : list A) :
  x ∉ ids ->
  length (filter E (filter (fun a => f a ∈ x :: ids) l))
  = (length (filter E (filter (fun a => x = f a) l)) +
     length (filter E (filter (fun a => f a ∈ ids) l)))%nat.
Proof.
  intros Hx. induction l as [|a l IH]; [done|].
  rewrite !(filter_cons _ a).
  destruct (decide (x = f a)) as [Heq|Hne].
  - rewrite decide_True by (rewrite <- Heq; by left).
    rewrite (decide_False (P := f a ∈ ids)) by (by rewrite <- Heq).
    rewrite !(filter_cons _ a). destruct (decide (E a)); cbn [length]; lia.
  - destruct (decide (f a ∈ ids)) as [Hin|Hnin].
    + rewrite decide_True by by right.
      rewrite !(filter_cons _ a). destruct (decide (E a)); cbn [length]; lia.
    + rewrite decide_False; [exact IH|].
      by intros [?|?]%elem_of_cons.
Qed.

(** The aggregates over the rows of the sessions [ss] of one user. *)
Lemma sessions_aggregates logs u (ss : table) :
  NoDup (id <$> ss) ->
  let rows := ss ≫= session_logs logs u in
  let my_logs := filter (fun l => Logs.session_id l ∈ id <$> ss) logs in
  length (remove_dups (omap (fun r : joined_row => id <$> r.1.2) rows)) = length ss /\
  length (omap (fun r : joined_row => Logs.id <$> r.2) rows) = length my_logs /\
  foldr Z.add 0
    ((fun r : joined_row =>
        if Sql.holds (Sql.eqb (r.2 ≫= Logs.is_error) (Some true)) then 1 else 0)
       <$> rows)
  = Z.of_nat (length (filter (fun l => Logs.is_error l = Some true) my_logs)) /\
  sql_max ((fun r : joined_row => r.1.2 ≫= last_activity) <$> rows)
  = sql_max (last_activity <$> ss).
Proof.
  intros Hnd. cbv zeta. split; [|split; [|split]].
  - rewrite <- (length_fmap id ss). apply Permutation_length.
    apply NoDup_Permutation; [apply NoDup_remove_dups|done|].
    intros x. rewrite elem_of_remove_dups. clear Hnd.
    induction ss as [|s ss IH].
    { split; by intros ?%elem_of_nil. }
    cbn [mbind list_bind]. rewrite omap_app, elem_of_app, fmap_cons, elem_of_cons, IH.
    destruct (session_logs_aggregates logs u s) as ((n & ->) & _).
    split.
    + intros [[->|Hx%elem_of_replicate]%elem_of_cons|?]; [by left|left; apply Hx|by right].
    + intros [->|?]; [left; by left|by right].
  - induction ss as [|s ss IH].
    { simpl. symmetry. apply length_zero_iff_nil, filter_none.
      by intros l _ ?%elem_of_nil. }
    rewrite fmap_cons in Hnd. apply NoDup_cons in Hnd as [Hs Hnd].
    cbn [mbind list_bind]. rewrite omap_app, length_app, IH by done.
    destruct (session_logs_aggregates logs u s) as (_ & -> & _).
    rewrite fmap_cons.
    pose proof (count_split (fun _ => True) Logs.session_id (id s) (id <$> ss)
                  logs Hs) as Hc.
    rewrite !(filter_all (fun _ => True)) in Hc by done. lia.
  - induction ss as [|s ss IH].
    { simpl. rewrite (filter_none (fun l => Logs.session_id l ∈ [])); [done|].
      by intros l _ ?%elem_of_nil. }
    rewrite fmap_cons in Hnd. apply NoDup_cons in Hnd as [Hs Hnd].
    cbn [mbind list_bind]. rewrite fmap_app, foldr_app.
    assert (Hadd : forall (l : list Z) a, foldr Z.add a l = foldr Z.add 0 l + a).
    { induction l as [|z l IHl]; intros a; simpl; [lia|]. rewrite IHl. lia. }
    rewrite Hadd, IH by done.
    destruct (session_logs_aggregates logs u s) as (_ & _ & -> & _).
    rewrite fmap_cons.
    rewrite (count_split (fun l => Logs.is_error l = Some true) Logs.session_id
               (id s) (id <$> ss) logs Hs). lia.
  - clear Hnd. induction ss as [|s ss IH]; [done|].
    cbn [mbind list_bind]. rewrite fmap_app, sql_max_app, IH.
    destruct (session_logs_aggregates logs u s) as (_ & _ & _ & (n & ->)).
    by rewrite sql_max_repeated.
Qed.

(** With distinct user identifiers, the view has the row of each user,
    aggregated from the rows of that user in the join. *)
Lemma vw_user_activity_rows us (tbl : table) logs :
  NoDup (Users.id <$> us) ->
  vw_user_activity us tbl logs
  = (fun u => aggregate (user_key u) (user_rows tbl logs u)) <$> us.
Proof.
  intros Hus.
  destruct (groups_are_users tbl logs us Hus) as [Hkeys Hgroups].
  unfold vw_user_activity. cbv zeta. rewrite Hkeys.
  rewrite <- list_fmap_compose. apply list_fmap_ext.
  intros i u Hu. simpl. rewrite Hgroups; [done|]. by eapply list_elem_of_lookup_2.
Qed.

(** On tables that satisfy the primary keys of [users] and of
    [ussd_sessions], [vw_user_activity] has one row for each user, also
    for a user with no session.  The row of a user counts the sessions
    of that user, the logs whose [session_id] is one of those sessions
    (the [user_id] of a log is not read) and, among these logs, those
    with [is_error = TRUE]; its [last_activity] is the latest one of the
    user's sessions.  The error count never exceeds the number of
    interactions. *)
Theorem vw_user_activity_one_row_per_user us (tbl : table) logs :
  NoDup (Users.id <$> us) -> NoDup (id <$> tbl) ->
  let view := vw_user_activity us tbl logs in
  Activity.id <$> view = Users.id <$> us /\
  forall i u, us !! i = Some u ->
    let mine := filter (fun s => Users.id u = user_id s) tbl in
    let my_logs := filter (fun l => Logs.session_id l ∈ id <$> mine) logs in
    exists row, view !! i = Some row /\
      Activity.id row = Users.id u /\
      Activity.phone_number row = Users.phone_number u /\
      Activity.total_sessions row = Z.of_nat (length mine) /\
      Activity.total_interactions row = Z.of_nat (length my_logs) /\
      Activity.error_count row
      = Z.of_nat (length (filter (fun l => Logs.is_error l = Some true) my_logs)) /\
      Activity.error_count row <= Activity.total_interactions row /\
      Activity.last_activity row = sql_max (last_activity <$> mine).
Proof.
  intros Hus Htbl view.
  assert (Hview : view
    = (fun u => aggregate (user_key u) (user_rows tbl logs u)) <$> us)
    by by apply vw_user_activity_rows.
  split.
  - rewrite Hview, <- list_fmap_compose. by apply list_fmap_ext.
  - intros i u Hu mine my_logs.
    exists (aggregate (user_key u) (user_rows tbl logs u)).
    split; [by rewrite Hview, list_lookup_fmap, Hu|].
    split; [done|]. split; [done|].
    assert (Hmine : NoDup (id <$> mine)).
    { apply (sublist_NoDup (id <$> mine) (id <$> tbl)); [exact Htbl|apply fmap_sublist; unfold mine; apply sublist_filter]. }
    destruct (sessions_aggregates logs u mine Hmine) as (H1 & H2 & H3 & H4).
    fold my_logs in H2, H3.
    assert (Hrows : user_rows tbl logs u
                    = match mine with
                      | [] => [(u, None, None)]
                      | _ => mine ≫= session_logs logs u
                      end).
    { unfold user_rows. fold mine. by destruct mine. }
    assert (Hagg :
      Activity.total_sessions (aggregate (user_key u) (user_rows tbl logs u))
      = Z.of_nat (length mine) /\
      Activity.total_interactions (aggregate (user_key u) (user_rows tbl logs u))
      = Z.of_nat (length my_logs) /\
      Activity.error_count (aggregate (user_key u) (user_rows tbl logs u))
      = Z.of_nat (length (filter (fun l => Logs.is_error l = Some true) my_logs)) /\
      Activity.last_activity (aggregate (user_key u) (user_rows tbl logs u))
      = sql_max (last_activity <$> mine)).
    { rewrite Hrows. unfold aggregate. cbn [Activity.total_sessions
        Activity.total_interactions Activity.error_count Activity.last_activity].
      destruct mine as [|s ss] eqn:Hm.
      - assert (my_logs = []) as ->.
        { unfold my_logs. apply filter_none. by intros l _ ?%elem_of_nil. }
        done.
      - rewrite H1, H2, H3, H4. done. }
    destruct Hagg as (-> & -> & -> & ->).
    repeat split.
    pose proof (length_filter (fun l => Logs.is_error l = Some true) my_logs). lia.
Qed.

Lemma vw_user_activity_one_row_per_user_witness :
  NoDup (Users.id <$> [Samples.test_user]) /\
  NoDup (id <$> Samples.two_sessions) /\
  Activity.id <$> vw_user_activity [Samples.test_user] Samples.two_sessions
                    [Samples.first_log]
  = Users.id <$> [Samples.test_user].
Proof.
  assert (H1 : NoDup (Users.id <$> [Samples.test_user])) by apply NoDup_singleton.
  assert (H2 : NoDup (id <$> Samples.two_sessions)).
  { apply NoDup_cons. split; [|apply NoDup_singleton].
    by intros [=]%list_elem_of_singleton. }
  split; [exact H1|]. split; [exact H2|].
  exact (proj1 (vw_user_activity_one_row_per_user [Samples.test_user]
                  Samples.two_sessions [Samples.first_log] H1 H2)).
Defined.

End ViewsOfSessions.

(** ** The constraints of the tables *)

Section Constraints.
Import Db Views Database.

Lemma NoDup_snoc {A} (l : list A) x : NoDup l -> x ∉ l -> NoDup (l ++ [x]).
Proof.
  intros Hl Hx. apply NoDup_app. split; [done|]. split; [|apply NoDup_singleton].
  by intros y Hy ->%list_elem_of_singleton.
Qed.

Lemma execute_consistent stmt db db' :
  consistent db -> execute stmt db = inr db' -> consistent db'.
Proof.
  intros [H1 H2 H3 H4 H5 H6 H7 H8]. destruct stmt as [u|r|l|now tm]; cbn [execute].
  - unfold insert_user. repeat case_bool_decide; try done. intros [= <-].
    split; cbn [users ussd_sessions ussd_logs]; try done.
    + rewrite fmap_app. by apply NoDup_snoc.
    + rewrite fmap_app. by apply NoDup_snoc.
    + intros s Hs. rewrite fmap_app, elem_of_app. left. by apply H5.
    + intros l Hl. rewrite fmap_app, elem_of_app. left. by apply H7.
  - unfold insert. repeat case_bool_decide; try done. intros [= <-].
    split; cbn [users ussd_sessions ussd_logs]; try done.
    + rewrite fmap_app. by apply NoDup_snoc.
    + rewrite fmap_app. by apply NoDup_snoc.
    + intros s [Hs| ->%list_elem_of_singleton]%elem_of_app; [by apply H5|done].
    + intros l Hl. rewrite fmap_app, elem_of_app. left. by apply H8.
  - unfold insert_log. repeat case_bool_decide; try done. intros [= <-].
    split; cbn [users ussd_sessions ussd_logs]; try done.
    + rewrite fmap_app. by apply NoDup_snoc.
    + intros l' [Hl| ->%list_elem_of_singleton]%elem_of_app; [by apply H7|done].
    + intros l' [Hl| ->%list_elem_of_singleton]%elem_of_app; [by apply H8|done].
  - intros [= <-].
    assert (Hid : id <$> (sweep_row now tm <$> ussd_sessions db)
                  = id <$> ussd_sessions db).
    { rewrite <- list_fmap_compose.
      apply list_fmap_ext. intros _ s _. apply sweep_row_id. }
    split; cbn [users ussd_sessions ussd_logs fst end_inactive_sessions];
      try done.
    + by rewrite Hid.
    + by apply (sweep_unique now tm).
    + intros s' (s & -> & Hs)%list_elem_of_fmap.
      rewrite sweep_row_user_id. by apply H5.
    + intros l Hl. rewrite Hid. by apply H8.
Qed.

Lemma run_consistent stmts db : consistent db -> consistent (run stmts db).
Proof.
  revert db. induction stmts as [|stmt stmts IH]; intros db Hdb; [done|].
  cbn [run foldl]. apply IH.
  destruct (execute stmt db) as [e|db'] eqn:He; [done|].
  by eapply execute_consistent.
Qed.

(** The primary keys, the unique columns and the foreign keys of
    [users], [ussd_sessions] and [ussd_logs] hold after any sequence of
    [INSERT]s and calls of [end_inactive_sessions], accepted or
    refused, on a database in which they held.  So the views are then
    exact: [vw_active_sessions] has as many rows as there are active
    sessions and [vw_user_activity] one row for each user. *)
Theorem constraints_hold_after_every_statement stmts db :
  consistent db ->
  let db' := run stmts db in
  consistent db' /\
  (forall now,
     Z.of_nat (length (vw_active_sessions now (users db') (ussd_sessions db')))
     = count_active (ussd_sessions db')) /\
  length (vw_user_activity (users db') (ussd_sessions db') (ussd_logs db'))
  = length (users db').
Proof.
  intros Hdb db'.
  assert (Hdb' : consistent db') by by apply run_consistent.
  split; [exact Hdb'|]. destruct Hdb' as [H1 _ _ _ H5 _ _ _]. split.
  - intros now. by apply vw_active_sessions_count.
  - by rewrite vw_user_activity_rows, length_fmap.
Qed.

Lemma constraints_hold_after_every_statement_witness :
  consistent empty /\
  session_id <$> ussd_sessions (run Samples.statements empty) = ["sess_123456789"%string] /\
  length (vw_user_activity (users (run Samples.statements empty))
            (ussd_sessions (run Samples.statements empty))
            (ussd_logs (run Samples.statements empty)))
  = length (users (run Samples.statements empty)).
Proof.
  assert (H : consistent empty).
  { split; try apply NoDup_nil_2; by intros ? ?%elem_of_nil. }
  split; [exact H|]. split; [reflexivity|].
  exact (proj2 (proj2 (constraints_hold_after_every_statement
                         Samples.statements empty H))).
Defined.

End Constraints.

(** ** The services page *)

Section Services.
Import Js Admin Admin.ServicesPage.
Local Open Scope string_scope.

Lemma set_set k v v' (o : obj) : set k v' (set k v o) = set k v' o.
Proof.
  induction o as [|[k0 v0] o IH]; simpl.
  - by rewrite String.eqb_refl.
  - destruct (String.eqb k k0) eqn:Hk; simpl; rewrite Hk; [done|by rewrite IH].
Qed.

Lemma filter_all_elem {A} (P : A -> Prop) `{forall x, Decision (P x)} (l : list A) :
  (forall x, x ∈ l -> P x) -> filter P l = l.
Proof.
  induction l as [|x l IH]; intros Hl; [done|].
  rewrite filter_cons_True by (apply Hl; by left).
  f_equal. apply IH. intros y Hy. apply Hl. by right.
Qed.

(** [handleDeleteClick], once confirmed, removes every service whose
    [id] is the given one and keeps the others in their order; it
    announces the deletion also when no service has that [id], and it
    leaves the form and the dialog alone.  Declined, it changes
    nothing. *)
Theorem handleDeleteClick_removes_the_services_with_that_id confirmed id (st : state) :
  let st' := handleDeleteClick confirmed id st in
  if confirmed then
    (forall service, service ∈ services st' <->
       service ∈ services st /\ strict_eq (get "id" service) id = false) /\
    services st' `sublist_of` services st /\
    ((forall service, service ∈ services st ->
        strict_eq (get "id" service) id = false) ->
     services st' = services st) /\
    snackbar st' = {| open := true; message := "Service supprimé avec succès";
                      severity := "success" |} /\
    formData st' = formData st /\ openDialog st' = openDialog st /\
    dialogMode st' = dialogMode st
  else st' = st.
Proof.
  cbv zeta. unfold handleDeleteClick. destruct confirmed; [|done].
  cbn [services notify]. split; [|split; [|split]].
  - intros service. rewrite list_elem_of_filter.
    destruct (strict_eq (get "id" service) id); simpl.
    + split; [by intros [[] _]|by intros [_ [=]]].
    + split; [by intros [_ ?]|by intros [? _]].
  - apply sublist_filter.
  - intros Hall. apply filter_all_elem. intros service Hs.
    by rewrite Hall.
  - done.
Qed.

(** [handleToggleActive] writes [is_active] in the services with the
    given [id] and nothing else: their other properties and all other
    services stay as they are.  Of two toggles in a row for one [id] the
    last decides, and the notification names the new state. *)
Theorem handleToggleActive_sets_the_flag_only id isActive (st : state) :
  let st' := handleToggleActive id isActive st in
  length (services st') = length (services st) /\
  (forall i service, services st !! i = Some service ->
     exists service', services st' !! i = Some service' /\
       if strict_eq (get "id" service) id
       then get "is_active" service' = Some (JBool isActive) /\
            forall k, String.eqb k "is_active" = false ->
              get k service' = get k service
       else service' = service) /\
  (forall again,
     services (handleToggleActive id again st')
     = services (handleToggleActive id again st)) /\
  message (snackbar st')
  = (if isActive then "Service activé avec succès"
     else "Service désactivé avec succès") /\
  severity (snackbar st') = "success" /\
  formData st' = formData st /\ openDialog st' = openDialog st.
Proof.
  cbv zeta. unfold handleToggleActive. cbn [services notify snackbar message
    severity formData openDialog].
  split; [apply length_fmap|]. split; [|split].
  - intros i service Hi. rewrite list_lookup_fmap, Hi. simpl.
    eexists. split; [done|].
    destruct (strict_eq (get "id" service) id); [|done].
    split; [apply get_set_eq|]. intros k Hk. by apply get_set_ne.
  - intros again. rewrite <- list_fmap_compose. apply list_fmap_ext.
    intros i service _. simpl.
    destruct (strict_eq (get "id" service) id) eqn:Hid.
    + rewrite get_set_ne by reflexivity. rewrite Hid. apply set_set.
    + by rewrite Hid.
  - by destruct isActive.
Qed.

(** The identifier the add dialog gives to a new service. *)
Lemma added_service_id clock (st : state) menu :
  dialogMode st = add ->
  JSON_parse (menu_structure (formData st)) = Some menu ->
  exists service,
    services (handleSubmit clock st) = app (services st) [service] /\
    get "id" service = Some (JNum (Z.of_nat (length (services st)) + 1) 0).
Proof.
  intros Hmode Hparse. unfold handleSubmit. rewrite Hparse, Hmode.
  eexists. split; [reflexivity|]. reflexivity.
Qed.

Lemma numbered_lookup (svcs : list obj) i service :
  numbered svcs -> svcs !! i = Some service ->
  get "id" service = Some (JNum (Z.of_nat i + 1) 0).
Proof.
  unfold numbered. intros Hn Hi.
  assert (H : (get "id" <$> svcs) !! i = Some (get "id" service))
    by by rewrite list_lookup_fmap, Hi.
  rewrite Hn, list_lookup_fmap in H.
  rewrite lookup_seq_lt in H by by eapply lookup_lt_Some.
  simpl in H. congruence.
Qed.

Lemma numbered_distinct (svcs : list obj) i j s s' :
  numbered svcs -> svcs !! i = Some s -> svcs !! j = Some s' ->
  strict_eq (get "id" s) (get "id" s') = true -> i = j.
Proof.
  intros Hn Hi Hj.
  rewrite (numbered_lookup svcs i s Hn Hi), (numbered_lookup svcs j s' Hn Hj).
  simpl. unfold num_eqb. simpl. rewrite Z.mul_1_r. intros H%Z.eqb_eq. lia.
Qed.

(** A service added through the dialog gets [services.length + 1] as
    its [id].  While the list holds the services numbered 1, 2, ... in
    this order, as it does when all of them were added to an empty list,
    an accepted submission in add mode keeps it so, and no two services
    have the same [id]. *)
Theorem added_services_are_numbered clock (st : state) menu :
  numbered (services st) -> dialogMode st = add ->
  JSON_parse (menu_structure (formData st)) = Some menu ->
  let st' := handleSubmit clock st in
  numbered (services st') /\
  length (services st') = S (length (services st)) /\
  forall i j s s', services st' !! i = Some s -> services st' !! j = Some s' ->
    strict_eq (get "id" s) (get "id" s') = true -> i = j.
Proof.
  intros Hn Hmode Hparse st'.
  destruct (added_service_id clock st menu Hmode Hparse) as (service & Hst' & Hid).
  assert (Hn' : numbered (services st')).
  { unfold st', numbered. rewrite Hst', fmap_app, length_app. simpl.
    rewrite Nat.add_1_r, seq_S, fmap_app. simpl. rewrite Hid. f_equal. exact Hn. }
  split; [exact Hn'|]. split.
  - unfold st'. rewrite Hst', length_app. simpl. lia.
  - intros i j s s'. by apply numbered_distinct.
Qed.

Lemma added_services_are_numbered_witness :
  numbered (services Samples.add_dialog) /\
  dialogMode Samples.add_dialog = add /\
  JSON_parse (menu_structure (formData Samples.add_dialog))
  = Some Samples.duplicate_codes_menu /\
  numbered (services (handleSubmit Samples.noon Samples.add_dialog)).
Proof.
  assert (H : JSON_parse (menu_structure (formData Samples.add_dialog))
              = Some Samples.duplicate_codes_menu) by (vm_compute; reflexivity).
  split; [reflexivity|]. split; [reflexivity|]. split; [exact H|].
  exact (proj1 (added_services_are_numbered Samples.noon Samples.add_dialog
                  Samples.duplicate_codes_menu eq_refl eq_refl H)).
Defined.

(** Deleting the service numbered [k] from a numbered list takes the
    one service at place [k - 1] out. *)
Lemma delete_numbered (svcs : list obj) (k : nat) :
  numbered svcs -> (k < length svcs)%nat ->
  filter (fun service =>
            negb (strict_eq (get "id" service) (Some (JNum (Z.of_nat k + 1) 0))))
         svcs
  = app (take k svcs) (drop (S k) svcs).
Proof.
  intros Hn Hk.
  destruct (lookup_lt_is_Some_2 svcs k Hk) as [x Hx].
  assert (Hid : forall i s, svcs !! i = Some s ->
            strict_eq (get "id" s) (Some (JNum (Z.of_nat k + 1) 0))
            = bool_decide (i = k)).
  { intros i s Hi. rewrite (numbered_lookup svcs i s Hn Hi).
    simpl. unfold num_eqb. simpl. rewrite Z.mul_1_r.
    case_bool_decide as Hik.
    - subst i. apply Z.eqb_refl.
    - apply Z.eqb_neq. lia. }
  rewrite <- (take_drop_middle svcs k x Hx) at 1.
  rewrite filter_app, filter_cons.
  rewrite decide_False.
  2:{ rewrite (Hid k x Hx), bool_decide_eq_true_2 by done. simpl. by intros []. }
  f_equal.
  - apply filter_all_elem. intros s [i Hi]%list_elem_of_lookup.
    apply lookup_take_Some in Hi as [Hi Hlt].
    rewrite (Hid i s Hi), bool_decide_eq_false_2 by lia. done.
  - apply filter_all_elem. intros s [i Hi]%list_elem_of_lookup.
    rewrite lookup_drop in Hi.
    rewrite (Hid _ s Hi), bool_decide_eq_false_2 by lia. done.
Qed.

(** The [id] of an added service is computed from the length of the
    list, so it is not fresh after a deletion: when a service other than
    the last is deleted from the services numbered 1 to n, the next
    service added gets the [id] n, which the last service of the list
    still has. *)
Theorem add_after_delete_reuses_an_identifier clock (st : state) menu (k : nat) :
  numbered (services st) -> (S k < length (services st))%nat ->
  dialogMode st = add ->
  JSON_parse (menu_structure (formData st)) = Some menu ->
  let deleted := handleDeleteClick true (Some (JNum (Z.of_nat k + 1) 0)) st in
  let st' := handleSubmit clock deleted in
  let n := length (services st) in
  length (services st') = n /\
  exists kept added,
    services st' !! (n - 2)%nat = Some kept /\
    services st' !! (n - 1)%nat = Some added /\
    services st !! (n - 1)%nat = Some kept /\
    get "id" kept = Some (JNum (Z.of_nat n) 0) /\
    get "id" added = Some (JNum (Z.of_nat n) 0).
Proof.
  intros Hn Hk Hmode Hparse deleted st' n.
  assert (Hdel : services deleted
                 = app (take k (services st)) (drop (S k) (services st))).
  { unfold deleted, handleDeleteClick. cbn [services notify].
    apply delete_numbered; [done|lia]. }
  assert (Hlen : length (services deleted) = (n - 1)%nat).
  { rewrite Hdel, length_app, length_take, length_drop. unfold n. lia. }
  destruct (added_service_id clock deleted menu) as (added & Hst' & Hid);
    [done|done|].
  fold st' in Hst'. rewrite Hlen in Hid.
  destruct (lookup_lt_is_Some_2 (services st) (n - 1)) as [kept Hkept];
    [unfold n; lia|].
  split.
  { rewrite Hst', length_app, Hlen. simpl. unfold n in *. lia. }
  exists kept, added. split; [|split; [|split; [done|split]]].
  - rewrite Hst', lookup_app_l by (rewrite Hlen; unfold n; lia).
    rewrite Hdel, lookup_app_r by (rewrite length_take; unfold n; lia).
    rewrite length_take, lookup_drop. rewrite <- Hkept. f_equal. unfold n. lia.
  - rewrite Hst', lookup_app_r by (rewrite Hlen; lia).
    rewrite Hlen, Nat.sub_diag. done.
  - rewrite (numbered_lookup _ _ _ Hn Hkept). do 2 f_equal. unfold n. lia.
  - rewrite Hid. do 2 f_equal. unfold n. lia.
Qed.

Lemma add_after_delete_reuses_an_identifier_witness :
  let st := handleSubmit Samples.noon (handleSubmit Samples.noon Samples.add_dialog) in
  numbered (services st) /\ (1 < length (services st))%nat /\
  dialogMode st = add /\
  JSON_parse (menu_structure (formData st)) = Some Samples.duplicate_codes_menu /\
  length (services (handleSubmit Samples.noon
                      (handleDeleteClick true (Some (JNum (Z.of_nat 0 + 1) 0)) st)))
  = length (services st).
Proof.
  intros st.
  assert (H1 : numbered (services st)) by (vm_compute; reflexivity).
  assert (H2 : (1 < length (services st))%nat) by (vm_compute; lia).
  assert (H3 : dialogMode st = add) by (vm_compute; reflexivity).
  assert (H4 : JSON_parse (menu_structure (formData st))
               = Some Samples.duplicate_codes_menu) by (vm_compute; reflexivity).
  split; [exact H1|]. split; [exact H2|]. split; [exact H3|]. split; [exact H4|].
  exact (proj1 (add_after_delete_reuses_an_identifier Samples.noon st
                  Samples.duplicate_codes_menu 0 H1 H2 H3 H4)).
Defined.

(** An accepted submission in edit mode writes, on each service with
    the [id] of the selected one, the five fields of the form (the
    parsed menu for [menu_structure]) and [updated_at]; every other
    property of the service, its [id] and [created_at] among them, is
    kept. *)
Theorem handleSubmit_edit_keeps_the_identity clock (st : state) menu selected :
  dialogMode st = edit -> selectedService st = Some selected ->
  JSON_parse (menu_structure (formData st)) = Some menu ->
  forall i service, services st !! i = Some service ->
    strict_eq (get "id" service) (get "id" selected) = true ->
    exists service',
      services (handleSubmit clock st) !! i = Some service' /\
      get "id" service' = get "id" service /\
      get "created_at" service' = get "created_at" service /\
      get "code" service' = Some (JStr (code (formData st))) /\
      get "name" service' = Some (JStr (name (formData st))) /\
      get "description" service' = Some (JStr (description (formData st))) /\
      get "menu_structure" service' = Some menu /\
      get "is_active" service' = Some (JBool (is_active (formData st))) /\
      get "updated_at" service' = Some (JStr (clock i)) /\
      forall k,
        k ∉ ["code"; "name"; "description"; "menu_structure"; "is_active";
             "updated_at"] ->
        get k service' = get k service.
Proof.
  intros Hmode Hsel Hparse i service Hi Hid.
  unfold handleSubmit. rewrite Hparse, Hmode, Hsel.
  assert (Hne : services st <> []) by (intros H; by rewrite H in Hi).
  destruct (services st) as [|s0 svcs] eqn:Hsv; [done|].
  cbn [services notify]. rewrite list_lookup_imap, Hi. cbn [fmap option_fmap option_map mbind option_bind].
  rewrite Hid. eexists. split; [reflexivity|].
  unfold spread, form_obj. cbn [set fold_left fst snd String.eqb Ascii.eqb Bool.eqb].
  assert (Hk : forall k,
    k ∉ ["code"; "name"; "description"; "menu_structure"; "is_active"; "updated_at"] ->
    get k (set "updated_at" (JStr (clock i))
             (set "is_active" (JBool (is_active (formData st)))
                (set "menu_structure" menu
                   (set "description" (JStr (description (formData st)))
                      (set "name" (JStr (name (formData st)))
                         (set "code" (JStr (code (formData st))) service))))))
    = get k service).
  { intros k Hk. rewrite !not_elem_of_cons in Hk.
    destruct Hk as (? & ? & ? & ? & ? & ? & _).
    rewrite !get_set_ne by by apply String.eqb_neq. done. }
  repeat split.
  - rewrite !get_set_ne by reflexivity. done.
  - rewrite !get_set_ne by reflexivity. done.
  - rewrite !get_set_ne by reflexivity. apply get_set_eq.
  - rewrite !get_set_ne by reflexivity. apply get_set_eq.
  - rewrite !get_set_ne by reflexivity. apply get_set_eq.
  - rewrite !get_set_ne by reflexivity. apply get_set_eq.
  - rewrite !get_set_ne by reflexivity. apply get_set_eq.
  - apply get_set_eq.
  - exact Hk.
Qed.

Lemma handleSubmit_edit_keeps_the_identity_witness :
  dialogMode Samples.edit_dialog = edit /\
  selectedService Samples.edit_dialog = Some Samples.first_service /\
  JSON_parse (menu_structure (formData Samples.edit_dialog))
  = Some Samples.duplicate_codes_menu /\
  exists service',
    services (handleSubmit Samples.noon Samples.edit_dialog) !! 0%nat = Some service' /\
    get "id" service' = Some (JNum 1 0) /\
    get "name" service' = Some (JStr "Test 2").
Proof.
  assert (H : JSON_parse (menu_structure (formData Samples.edit_dialog))
              = Some Samples.duplicate_codes_menu) by (vm_compute; reflexivity).
  split; [reflexivity|]. split; [reflexivity|]. split; [exact H|].
  destruct (handleSubmit_edit_keeps_the_identity Samples.noon Samples.edit_dialog
              Samples.duplicate_codes_menu Samples.first_service
              eq_refl eq_refl H 0%nat Samples.first_service eq_refl eq_refl)
    as (service' & H1 & H2 & _ & _ & H3 & _).
  exists service'. split; [exact H1|]. split; [|exact H3].
  rewrite H2. reflexivity.
Defined.

End Services.

(** ** The sessions page *)

Section SessionsList.
Import Js Admin Admin.SessionsPage.
Local Open Scope string_scope.

(** The close button of a row is rendered for a row whose [is_active]
    is truthy only.  When the sessions of the page have distinct
    [id]s, a confirmed click on it ends that one session and leaves the
    list as it is everywhere else; in particular a session that is not
    shown as active keeps its [ended_at].  The button of the dialog,
    opened on that row by [handleViewSession], does the same to the
    sessions and closes the dialog. *)
Theorem end_button_ends_the_clicked_session_only clock (st : state) i row :
  (forall j j' s s', sessions st !! j = Some s -> sessions st !! j' = Some s' ->
     (strict_eq (get "id" s) (get "id" s') = true <-> j = j')) ->
  sessions st !! i = Some row ->
  match row_end_click row true clock st with
  | None => truthy (get "is_active" row) = false
  | Some st' =>
      truthy (get "is_active" row) = true /\
      sessions st' = <[i := ended (clock i) row]> (sessions st) /\
      (forall j s, sessions st !! j = Some s ->
         truthy (get "is_active" s) = false -> sessions st' !! j = Some s) /\
      (exists closed,
         dialog_end_click true clock (handleViewSession row st) = Some closed /\
         sessions closed = sessions st' /\ openDialog closed = false)
  end.
Proof.
  intros Hids Hi. unfold row_end_click.
  destruct (truthy (get "is_active" row)) eqn:Hrow; [|done].
  split; [done|].
  assert (Hst' : sessions (handleEndSession true clock (get "id" row) st)
                 = <[i := ended (clock i) row]> (sessions st)).
  { unfold handleEndSession. cbn [sessions]. apply list_eq. intros j.
    rewrite list_lookup_imap.
    destruct (decide (j = i)) as [->|Hne].
    - rewrite list_lookup_insert_eq by by eapply lookup_lt_Some.
      rewrite Hi. simpl.
      by rewrite (proj2 (Hids i i row row Hi Hi) eq_refl).
    - rewrite list_lookup_insert_ne by done.
      destruct (sessions st !! j) as [s|] eqn:Hj; [|done]. simpl.
      destruct (strict_eq (get "id" s) (get "id" row)) eqn:Heq; [|done].
      by apply (Hids j i s row Hj Hi) in Heq. }
  split; [exact Hst'|]. split.
  - intros j s Hj Hs. rewrite Hst'.
    rewrite list_lookup_insert_ne; [done|]. intros ->. congruence.
  - unfold dialog_end_click, handleViewSession.
    cbn [selectedSession openDialog]. rewrite Hrow. cbn [andb].
    eexists. split; [reflexivity|]. split; reflexivity.
Qed.

Lemma end_button_ends_the_clicked_session_only_witness :
  (forall j j' s s',
     sessions Samples.demo_sessions !! j = Some s ->
     sessions Samples.demo_sessions !! j' = Some s' ->
     (strict_eq (get "id" s) (get "id" s') = true <-> j = j')) /\
  match row_end_click
          [ ("id", JNum 1 0); ("session_id", JStr "sess_123456789");
            ("user_id", JNum 1 0); ("phone_number", JStr "+123456789");
            ("current_menu", JStr "main");
            ("started_at", JStr "2023-01-01T10:00:00Z");
            ("last_activity", JStr "2023-01-01T10:05:00Z");
            ("is_active", JBool true) ]
          true Samples.noon Samples.demo_sessions with
  | None => False
  | Some st' =>
      (get "ended_at" <$> sessions st')
      = [Some (JStr "2023-01-01T12:00:00.000Z"); Some (JStr "2023-01-01T09:35:00Z")]
  end.
Proof.
  assert (H : forall j j' s s',
     sessions Samples.demo_sessions !! j = Some s ->
     sessions Samples.demo_sessions !! j' = Some s' ->
     (strict_eq (get "id" s) (get "id" s') = true <-> j = j')).
  { intros [|[|j]] [|[|j']] s s' Hj Hj'; try done;
      injection Hj as <-; injection Hj' as <-; by split. }
  split; [exact H|].
  pose proof (end_button_ends_the_clicked_session_only Samples.noon
                Samples.demo_sessions 0 _ H eq_refl) as Hend.
  cbv beta iota in Hend.
  destruct (row_end_click _ true Samples.noon Samples.demo_sessions) as [st'|];
    [|done].
  destruct Hend as (_ & -> & _). reflexivity.
Defined.

Lemma set_same k v (o : obj) : get k o = Some v -> set k v o = o.
Proof.
  induction o as [|[k' v'] o IH]; [done|]. cbn [get set].
  destruct (String.eqb k k') eqn:Hk; [by intros [= ->]|].
  intros H. by rewrite IH.
Qed.

Lemma ended_again iso iso' (session : obj) :
  ended iso' (ended iso session) = ended iso' session.
Proof.
  unfold ended.
  rewrite (set_same "is_active" (JBool false)
             (set "ended_at" (JStr iso) (set "is_active" (JBool false) session))).
  - apply set_set.
  - rewrite get_set_ne by reflexivity. apply get_set_eq.
Qed.

Lemma ended_id iso (session : obj) : get "id" (ended iso session) = get "id" session.
Proof. unfold ended. by rewrite !get_set_ne by reflexivity. Qed.

(** [handleEndSession] does not look at the state of a session: called
    for a session that is already ended, it ends it again and replaces
    its [ended_at].  Two confirmed calls for one [id] leave the sessions
    as the second call alone would, with the end time of the second;
    the first end time is lost. *)
Theorem handleEndSession_again_replaces_the_end_time clock clock' id (st : state) :
  sessions (handleEndSession true clock' id (handleEndSession true clock id st))
  = sessions (handleEndSession true clock' id st) /\
  forall i session, sessions st !! i = Some session ->
    strict_eq (get "id" session) id = true ->
    exists session',
      sessions (handleEndSession true clock' id (handleEndSession true clock id st)) !! i
      = Some session' /\
      get "ended_at" session' = Some (JStr (clock' i)) /\
      get "is_active" session' = Some (JBool false).
Proof.
  assert (Heq :
    sessions (handleEndSession true clock' id (handleEndSession true clock id st))
    = sessions (handleEndSession true clock' id st)).
  { unfold handleEndSession. cbn [sessions]. apply list_eq. intros i.
    rewrite !list_lookup_imap. destruct (sessions st !! i) as [session|]; [|done].
    cbn [fmap option_fmap option_map]. f_equal.
    destruct (strict_eq (get "id" session) id) eqn:Hid.
    - by rewrite ended_id, Hid, ended_again.
    - by rewrite Hid. }
  split; [exact Heq|].
  intros i session Hi Hid. rewrite Heq.
  rewrite (handleEndSession_lookup true clock' id st i session Hi).
  cbn [andb]. rewrite Hid. eexists. split; [done|]. apply and_comm, ended_flags.
Qed.

End SessionsList.

(** ** [JSON.stringify] and [JSON.parse] *)

Section JsonText.
Import Js.

(** *** White space *)

Lemma skip_ws_app (ws s : list ascii) :
  forallb is_ws ws = true -> skip_ws (app ws s) = skip_ws s.
Proof.
  induction ws as [|c ws IH]; [done|]. simpl.
  intros [Hc Hws]%andb_prop. rewrite Hc. by apply IH.
Qed.

(** *** Strings *)

Lemma parse_chars_quote_char c rest acc :
  parse_chars (app (quote_char c) rest) acc = parse_chars rest (c :: acc).
Proof.
  destruct c as [[] [] [] [] [] [] [] []]; reflexivity.
Qed.

Lemma parse_chars_quoted cs r acc :
  parse_chars (app (flat_map quote_char cs) ("034"%char :: r)) acc
  = Some (string_of_list_ascii (app (rev acc) cs), r).
Proof.
  revert acc. induction cs as [|c cs IH]; intros acc.
  - simpl. by rewrite app_nil_r.
  - cbn [flat_map]. rewrite <- app_assoc, parse_chars_quote_char, IH.
    simpl. by rewrite <- app_assoc.
Qed.

Lemma parse_quote s r :
  parse_chars (app (flat_map quote_char (list_ascii_of_string s)) ("034"%char :: r)) []
  = Some (s, r).
Proof.
  rewrite parse_chars_quoted. simpl.
  by rewrite string_of_list_ascii_of_string.
Qed.

(** *** Numbers *)

Lemma digit_val_byte d : 0 <= d < 10 -> digit_val (byte (48 + d)) = Some d.
Proof.
  intros Hd.
  assert (H : d = 0 \/ d = 1 \/ d = 2 \/ d = 3 \/ d = 4 \/ d = 5 \/ d = 6 \/
              d = 7 \/ d = 8 \/ d = 9) by lia.
  destruct H as [->|[->|[->|[->|[->|[->|[->|[->|[->| ->]]]]]]]]]; reflexivity.
Qed.

Lemma decimal_from_app fuel n tail r :
  app (decimal_from fuel n tail) r = decimal_from fuel n (app tail r).
Proof.
  revert n tail. induction fuel as [|fuel IH]; intros n tail; [done|].
  simpl. destruct (n <? 10); [done|]. by rewrite IH.
Qed.

(** The numeral of [n]: its length [j], its first digit, and what
    [digits] reads from it. *)
Lemma decimal_from_spec fuel n tail :
  0 <= n < 2 ^ Z.of_nat (S fuel) ->
  exists j d rest,
    1 <= j /\ (0 < n -> 10 ^ (j - 1) <= n) /\
    0 <= d < 10 /\ (0 < n -> 0 < d) /\ (n = 0 -> d = 0 /\ rest = tail) /\
    decimal_from (S fuel) n tail = byte (48 + d) :: rest /\
    Z.of_nat (length (decimal_from (S fuel) n tail)) = j + Z.of_nat (length tail) /\
    forall acc len,
      digits acc len (decimal_from (S fuel) n tail)
      = digits (acc * 10 ^ j + n) (len + j) tail.
Proof.
  assert (Hsmall : forall fuel n tail, 0 <= n < 10 ->
    exists j d rest,
      1 <= j /\ (0 < n -> 10 ^ (j - 1) <= n) /\
      0 <= d < 10 /\ (0 < n -> 0 < d) /\ (n = 0 -> d = 0 /\ rest = tail) /\
      decimal_from (S fuel) n tail = byte (48 + d) :: rest /\
      Z.of_nat (length (decimal_from (S fuel) n tail)) = j + Z.of_nat (length tail) /\
      forall acc len,
        digits acc len (decimal_from (S fuel) n tail)
        = digits (acc * 10 ^ j + n) (len + j) tail).
  { clear. intros fuel n tail Hlt. cbn [decimal_from]. cbv zeta.
    rewrite (proj2 (Z.ltb_lt n 10)) by lia.
    exists 1, n, tail. rewrite Z.mod_small by lia.
    split; [lia|]. split; [simpl; lia|]. split; [lia|]. split; [lia|].
    split; [done|]. split; [done|]. split; [cbn [length]; lia|].
    intros acc len. cbn [digits]. rewrite digit_val_byte by lia.
    by rewrite Z.pow_1_r. }
  revert n tail. induction fuel as [|fuel IH]; intros n tail Hn.
  { apply Hsmall. simpl in Hn. lia. }
  destruct (Z.ltb_spec n 10) as [Hlt|Hge]; [apply Hsmall; lia|].
  change (decimal_from (S (S fuel)) n tail)
    with (let acc' := byte (48 + n mod 10) :: tail in
          if n <? 10 then acc' else decimal_from (S fuel) (n / 10) acc').
  cbv zeta. rewrite (proj2 (Z.ltb_ge n 10)) by lia.
  destruct (IH (n / 10) (byte (48 + n mod 10) :: tail))
    as (j & d & rest & Hj & Hpow & Hd & Hpos & _ & Heq & Hlen & Hdig).
  { split; [apply Z.div_pos; lia|].
    apply Z.div_lt_upper_bound; [lia|].
    rewrite (Nat2Z.inj_succ (S fuel)), Z.pow_succ_r in Hn by lia.
    assert (0 < 2 ^ Z.of_nat (S fuel)) by (apply Z.pow_pos_nonneg; lia). lia. }
  assert (Hq : 0 < n / 10) by (apply Z.div_str_pos; lia).
  exists (j + 1), d, rest.
  split; [lia|]. split.
  { intros _. replace (j + 1 - 1) with (Z.succ (j - 1)) by lia.
    rewrite Z.pow_succ_r by lia. specialize (Hpow Hq).
    pose proof (Z.mul_div_le n 10). lia. }
  split; [lia|]. split; [intros _; by apply Hpos|]. split; [lia|].
  split; [exact Heq|]. split; [rewrite Hlen; cbn [length]; lia|].
  intros acc len. rewrite Hdig. cbn [digits].
  rewrite digit_val_byte by (apply Z.mod_pos_bound; lia).
  assert (Hacc : (acc * 10 ^ j + n / 10) * 10 + n mod 10
                 = acc * 10 ^ (j + 1) + n).
  { rewrite Z.pow_add_r, Z.pow_1_r by lia.
    pose proof (Z.div_mod n 10 ltac:(lia)). lia. }
  rewrite Hacc. f_equal. lia.
Qed.

Lemma decimal_spec n r :
  0 <= n ->
  exists j d rest,
    1 <= j /\ (0 < n -> 10 ^ (j - 1) <= n) /\
    0 <= d < 10 /\ (0 < n -> 0 < d) /\ (n = 0 -> d = 0 /\ rest = []) /\
    decimal n = byte (48 + d) :: rest /\
    Z.of_nat (length (decimal n)) = j /\
    forall acc len,
      digits acc len (app (decimal n) r) = digits (acc * 10 ^ j + n) (len + j) r.
Proof.
  intros Hn. unfold decimal.
  assert (Hfuel : 0 <= n < 2 ^ Z.of_nat (S (Z.to_nat (Z.log2 n)))).
  { split; [done|]. rewrite Nat2Z.inj_succ, Z2Nat.id by apply Z.log2_nonneg.
    destruct (Z.eq_dec n 0) as [->|]; [done|].
    apply Z.log2_spec. lia. }
  destruct (decimal_from_spec _ n [] Hfuel)
    as (j & d & rest & Hj & Hpow & Hd & Hpos & Hz & Heq & Hlen & _).
  exists j, d, rest.
  split; [lia|]. split; [done|]. split; [lia|]. split; [done|].
  split; [done|]. split; [done|].
  split; [cbn [length Z.of_nat] in Hlen; lia|].
  intros acc len. rewrite decimal_from_app. cbn [app].
  destruct (decimal_from_spec _ n r Hfuel)
    as (j' & _ & _ & _ & _ & _ & _ & _ & _ & Hlen' & Hdig).
  rewrite Hdig. rewrite <- (app_nil_l r), <- decimal_from_app, length_app in Hlen'.
  cbn [length Z.of_nat app] in Hlen, Hlen'.
  assert (j' = j) as -> by lia. done.
Qed.

Lemma digit_val_inv c d :
  digit_val c = Some d -> c = byte (48 + d) /\ 0 <= d < 10.
Proof.
  destruct c as [[] [] [] [] [] [] [] []]; intros H; vm_compute in H;
    try discriminate H; injection H as <-; (split; [reflexivity|lia]).
Qed.

Lemma digits_delimited acc len r :
  delimited r = true -> digits acc len r = (acc, len, r).
Proof.
  destruct r as [|c r]; [done|].
  destruct c as [[] [] [] [] [] [] [] []]; try discriminate; reflexivity.
Qed.

(** A numeral of digits alone, with or without a sign in front, before
    a delimiter. *)
Lemma parse_number_digits (neg : bool) s1 i ilen s2 :
  digits 0 0 s1 = (i, ilen, s2) -> ilen <> 0 ->
  (forall s', s1 = "0"%char :: s' -> ilen = 1) ->
  delimited s2 = true ->
  parse_number (app (if neg then ["-"%char] else []) s1)
  = Some (JNum ((if neg then -1 else 1) * i) 0, s2).
Proof.
  intros Hdig Hlen Hzero Hdel.
  destruct s1 as [|c s1']; [simpl in Hdig; congruence|].
  pose proof Hdig as Hd. cbn [digits] in Hd.
  destruct (digit_val c) as [d|] eqn:Hc; [|congruence]. clear Hd.
  apply digit_val_inv in Hc as [-> Hd].
  assert (Hlz : (match byte (48 + d) :: s1' with
                 | "0"%char :: _ => 1 <? ilen
                 | _ => false
                 end) = false).
  { assert (H : d = 0 \/ d = 1 \/ d = 2 \/ d = 3 \/ d = 4 \/ d = 5 \/ d = 6 \/
                d = 7 \/ d = 8 \/ d = 9) by lia.
    destruct H as [->|[->|[->|[->|[->|[->|[->|[->|[->| ->]]]]]]]]];
      try reflexivity.
    rewrite (Hzero s1' eq_refl). reflexivity. }
  assert (Hsign : (match byte (48 + d) :: s1' with
                   | "-"%char :: r => (true, r)
                   | _ => (false, byte (48 + d) :: s1')
                   end) = (false, byte (48 + d) :: s1')).
  { assert (H : d = 0 \/ d = 1 \/ d = 2 \/ d = 3 \/ d = 4 \/ d = 5 \/ d = 6 \/
                d = 7 \/ d = 8 \/ d = 9) by lia.
    destruct H as [->|[->|[->|[->|[->|[->|[->|[->|[->| ->]]]]]]]]]; reflexivity. }
  destruct neg; unfold parse_number; cbn [app].
  - rewrite Hdig, Hlz, (proj2 (Z.eqb_neq ilen 0) Hlen). cbn [orb].
    destruct s2 as [|c2 s2']; [reflexivity|].
    destruct c2 as [[] [] [] [] [] [] [] []]; try discriminate; reflexivity.
  - rewrite Hsign, Hdig, Hlz, (proj2 (Z.eqb_neq ilen 0) Hlen). cbn [orb].
    destruct s2 as [|c2 s2']; [reflexivity|].
    destruct c2 as [[] [] [] [] [] [] [] []]; try discriminate; reflexivity.
Qed.

Lemma strip_zeros_spec l :
  exists z, l = app (repeat "0"%char z) (strip_zeros l) /\
            length l = (z + length (strip_zeros l))%nat.
Proof.
  induction l as [|c l (z & IH & Hlen)]; [by exists 0%nat|].
  destruct (Ascii.eqb_spec c "0"%char) as [->|Hc].
  - exists (S z). cbn [strip_zeros repeat app length]. split; [by f_equal|lia].
  - exists 0%nat.
    assert (strip_zeros (c :: l) = c :: l) as ->; [|done].
    destruct c as [[] [] [] [] [] [] [] []]; try reflexivity. done.
Qed.

(** An integer below [10^21] is printed with all its digits. *)
Lemma Number_toString_integer m :
  m <> 0 -> Z.abs m < 10 ^ 21 ->
  Number_toString m 0
  = app (if m <? 0 then ["-"%char] else []) (decimal (Z.abs m)).
Proof.
  intros Hm Hlt. unfold Number_toString.
  rewrite (proj2 (Z.eqb_neq m 0) Hm). cbv zeta. f_equal.
  destruct (decimal_spec (Z.abs m) [] ltac:(lia))
    as (j & _ & _ & Hj & Hpow & _ & _ & _ & _ & Hlen & _).
  destruct (strip_zeros_spec (rev (decimal (Z.abs m)))) as (z & Hz & Hzlen).
  rewrite length_rev in Hzlen.
  assert (Hall : decimal (Z.abs m)
                 = app (rev (strip_zeros (rev (decimal (Z.abs m)))))
                       (repeat "0"%char z)).
  { rewrite <- (rev_involutive (decimal (Z.abs m))) at 1.
    rewrite Hz at 1. rewrite rev_app_distr. f_equal.
    clear. induction z as [|z IH]; [done|].
    cbn [repeat rev]. rewrite IH. clear.
    induction z as [|z IH]; [done|]. cbn [repeat app]. by rewrite IH. }
  assert (Hj21 : j <= 21).
  { destruct (Z.le_gt_cases j 21) as [|Hgt]; [done|].
    assert (10 ^ 21 <= 10 ^ (j - 1)) by (apply Z.pow_le_mono_r; lia).
    specialize (Hpow ltac:(lia)). lia. }
  set (all := decimal (Z.abs m)) in *.
  set (significant := rev (strip_zeros (rev all))) in *.
  assert (Hk : length all = (z + length significant)%nat)
    by (unfold significant; by rewrite length_rev).
  assert (H1 : (Z.of_nat (length significant) <=? Z.of_nat (length all) + 0) = true)
    by (apply Z.leb_le; lia).
  assert (H2 : (Z.of_nat (length all) + 0 <=? 21) = true)
    by (apply Z.leb_le; lia).
  rewrite H1, H2. cbn [andb].
  replace (Z.to_nat (Z.of_nat (length all) + 0 - Z.of_nat (length significant)))
    with z by lia.
  symmetry. exact Hall.
Qed.

Lemma parse_number_integer m r :
  Z.abs m < 10 ^ 21 -> delimited r = true ->
  parse_number (app (Number_toString m 0) r) = Some (JNum m 0, r).
Proof.
  intros Hlt Hdel.
  destruct (Z.eq_dec m 0) as [->|Hm].
  { destruct r as [|c r]; [reflexivity|].
    destruct c as [[] [] [] [] [] [] [] []]; try discriminate; reflexivity. }
  rewrite Number_toString_integer by done. rewrite <- app_assoc.
  destruct (decimal_spec (Z.abs m) r ltac:(lia))
    as (j & d & rest & Hj & _ & Hd & Hpos & _ & Heq & _ & Hdig).
  rewrite (parse_number_digits (m <? 0) (app (decimal (Z.abs m)) r)
             (Z.abs m) j r).
  - replace ((if m <? 0 then -1 else 1) * Z.abs m) with m; [done|].
    destruct (Z.ltb_spec m 0); lia.
  - rewrite Hdig, digits_delimited by done.
    replace (0 * 10 ^ j + Z.abs m) with (Z.abs m) by lia.
    by replace (0 + j) with j by lia.
  - lia.
  - intros s' Hs'. rewrite Heq in Hs'. cbn [app] in Hs'.
    injection Hs' as Hb _. exfalso.
    assert (H : digit_val (byte (48 + d)) = Some 0) by (by rewrite Hb).
    rewrite digit_val_byte in H by done. injection H as ->. lia.
  - done.
Qed.

(** *** Values *)

Lemma json_ind' (P : json -> Prop) :
  P JNull -> (forall b, P (JBool b)) -> (forall m e, P (JNum m e)) ->
  (forall s, P (JStr s)) ->
  (forall items, Forall P items -> P (JArr items)) ->
  (forall fields, Forall (fun kv => P (snd kv)) fields -> P (JObj fields)) ->
  forall v, P v.
Proof.
  intros Hnull Hbool Hnum Hstr Harr Hobj.
  fix IH 1. intros [| | | |items|fields]; [done..| |].
  - apply Harr. induction items as [|item items IHitems]; constructor; [apply IH|done].
  - apply Hobj. induction fields as [|[k v] fields IHfields]; constructor;
      [apply IH|done].
Qed.

Lemma parse_value_skip fuel pre s :
  forallb is_ws pre = true -> parse_value fuel (app pre s) = parse_value fuel s.
Proof.
  intros Hpre. destruct fuel; [done|]. cbn [parse_value].
  by rewrite skip_ws_app.
Qed.

Lemma parse_elements_skip fuel pre s acc :
  forallb is_ws pre = true ->
  parse_elements fuel (app pre s) acc = parse_elements fuel s acc.
Proof.
  intros Hpre. destruct fuel; [done|]. cbn [parse_elements].
  by rewrite parse_value_skip.
Qed.

Lemma parse_members_skip fuel pre s acc :
  forallb is_ws pre = true ->
  parse_members fuel (app pre s) acc = parse_members fuel s acc.
Proof.
  intros Hpre. destruct fuel; [done|]. cbn [parse_members].
  by rewrite skip_ws_app.
Qed.

Lemma parse_value_number fuel c d l :
  c = "-"%char \/ digit_val c = Some d ->
  parse_value (S fuel) (c :: l) = parse_number (c :: l).
Proof.
  intros [->|[-> Hd]%digit_val_inv]; [reflexivity|].
  assert (H : d = 0 \/ d = 1 \/ d = 2 \/ d = 3 \/ d = 4 \/ d = 5 \/ d = 6 \/
              d = 7 \/ d = 8 \/ d = 9) by lia.
  destruct H as [->|[->|[->|[->|[->|[->|[->|[->|[->| ->]]]]]]]]]; reflexivity.
Qed.

(** The first character of the text of a number. *)
Lemma Number_toString_head m :
  Z.abs m < 10 ^ 21 ->
  exists c d l, Number_toString m 0 = c :: l /\
                (c = "-"%char \/ digit_val c = Some d).
Proof.
  intros Hlt. destruct (Z.eq_dec m 0) as [->|Hm].
  { exists "0"%char, 0, []. split; [reflexivity|by right]. }
  rewrite Number_toString_integer by done.
  destruct (Z.ltb_spec m 0).
  - exists "-"%char, 0, (decimal (Z.abs m)). split; [done|by left].
  - destruct (decimal_spec (Z.abs m) [] ltac:(lia))
      as (j & d & rest & _ & _ & Hd & _ & _ & -> & _).
    exists (byte (48 + d)), d, rest. split; [done|].
    right. by apply digit_val_byte.
Qed.

Lemma parse_value_integer fuel m r :
  Z.abs m < 10 ^ 21 -> delimited r = true ->
  parse_value (S fuel) (app (Number_toString m 0) r) = Some (JNum m 0, r).
Proof.
  intros Hlt Hdel.
  destruct (Number_toString_head m Hlt) as (c & d & l & Heq & Hc).
  rewrite <- (parse_number_integer m r Hlt Hdel), Heq.
  cbn [app]. by apply (parse_value_number fuel c d).
Qed.

Lemma parse_value_string fuel s r :
  parse_value (S fuel) (app (quote s) r) = Some (JStr s, r).
Proof.
  unfold quote. cbn [app]. rewrite <- app_assoc. cbn [app].
  change (parse_value (S fuel) ("034"%char :: ?l))
    with (match parse_chars l [] with
          | Some (str, r') => Some (JStr str, r')
          | None => None
          end).
  by rewrite parse_quote.
Qed.

Lemma forallb_ws_app (a b : list ascii) :
  forallb is_ws a = true -> forallb is_ws b = true ->
  forallb is_ws (app a b) = true.
Proof. intros Ha Hb. by rewrite forallb_app, Ha, Hb. Qed.

(** The text of a non-empty array or object: the parts with commas,
    and white space after the opening bracket, after each comma and
    before the closing bracket. *)
Lemma enclose_shape gap stepback opening closing part partial :
  forallb is_ws gap = true -> forallb is_ws stepback = true ->
  exists w0 w1 w2,
    forallb is_ws w0 = true /\ forallb is_ws w1 = true /\
    forallb is_ws w2 = true /\
    enclose gap stepback opening closing (part :: partial)
    = opening :: app w0 (app (join (","%char :: w1) (part :: partial))
                             (app w2 [closing])).
Proof.
  intros Hgap Hstep. unfold enclose. destruct gap as [|g gap].
  - exists [], [], []. done.
  - exists ("010"%char :: app stepback (g :: gap)),
           ("010"%char :: app stepback (g :: gap)),
           ("010"%char :: stepback).
    assert (H : forallb is_ws ("010"%char :: app stepback (g :: gap)) = true).
    { cbn [forallb]. by rewrite forallb_ws_app. }
    split; [exact H|]. split; [exact H|]. split; [done|].
    cbn [app]. done.
Qed.

Lemma skip_ws_closing ws c r :
  forallb is_ws ws = true -> is_ws c = false ->
  skip_ws (app ws (c :: r)) = c :: r.
Proof.
  intros Hws Hc. rewrite skip_ws_app by done. cbn [skip_ws]. by rewrite Hc.
Qed.

Lemma delimited_closing ws c r :
  forallb is_ws ws = true ->
  c = ","%char \/ c = "]"%char \/ c = "}"%char ->
  delimited (app ws (c :: r)) = true.
Proof.
  intros Hws Hc. destruct ws as [|w ws].
  - destruct Hc as [->|[->| ->]]; reflexivity.
  - cbn [forallb] in Hws. apply andb_prop in Hws as [Hw _].
    cbn [app delimited]. by rewrite Hw.
Qed.

Section Elements.
Variables (gap indent w1 w2 r : list ascii).
Hypothesis Hw1 : forallb is_ws w1 = true.
Hypothesis Hw2 : forallb is_ws w2 = true.

Lemma parse_elements_items items :
  Forall (reads_back gap indent) items -> forallb plain items = true -> items <> [] ->
  forall acc fuel pre,
    forallb is_ws pre = true ->
    (foldr (fun item rest => S (Nat.max (need item) rest)) 0 items <= fuel)%nat ->
    parse_elements fuel
      (app pre (app (join (","%char :: w1) (map (serialize gap indent) items))
                    (app w2 ("]"%char :: r)))) acc
    = Some (JArr (app (rev acc) items), r).
Proof.
  induction 1 as [|v items Hv Hitems IH]; [done|].
  cbn [forallb]. intros [Hpv Hpitems]%andb_prop _ acc fuel pre Hpre Hfuel.
  cbn [foldr] in Hfuel. destruct fuel as [|fuel]; [lia|].
  cbn [parse_elements]. destruct items as [|v' items'].
  - cbn [map join]. rewrite Hv; [|done|done|by apply delimited_closing; eauto|lia].
    rewrite skip_ws_closing by done. done.
  - change (join (","%char :: w1) (map (serialize gap indent) (v :: v' :: items')))
      with (app (serialize gap indent v)
              (app (","%char :: w1)
                   (join (","%char :: w1) (map (serialize gap indent) (v' :: items'))))).
    rewrite <- !app_assoc. rewrite Hv; [|done|done|done|lia].
    cbn [app skip_ws is_ws].
    rewrite (IH Hpitems ltac:(done) (v :: acc) fuel w1 Hw1) by lia.
    cbn [rev]. by rewrite <- app_assoc.
Qed.

Lemma set_fresh k v (acc : obj) :
  k ∉ map fst acc -> set k v acc = app acc [(k, v)].
Proof.
  induction acc as [|[k' v'] acc IH]; [done|].
  cbn [map fst]. rewrite not_elem_of_cons. intros [Hne Hk].
  cbn [set]. rewrite (proj2 (String.eqb_neq k k')) by done.
  cbn [app]. f_equal. by apply IH.
Qed.

Lemma parse_members_fields fields :
  Forall (fun kv => reads_back gap indent (snd kv)) fields ->
  forallb (fun kv => plain (snd kv)) fields = true -> fields <> [] ->
  forall acc fuel pre,
    forallb is_ws pre = true ->
    NoDup (app (map fst acc) (map fst fields)) ->
    (foldr (fun kv rest => S (Nat.max (need (snd kv)) rest)) 0 fields <= fuel)%nat ->
    parse_members fuel
      (app pre (app (join (","%char :: w1) (map (member_text gap indent) fields))
                    (app w2 ("}"%char :: r)))) acc
    = Some (JObj (app acc fields), r).
Proof.
  assert (Hsp : forallb is_ws (match gap with [] => [] | _ => [" "%char] end) = true)
    by by destruct gap.
  induction 1 as [|[k v] fields Hv Hfields IH]; [done|].
  cbn [forallb snd]. intros [Hpv Hpfields]%andb_prop _ acc fuel pre Hpre Hnd Hfuel.
  cbn [foldr snd] in Hfuel, Hv. destruct fuel as [|fuel]; [lia|].
  rewrite parse_members_skip by done.
  assert (Hk : k ∉ map fst acc).
  { cbn [map fst] in Hnd. apply NoDup_app in Hnd as (_ & Hdisj & _).
    intros Hin. apply (Hdisj k Hin). by left. }
  assert (Hone : forall R, delimited R = true ->
    parse_members (S fuel) (app (member_text gap indent (k, v)) R) acc
    = match skip_ws R with
      | ","%char :: r4 => parse_members fuel r4 (app acc [(k, v)])
      | "}"%char :: r4 => Some (JObj (app acc [(k, v)]), r4)
      | _ => None
      end).
  { intros R HR. unfold member_text, quote. cbn [app].
    rewrite <- !app_assoc. cbn [app parse_members skip_ws is_ws].
    rewrite parse_quote. cbn [skip_ws is_ws]. rewrite <- app_assoc.
    rewrite (Hv Hpv _ R fuel Hsp HR) by lia.
    by rewrite set_fresh. }
  destruct fields as [|kv' fields'].
  - cbn [map join]. rewrite Hone by (apply delimited_closing; eauto).
    rewrite skip_ws_closing by done. done.
  - change (join (","%char :: w1) (map (member_text gap indent) ((k, v) :: kv' :: fields')))
      with (app (member_text gap indent (k, v))
              (app (","%char :: w1)
                   (join (","%char :: w1) (map (member_text gap indent) (kv' :: fields'))))).
    rewrite <- !app_assoc. rewrite Hone by done.
    cbn [app skip_ws is_ws].
    rewrite (IH Hpfields ltac:(done) (app acc [(k, v)]) fuel w1 Hw1).
    + by rewrite <- app_assoc.
    + rewrite map_app, <- app_assoc. exact Hnd.
    + lia.
Qed.

End Elements.

Lemma parse_value_array fuel X c Y :
  skip_ws X = c :: Y -> c <> "]"%char ->
  parse_value (S fuel) ("["%char :: X) = parse_elements fuel X [].
Proof.
  intros H Hc.
  change (parse_value (S fuel) ("["%char :: X))
    with (match skip_ws X with
          | "]"%char :: r' => Some (JArr [], r')
          | _ => parse_elements fuel X []
          end).
  rewrite H. destruct c as [[] [] [] [] [] [] [] []]; try reflexivity. done.
Qed.

Lemma parse_value_object fuel X c Y :
  skip_ws X = c :: Y -> c <> "}"%char ->
  parse_value (S fuel) ("{"%char :: X) = parse_members fuel X [].
Proof.
  intros H Hc.
  change (parse_value (S fuel) ("{"%char :: X))
    with (match skip_ws X with
          | "}"%char :: r' => Some (JObj [], r')
          | _ => parse_members fuel X []
          end).
  rewrite H. destruct c as [[] [] [] [] [] [] [] []]; try reflexivity. done.
Qed.

Lemma join_head separator c l parts :
  exists Y, join separator ((c :: l) :: parts) = c :: Y.
Proof. destruct parts; eexists; reflexivity. Qed.

(** The first character of the text of a value. *)
Lemma serialize_head gap indent v :
  plain v = true ->
  exists c l, serialize gap indent v = c :: l /\
              is_ws c = false /\ c <> "]"%char /\ c <> "}"%char.
Proof.
  destruct v as [|[]|m e|s|items|fields]; intros Hplain;
    try (eexists _, _; split; [reflexivity|done]).
  - cbn [plain] in Hplain. apply andb_prop in Hplain as [->%Z.eqb_eq Hm%Z.leb_le].
    destruct (Number_toString_head m) as (c & d & l & Heq & Hc).
    { apply Z.le_lt_trans with 9007199254740991; [done|reflexivity]. }
    exists c, l. split; [exact Heq|].
    destruct Hc as [->|[-> Hd]%digit_val_inv]; [done|].
    assert (H : d = 0 \/ d = 1 \/ d = 2 \/ d = 3 \/ d = 4 \/ d = 5 \/ d = 6 \/
                d = 7 \/ d = 8 \/ d = 9) by lia.
    destruct H as [->|[->|[->|[->|[->|[->|[->|[->|[->| ->]]]]]]]]]; done.
  - cbn [serialize]. unfold enclose.
    destruct (map _ items), gap; eexists _, _; (split; [reflexivity|done]).
  - cbn [serialize]. unfold enclose.
    destruct (map _ fields), gap; eexists _, _; (split; [reflexivity|done]).
Qed.

(** A text written by [serialize] is read back by [parse_value]. *)
Lemma parse_serialize v :
  forall gap indent,
    forallb is_ws gap = true -> forallb is_ws indent = true ->
    reads_back gap indent v.
Proof.
  induction v as [|b|m e|s|items IH|fields IH] using json_ind';
    intros gap indent Hgap Hindent Hplain pre rest fuel Hpre Hrest Hfuel;
    rewrite parse_value_skip by done;
    (destruct fuel as [|fuel]; [simpl in Hfuel; lia|]).
  - reflexivity.
  - destruct b; reflexivity.
  - cbn [plain] in Hplain. apply andb_prop in Hplain as [->%Z.eqb_eq Hm%Z.leb_le].
    apply parse_value_integer; [|done].
    apply Z.le_lt_trans with 9007199254740991; [done|reflexivity].
  - apply parse_value_string.
  - cbn [serialize]. destruct items as [|item items]; [reflexivity|].
    assert (Hin : forallb is_ws (app indent gap) = true)
      by by apply forallb_ws_app.
    cbn [map].
    destruct (enclose_shape gap indent "["%char "]"%char
                (serialize gap (app indent gap) item)
                (map (serialize gap (app indent gap)) items) Hgap Hindent)
      as (w0 & w1 & w2 & Hw0 & Hw1 & Hw2 & ->).
    cbn [plain] in Hplain. pose proof Hplain as Hitems.
    cbn [forallb] in Hplain. apply andb_prop in Hplain as [Hitem _].
    cbn [app]. rewrite <- !app_assoc. cbn [app].
    assert (Hskip : exists c Y,
      skip_ws (app w0 (app (join (","%char :: w1)
                 (serialize gap (app indent gap) item
                    :: map (serialize gap (app indent gap)) items))
                 (app w2 ("]"%char :: rest)))) = c :: Y /\ c <> "]"%char).
    { destruct (serialize_head gap (app indent gap) item Hitem)
        as (c & l & -> & Hc & Hc1 & Hc2).
      destruct (join_head (","%char :: w1) c l
                  (map (serialize gap (app indent gap)) items)) as [Y ->].
      exists c, (app Y (app w2 ("]"%char :: rest))). split; [|done].
      cbn [app]. by apply skip_ws_closing. }
    destruct Hskip as (c & Y & Hskip & Hc).
    rewrite (parse_value_array fuel _ c Y Hskip Hc).
    apply (parse_elements_items gap (app indent gap) w1 w2 rest Hw1 Hw2
             (item :: items)); try done.
    + eapply Forall_impl; [exact IH|]. intros v Hv. by apply Hv.
    + cbn [need] in Hfuel. lia.
  - cbn [serialize]. destruct fields as [|[k member] fields]; [reflexivity|].
    assert (Hin : forallb is_ws (app indent gap) = true)
      by by apply forallb_ws_app.
    change (map _ ((k, member) :: fields))
      with (member_text gap (app indent gap) (k, member)
              :: map (member_text gap (app indent gap)) fields).
    destruct (enclose_shape gap indent "{"%char "}"%char
                (member_text gap (app indent gap) (k, member))
                (map (member_text gap (app indent gap)) fields) Hgap Hindent)
      as (w0 & w1 & w2 & Hw0 & Hw1 & Hw2 & ->).
    cbn [plain] in Hplain. apply andb_prop in Hplain as [Hnd Hfields].
    apply bool_decide_eq_true in Hnd.
    assert (Hvalues : forallb (fun kv => plain (snd kv)) ((k, member) :: fields) = true).
    { apply forallb_forall. intros kv Hkv.
      rewrite forallb_forall in Hfields. specialize (Hfields kv Hkv).
      by apply andb_prop in Hfields as [_ ?]. }
    cbn [app]. rewrite <- !app_assoc. cbn [app].
    assert (Hskip : exists Y,
      skip_ws (app w0 (app (join (","%char :: w1)
                 (member_text gap (app indent gap) (k, member)
                    :: map (member_text gap (app indent gap)) fields))
                 (app w2 ("}"%char :: rest)))) = "034"%char :: Y).
    { unfold member_text at 1, quote. cbn [app].
      destruct (join_head (","%char :: w1) "034"%char
                  (app (app (flat_map quote_char (list_ascii_of_string k)) ["034"%char])
                     (":"%char :: app (match gap with [] => [] | _ => [" "%char] end)
                                      (serialize gap (app indent gap) member)))
                  (map (member_text gap (app indent gap)) fields)) as [Y ->].
      exists (app Y (app w2 ("}"%char :: rest))).
      cbn [app]. by apply skip_ws_closing. }
    destruct Hskip as (Y & Hskip).
    rewrite (parse_value_object fuel _ "034"%char Y Hskip ltac:(done)).
    apply (parse_members_fields gap (app indent gap) w1 w2 rest Hw1 Hw2
             ((k, member) :: fields)); try done.
    + eapply Forall_impl; [exact IH|]. intros kv Hv. by apply Hv.
    + cbn [need] in Hfuel. lia.
Qed.

(** The fuel that a list of parts takes against the length of their
    text. *)
Lemma need_join {A} (f : A -> nat) (g : A -> list ascii) separator (l : list A) :
  separator <> [] ->
  Forall (fun a => (f a + 1 <= 2 * length (g a))%nat) l ->
  (foldr (fun a rest => S (Nat.max (f a) rest)) 0 l
   <= 2 * length (join separator (map g l)))%nat.
Proof.
  intros Hsep. induction 1 as [|a l Ha Hl IH]; [done|].
  cbn [foldr map]. destruct l as [|a' l'].
  - cbn [foldr map join]. lia.
  - change (join separator (g a :: map g (a' :: l')))
      with (app (g a) (app separator (join separator (map g (a' :: l'))))).
    rewrite !length_app.
    assert (1 <= length separator)%nat by (destruct separator; [done|simpl; lia]).
    lia.
Qed.

Lemma need_serialize gap indent v :
  plain v = true -> (need v + 1 <= 2 * length (serialize gap indent v))%nat.
Proof.
  revert indent.
  induction v as [|b|m e|s|items IH|fields IH] using json_ind';
    intros indent Hplain.
  - cbn. lia.
  - destruct b; cbn; lia.
  - destruct (serialize_head gap indent (JNum m e) Hplain) as (c & l & -> & _).
    cbn. lia.
  - cbn. lia.
  - cbn [serialize need]. cbn [plain] in Hplain.
    assert (Hparts : Forall (fun item =>
              (need item + 1 <= 2 * length (serialize gap (app indent gap) item))%nat)
              items).
    { apply Forall_forall. intros item Hitem.
      rewrite Forall_forall in IH. apply IH; [done|].
      rewrite forallb_forall in Hplain. apply Hplain.
      by apply list_elem_of_In. }
    unfold enclose. destruct (map (serialize gap (app indent gap)) items) eqn:Hmap.
    { destruct items; [cbn; lia|done]. }
    rewrite <- Hmap. destruct gap as [|g gap'].
    + pose proof (need_join need (serialize [] (app indent [])) [","%char] items
                    ltac:(done) Hparts).
      cbn [length]. rewrite length_app. cbn [length]. lia.
    + pose proof (need_join need (serialize (g :: gap') (app indent (g :: gap')))
                    (","%char :: "010"%char :: app indent (g :: gap')) items
                    ltac:(done) Hparts).
      cbn [length]. rewrite !length_app. cbn [length]. lia.
  - cbn [serialize need]. cbn [plain] in Hplain.
    apply andb_prop in Hplain as [_ Hplain].
    set (member := fun kv : string * json =>
           let (k, member) := kv in
           app (quote k)
             (":"%char :: app (match gap with [] => [] | _ => [" "%char] end)
                              (serialize gap (app indent gap) member))).
    assert (Hparts : Forall (fun kv =>
              (need (snd kv) + 1 <= 2 * length (member kv))%nat) fields).
    { apply Forall_forall. intros [k v] Hkv.
      rewrite Forall_forall in IH. specialize (IH (k, v) Hkv (app indent gap)).
      rewrite forallb_forall in Hplain.
      specialize (Hplain (k, v) (proj1 (list_elem_of_In _ _) Hkv)).
      apply andb_prop in Hplain as [_ Hv]. cbn [snd] in *.
      specialize (IH Hv). unfold member. rewrite length_app. cbn [length].
      rewrite length_app. lia. }
    unfold enclose. destruct (map member fields) eqn:Hmap.
    { destruct fields; [cbn; lia|done]. }
    rewrite <- Hmap. destruct gap as [|g gap'].
    + pose proof (need_join (fun kv => need (snd kv)) member [","%char] fields
                    ltac:(done) Hparts).
      cbn [length]. rewrite length_app. cbn [length]. lia.
    + pose proof (need_join (fun kv => need (snd kv)) member
                    (","%char :: "010"%char :: app indent (g :: gap')) fields
                    ltac:(done) Hparts).
      cbn [length]. rewrite !length_app. cbn [length]. lia.
Qed.

Lemma parse_stringify v space :
  plain v = true -> JSON_parse (JSON_stringify v space) = Some v.
Proof.
  intros Hplain. unfold JSON_parse, JSON_stringify.
  rewrite list_ascii_of_string_of_list_ascii.
  set (gap := repeat " "%char (Z.to_nat (Z.min 10 space))).
  assert (Hgap : forallb is_ws gap = true).
  { unfold gap. induction (Z.to_nat (Z.min 10 space)) as [|n IH]; [done|].
    cbn [repeat forallb]. by rewrite IH. }
  pose proof (parse_serialize v gap [] Hgap eq_refl Hplain [] []
                (2 * length (serialize gap [] v) + 2)%nat eq_refl eq_refl) as Hparse.
  rewrite app_nil_r in Hparse. cbn [app] in Hparse.
  rewrite Hparse; [done|].
  pose proof (need_serialize gap [] v Hplain). lia.
Qed.

(** [JSON.parse] reads back what [JSON.stringify] writes: for a plain
    value [v] and any [space], [JSON.parse(JSON.stringify(v, null,
    space))] is [v].  So the text determines the value, whatever the
    indentation: two plain values with the same text are the same
    value. *)
Theorem JSON_parse_reads_JSON_stringify_back v space :
  plain v = true ->
  JSON_parse (JSON_stringify v space) = Some v /\
  forall v' space',
    plain v' = true -> JSON_stringify v' space' = JSON_stringify v space ->
    v' = v.
Proof.
  intros Hplain. split; [by apply parse_stringify|].
  intros v' space' Hplain' Heq.
  pose proof (parse_stringify v' space' Hplain') as H'.
  rewrite Heq, parse_stringify in H' by done. congruence.
Qed.

Lemma JSON_parse_reads_JSON_stringify_back_witness :
  plain Admin.ServicesPage.menu_template = true /\
  JSON_parse (JSON_stringify Admin.ServicesPage.menu_template 2)
  = Some Admin.ServicesPage.menu_template.
Proof.
  split; [reflexivity|].
  exact (proj1 (JSON_parse_reads_JSON_stringify_back
                  Admin.ServicesPage.menu_template 2 eq_refl)).
Defined.










End JsonText.

(** ** The dialogs of the pages *)

Section Dialogs.
Import Js Admin Admin.ServicesPage.
Local Open Scope string_scope.

(** The form after changes that leave [menu_structure] alone. *)
Lemma form_changes_keep (changes : list change) (st : state) :
  Forall (fun e => target_name e <> input_menu_structure) changes ->
  let st' := foldl (fun s e => handleFormChange e s) st changes in
  services st' = services st /\ dialogMode st' = dialogMode st /\
  selectedService st' = selectedService st /\
  menu_structure (formData st') = menu_structure (formData st).
Proof.
  intros Hall. revert st. induction Hall as [|e changes He _ IH]; intros st; [done|].
  cbn [foldl]. cbv zeta in IH |- *.
  destruct (IH (handleFormChange e st)) as (-> & -> & -> & ->).
  repeat split. unfold handleFormChange. cbn [formData].
  by destruct (target_name e).
Qed.

(** The add dialog, from the click to the submission: when the fields
    other than the menu are filled in, in any way, and the form is
    submitted, the list gets one more service, with the next number as
    its [id], the fields as typed, the two time stamps, and the menu
    that [handleAddClick] proposed, read back from the text it was
    shown as; the dialog closes on the success notification. *)
Theorem add_dialog_adds_the_proposed_menu clock (changes : list change) (st : state) :
  Forall (fun e => target_name e <> input_menu_structure) changes ->
  let filled := foldl (fun s e => handleFormChange e s) (handleAddClick st) changes in
  let st' := handleSubmit clock filled in
  exists service,
    services st' = app (services st) [service] /\
    get "id" service = Some (JNum (Z.of_nat (length (services st)) + 1) 0) /\
    get "code" service = Some (JStr (code (formData filled))) /\
    get "name" service = Some (JStr (name (formData filled))) /\
    get "description" service = Some (JStr (description (formData filled))) /\
    get "menu_structure" service = Some menu_template /\
    get "is_active" service = Some (JBool (is_active (formData filled))) /\
    get "created_at" service = Some (JStr (clock 0%nat)) /\
    get "updated_at" service = Some (JStr (clock 1%nat)) /\
    openDialog st' = false /\
    snackbar st' = {| open := true; message := "Service ajouté avec succès";
                      severity := "success" |}.
Proof.
  intros Hall filled st'.
  destruct (form_changes_keep changes (handleAddClick st) Hall)
    as (Hsvcs & Hmode & _ & Hmenu).
  fold filled in Hsvcs, Hmode, Hmenu.
  cbn [handleAddClick services dialogMode formData menu_structure] in Hsvcs, Hmode, Hmenu.
  unfold st', handleSubmit.
  rewrite Hmenu, (parse_stringify menu_template 2 eq_refl), Hmode, Hsvcs.
  eexists. split; [reflexivity|]. repeat split.
Qed.

Lemma as_string_get k (o : obj) s :
  as_string (get k o) = Some s -> get k o = Some (JStr s).
Proof. destruct (get k o) as [[]|]; try done. by intros [= ->]. Qed.

Lemma as_bool_get k (o : obj) b :
  as_bool (get k o) = Some b -> get k o = Some (JBool b).
Proof. destruct (get k o) as [[]|]; try done. by intros [= ->]. Qed.

(** Opening the edit dialog on a service and submitting it as it is
    saves what was there: the service keeps every property but
    [updated_at], and its [menu_structure] is the menu it had (the
    empty object if it had none), read back from the text of the form;
    the services with another [id] are not touched, and the dialog
    closes on the success notification. *)
Theorem edit_dialog_saves_the_service_as_it_is clock (st st1 : state) service i :
  services st !! i = Some service ->
  strict_eq (get "id" service) (get "id" service) = true ->
  handleEditClick service st = Some st1 ->
  plain (menu_or_empty service) = true ->
  let st' := handleSubmit clock st1 in
  (exists service',
     services st' !! i = Some service' /\
     get "menu_structure" service' = Some (menu_or_empty service) /\
     get "updated_at" service' = Some (JStr (clock i)) /\
     forall k, k <> "menu_structure" -> k <> "updated_at" ->
       get k service' = get k service) /\
  (forall j other, services st !! j = Some other ->
     strict_eq (get "id" other) (get "id" service) = false ->
     services st' !! j = Some other) /\
  length (services st') = length (services st) /\
  openDialog st' = false /\
  snackbar st' = {| open := true; message := "Service mis à jour avec succès";
                    severity := "success" |}.
Proof.
  intros Hi Hid Hclick Hplain st'. unfold handleEditClick in Hclick.
  destruct (as_string (get "code" service)) as [c|] eqn:Hc; [|done].
  destruct (as_string (get "name" service)) as [n|] eqn:Hn; [|done].
  destruct (as_string (get "description" service)) as [d|] eqn:Hd; [|done].
  destruct (as_bool (get "is_active" service)) as [a|] eqn:Ha; [|done].
  apply as_string_get in Hc, Hn, Hd. apply as_bool_get in Ha.
  injection Hclick as <-.
  unfold st', handleSubmit.
  cbn [formData menu_structure dialogMode selectedService services].
  rewrite (parse_stringify (menu_or_empty service) 2 Hplain).
  destruct (services st) as [|s0 svcs] eqn:Hsv; [done|]. rewrite <- Hsv in *.
  cbn [mbind option_bind]. cbn [notify services openDialog snackbar].
  split; [|split; [|split; [apply length_imap|done]]].
  - rewrite list_lookup_imap, Hi. cbn [fmap option_fmap option_map]. rewrite Hid.
    eexists. split; [reflexivity|].
    unfold spread, form_obj.
    cbn [set fold_left fst snd String.eqb Ascii.eqb Bool.eqb code name description
         menu_structure is_active].
    split; [|split].
    + rewrite !get_set_ne by reflexivity. apply get_set_eq.
    + apply get_set_eq.
    + intros k Hk1 Hk2.
      rewrite get_set_ne by by apply String.eqb_neq.
      destruct (String.eqb_spec k "is_active") as [->|?];
        [by rewrite get_set_eq, Ha|rewrite get_set_ne by by apply String.eqb_neq].
      rewrite get_set_ne by by apply String.eqb_neq.
      destruct (String.eqb_spec k "description") as [->|?];
        [by rewrite get_set_eq, Hd|rewrite get_set_ne by by apply String.eqb_neq].
      destruct (String.eqb_spec k "name") as [->|?];
        [by rewrite get_set_eq, Hn|rewrite get_set_ne by by apply String.eqb_neq].
      destruct (String.eqb_spec k "code") as [->|?];
        [by rewrite get_set_eq, Hc|rewrite get_set_ne by by apply String.eqb_neq].
      done.
  - intros j other Hj Hne. rewrite list_lookup_imap, Hj.
    cbn [fmap option_fmap option_map]. by rewrite Hne.
Qed.

Lemma add_dialog_adds_the_proposed_menu_witness :
  let changes :=
    [ {| target_name := input_code; value := "*999#"; checked := false |};
      {| target_name := input_name; value := "Nouveau"; checked := false |} ] in
  Forall (fun e => target_name e <> input_menu_structure) changes /\
  exists service,
    services (handleSubmit Samples.noon
                (foldl (fun s e => handleFormChange e s)
                       (handleAddClick Samples.add_dialog) changes))
    = app (services Samples.add_dialog) [service] /\
    get "menu_structure" service = Some menu_template.
Proof.
  intros changes.
  assert (H : Forall (fun e => target_name e <> input_menu_structure) changes)
    by (repeat constructor; discriminate).
  split; [exact H|].
  destruct (add_dialog_adds_the_proposed_menu Samples.noon changes
              Samples.add_dialog H)
    as (service & H1 & _ & _ & _ & _ & H2 & _).
  exists service. split; [exact H1|exact H2].
Defined.

Lemma edit_dialog_saves_the_service_as_it_is_witness :
  exists st1,
    handleEditClick Samples.first_service Samples.edit_dialog = Some st1 /\
    plain (menu_or_empty Samples.first_service) = true /\
    length (services (handleSubmit Samples.noon st1))
    = length (services Samples.edit_dialog).
Proof.
  eexists. split; [reflexivity|]. split; [reflexivity|].
  exact (proj1 (proj2 (proj2
    (edit_dialog_saves_the_service_as_it_is Samples.noon Samples.edit_dialog _
       Samples.first_service 0 eq_refl eq_refl eq_refl eq_refl)))).
Defined.

End Dialogs.

Section Details.
Import Js Admin Admin.SessionsPage.
Local Open Scope string_scope.

(** [formatSessionData] shows nothing for missing or falsy data
    ([undefined], [null], [false], 0 and the empty string) and, for any
    other plain value, a text that is not empty and that [JSON.parse]
    reads back as the data. *)
Theorem formatSessionData_shows_the_data data :
  (truthy data = false -> formatSessionData data = EmptyString) /\
  (forall d, data = Some d -> truthy data = true -> plain d = true ->
     formatSessionData data <> EmptyString /\
     JSON_parse (formatSessionData data) = Some d).
Proof.
  split.
  - intros Hdata. unfold formatSessionData. destruct data; [|done]. by rewrite Hdata.
  - intros d -> Htrue Hplain. unfold formatSessionData. rewrite Htrue.
    split; [|by apply parse_stringify].
    unfold JSON_stringify.
    destruct (serialize_head (repeat " "%char (Z.to_nat (Z.min 10 2))) [] d Hplain)
      as (c & l & -> & _).
    done.
Qed.

End Details.
